(** * tools/shuffle_tfrecords_beam_for_local.py

    A model of the TFRecord shuffling tool: the hash bucketer
    ([partition]), the randomizing shuffler ([shuffle_records]), the
    pre-partitioning step ([pre_partition]), the manifest writer
    ([write_summary_string_to_file]) and the orchestration in [main].

    Conventions.
    - A Beam [PCollection] is a list, in the order in which the runner
      emits its elements.
    - Python exceptions are values of [exn]; code that can raise returns
      [exn + A].
    - Code with side effects (the filesystem, the logging module, the
      dataflow executions that have been started) runs in the monad [M]
      over [world].
    - Functions of libraries the script calls (hashlib, argparse, glob,
      the Beam runner) are fields of the class [Substrate].
    - A [with beam.Pipeline(...)] block builds its pipeline in the body
      and runs it when the block is left; an exception in the body leaves
      the pipeline unrun.
    - A Beam source is checked when it is built: a pattern that finds
      no file raises there, before the pipeline runs. What a source that
      was built reads is a function of the world.
    - [os.makedirs] and [os.remove] raise for what the paths are (a
      path that is there, or is not, or has a regular file on its way)
      and for nothing else; the sinks of Beam do not fail. There are no
      permissions, no symbolic links and no [..] parts. Relative paths
      are relative to one working directory, which no absolute path of
      the world names or leads through. [assert] statements are
      checked. *)

From Stdlib Require Import ZArith Strings.Byte Strings.Ascii DecimalString DecimalZ.
From stdpp Require Import gmap strings list fin_maps.

Local Open Scope Z_scope.

(** ** Python values *)

Definition bytes : Type := list byte.

#[global] Instance byte_eq_dec : EqDecision byte := Byte.byte_eq_dec.

(** The integer value of one byte, as iterating over a [bytes] object
    yields it. *)
Definition byte_value (b : byte) : Z := Z.of_N (Byte.to_N b).

Inductive exn : Type :=
| AssertionError (msg : string)
| ValueError (msg : string)
| AttributeError (msg : string)
| TypeError (msg : string)
| ZeroDivisionError
| OSError (path : string)
| SystemExit (code : Z).

#[global] Instance exn_eq_dec : EqDecision exn.
Proof. solve_decision. Defined.

(** Truthiness of an optional string ([None] and [''] are falsy). *)
Definition truthy (s : option string) : bool :=
  match s with
  | Some (String _ _) => true
  | _ => false
  end.

(** [s.split(sep)] for a one-character separator. *)
Fixpoint str_split (sep : ascii) (s : string) : list string :=
  match s with
  | EmptyString => [EmptyString]
  | String c s' =>
      if Ascii.eqb c sep then EmptyString :: str_split sep s'
      else match str_split sep s' with
           | h :: t => String c h :: t
           | [] => [String c EmptyString]
           end
  end.

(** ['%d' % i] and ['{}'.format(i)] for an integer. *)
Definition format_d (i : Z) : string :=
  NilZero.string_of_int (Z.to_int i).

Fixpoint zeros (n : nat) : string :=
  match n with
  | O => EmptyString
  | S n' => String "0" (zeros n')
  end.

(** ['%0<width>d' % i] for a non-negative integer. *)
Definition format_0d (width : nat) (i : nat) : string :=
  let s := format_d (Z.of_nat i) in
  zeros (width - String.length s) +:+ s.

(** [os.path.join(a, b)] for a relative [b]. *)
Definition os_path_join (a b : string) : string :=
  match a with
  | EmptyString => b
  | _ => if String.eqb (String.substring (String.length a - 1) 1 a) "/"
         then a +:+ b else a +:+ "/" +:+ b
  end.

(** ** The libraries the script runs on *)

(** The parsed command line: the attributes of argparse's namespace.
    A string flag that was not given is [None]. *)
Record known_args := KnownArgs {
  input_pattern_list : option string;
  output_pattern_prefix : option string;
  output_dataset_config_pbtxt : option string;
  output_dataset_name : option string;
  num_buckets : Z;
  pre_partition_flag : bool;
  pre_partition_workdir : option string;
  debug : bool;
}.

Class Substrate := {
  (** [hashlib.blake2b(data, digest_size=n).digest()] *)
  blake2b_digest : bytes → Z → bytes;
  (** [hashlib.sha1(data).digest()] *)
  sha1_digest : bytes → bytes;
  (** [ArgumentParser.parse_known_args] for the parser built in
      [parse_cmdline] *)
  parse_known_args : list string → exn + (known_args * list string);
  (** does a path match a pattern, for [glob.glob] *)
  glob_match : string → string → bool;
  (** does a path match a file pattern, for Beam's file sources *)
  beam_match : string → string → bool;
  (** [beam.GroupByKey]: the runner decides the order of the groups and
      of the values inside a group *)
  GroupByKey : list (bytes * bytes) → list (bytes * list bytes);
  (** how a sharded sink splits the collection it writes into shards *)
  split_shards : list bytes → list (list bytes);
}.

(** What every runner guarantees of [GroupByKey]: ungrouping the result
    gives back the key-value pairs it was given, no key has two groups
    and no group is empty. *)
Definition ungroup (groups : list (bytes * list bytes)) : list (bytes * bytes) :=
  flat_map (λ g, map (pair (fst g)) (snd g)) groups.

Definition GroupByKey_spec (gbk : list (bytes * bytes) → list (bytes * list bytes)) : Prop :=
  ∀ kvs, ungroup (gbk kvs) ≡ₚ kvs
         ∧ NoDup (map fst (gbk kvs))
         ∧ Forall (λ g, snd g ≠ []) (gbk kvs).

(** ** The hash bucketer *)

Section Bucketer.
Context `{Substrate}.

(** The loop of [determine_hash]:
    [for i, b in enumerate(m.digest()): address += b * (2 ** (i * 8))] *)
Fixpoint determine_hash_loop (i : Z) (address : Z) (digest : bytes) : Z :=
  match digest with
  | [] => address
  | b :: rest =>
      determine_hash_loop (i + 1) (address + byte_value b * 2 ^ (i * 8)) rest
  end.

Definition determine_hash (input_bytes : bytes) : Z :=
  determine_hash_loop 0 0 (blake2b_digest input_bytes 4).

(** [address % num_buckets] raises for a zero divisor; otherwise Python's
    [%] takes the sign of the divisor, as [Z.modulo] does. *)
Definition partition (example : bytes) (num_buckets : Z) : exn + Z :=
  let address := determine_hash example in
  if decide (num_buckets = 0) then inl ZeroDivisionError
  else inr (address mod num_buckets).
End Bucketer.

(** A digest read as a little-endian unsigned integer. *)
Fixpoint little_endian_uint (digest : bytes) : Z :=
  match digest with
  | [] => 0
  | b :: rest => byte_value b + 256 * little_endian_uint rest
  end.

(** ** The world the script runs in *)

Inductive file : Type :=
| TFRecordFile (records : list bytes)
| TextFile (content : string).

(** A dataflow execution: one [with beam.Pipeline(...)] block whose
    pipeline was run. *)
Inductive execution : Type :=
| PrePartitionRun (working_directory : string) (num_buckets : Z)
| ShuffleRun (i : nat) (output_pattern_prefix : string)
| MergeRun (output_pattern_prefix : string) (summary : bool).

#[global] Instance execution_eq_dec : EqDecision execution.
Proof. solve_decision. Defined.

Record world := World {
  files : gmap string file;        (* regular files, by path *)
  dirs : gset string;              (* directories that were created *)
  executed : list execution;       (* executions started, oldest first *)
  log_level : Z;                   (* level of the root logger *)
  log_output : list string;        (* records the root logger emitted *)
}.

Definition set_files (fs : gmap string file) (w : world) : world :=
  World fs (dirs w) (executed w) (log_level w) (log_output w).

(** The monad of the script: state [world], exceptions [exn]. What was
    done before an exception is raised stays done. *)
Definition M (A : Type) : Type := world → (exn + A) * world.

#[global] Instance M_ret : MRet M := λ A a w, (inr a, w).

#[global] Instance M_bind : MBind M := λ A B f m w,
  match m w with
  | (inl e, w') => (inl e, w')
  | (inr a, w') => f a w'
  end.

Definition raise {A} (e : exn) : M A := λ w, (inl e, w).

Definition gets {A} (f : world → A) : M A := λ w, (inr (f w), w).

Definition modify (f : world → world) : M unit := λ w, (inr tt, f w).

Definition lift {A} (r : exn + A) : M A := λ w, (r, w).

(** *** logging *)

Definition logging_DEBUG : Z := 10.
Definition logging_INFO : Z := 20.

Definition setLevel (level : Z) : M unit :=
  modify (λ w, World (files w) (dirs w) (executed w) level (log_output w)).

Definition logging_info (msg : string) : M unit :=
  modify (λ w,
    World (files w) (dirs w) (executed w) (log_level w)
          (if bool_decide (log_level w ≤ logging_INFO)
           then log_output w ++ [msg] else log_output w)).

(** *** Paths

    A file is kept under the path it was written with, a directory
    under the path it was created with. A path is looked up by what it
    names, not by how it is spelled: its empty parts and its [.] parts
    name nothing, so that [/work], [/work/] and [/./work] are one
    directory. *)

(** The parts of a path that name something. *)
Definition path_components (path : string) : list string :=
  filter (λ part, part ≠ "" ∧ part ≠ ".") (str_split "/" path).

Definition is_absolute (path : string) : bool := String.prefix "/" path.

(** [p] names what [q] names, or a directory above it. *)
Definition leads_to (p q : string) : bool :=
  bool_decide (is_absolute p = is_absolute q
               ∧ path_components p `prefix_of` path_components q).

(** [p] names a directory above what [q] names. *)
Definition leads_into (p q : string) : bool :=
  leads_to p q && negb (leads_to q p).

(** The last part of the path is a name: a path that ends in a slash
    or in [/.] can only be a directory. *)
Definition names_a_file (path : string) : bool :=
  match last (str_split "/" path) with
  | Some part => bool_decide (part ≠ "" ∧ part ≠ ".")
  | None => false
  end.

(** [os.path.isdir]: the root and the working directory, the
    directories that were created and every directory above a file or
    above such a directory. The empty path names nothing. *)
Definition os_path_isdir (path : string) (w : world) : bool :=
  bool_decide (path ≠ "")
  && (bool_decide (path_components path = [])
      || existsb (leads_to path) (elements (dirs w))
      || existsb (leads_into path) (elements (dom (files w)))).

(** [os.path.isfile] *)
Definition os_path_isfile (path : string) (w : world) : bool :=
  names_a_file path
  && existsb (λ q, leads_to path q && leads_to q path)
             (elements (dom (files w))).

(** [os.path.exists] *)
Definition os_path_exists (path : string) (w : world) : bool :=
  os_path_isdir path w || os_path_isfile path w.

(** *** os and glob *)

(** [os.makedirs(path)] creates the directory and the directories
    above it. It raises [FileExistsError] when the path is there,
    [FileNotFoundError] for the empty path and [NotADirectoryError]
    when a regular file is on the way, all of them [OSError]. *)
Definition os_makedirs (path : string) : M unit := λ w,
  if os_path_exists path w
     || bool_decide (path = "")
     || existsb (λ q, leads_to q path) (elements (dom (files w)))
  then (inl (OSError path), w)
  else (inr tt, World (files w) ({[path]} ∪ dirs w) (executed w)
                      (log_level w) (log_output w)).

(** [os.remove], for a path as [glob.glob] lists it: it raises for a
    directory and for a path that is not there. *)
Definition os_remove (path : string) : M unit := λ w,
  if os_path_isdir path w then (inl (OSError path), w)
  else match files w !! path with
       | Some _ => (inr tt, set_files (delete path (files w)) w)
       | None => (inl (OSError path), w)
       end.

(** The directories above a path, as a listing spells them: the path
    up to each of its slashes. *)
Fixpoint parents_from (before rest : string) : list string :=
  match rest with
  | EmptyString => []
  | String c rest' =>
      (if Ascii.eqb c "/"
       then [match before with EmptyString => "/" | _ => before end]
       else [])
      ++ parents_from (before +:+ String c EmptyString) rest'
  end.

Definition parents (path : string) : list string := parents_from "" path.

(** What a listing can show: the files, the directories that were
    created and the directories above these. *)
Definition all_paths (w : world) : list string :=
  elements
    (dom (files w)
     ∪ filter (λ p, os_path_isdir p w)
         (dirs w
          ∪ list_to_set (flat_map parents (elements (dom (files w) ∪ dirs w))))).

Definition glob_glob `{Substrate} (pathname : string) (w : world) : list string :=
  filter (λ p, glob_match pathname p) (all_paths w).

(** *** Beam *)

Definition start (e : execution) (w : world) : world :=
  World (files w) (dirs w) (executed w ++ [e]) (log_level w) (log_output w).

(** The files that a Beam source finds for a pattern. *)
Definition beam_glob `{Substrate} (file_pattern : string) (w : world)
  : list string :=
  filter (λ p, beam_match file_pattern p) (map fst (map_to_list (files w))).

(** Building [beam.io.ReadFromTFRecord(file_pattern)] for each pattern
    of a list: a source checks its pattern when it is built and raises
    [OSError] ("No files found based on the file pattern") when it finds
    no file. *)
Fixpoint validate_patterns `{Substrate} (w : world) (file_patterns : list string)
  : exn + unit :=
  match file_patterns with
  | [] => inr tt
  | file_pattern :: rest =>
      if bool_decide (beam_glob file_pattern w = [])
      then inl (OSError file_pattern)
      else validate_patterns w rest
  end.

(** [beam.io.ReadFromTFRecord(file_pattern)] when the pipeline runs: the
    records of the files that match, file by file. The order of the
    files, like the order in which [Flatten] below takes its inputs, is
    the runner's; the model takes them as they are listed. *)
Definition ReadFromTFRecord `{Substrate} (w : world) (file_pattern : string)
  : list bytes :=
  flat_map (λ pf, match snd pf with
                  | TFRecordFile records =>
                      if beam_match file_pattern (fst pf) then records else []
                  | TextFile _ => []
                  end)
           (map_to_list (files w)).

Definition Flatten {A} (pcolls : list (list A)) : list A := concat pcolls.

(** Applying [Flatten] to an empty list of collections raises: there is
    no pipeline to take it from. *)
Definition Flatten_no_input : exn :=
  ValueError
    (String "034" "Flatten"
     +:+ String "034" " requires a pipeline to be specified as there are "
     +:+ "no deferred inputs.").

(** The default shard name template, [-SSSSS-of-NNNNN]. *)
Definition shard_name (file_path_prefix : string) (shard total : nat)
    (file_name_suffix : string) : string :=
  file_path_prefix +:+ "-" +:+ format_0d 5 shard +:+ "-of-"
  +:+ format_0d 5 total +:+ file_name_suffix.

(** [beam.io.WriteToTFRecord(file_path_prefix, file_name_suffix)] when the
    pipeline runs. *)
Definition WriteToTFRecord `{Substrate} (file_path_prefix file_name_suffix : string)
    (pcoll : list bytes) (fs : gmap string file) : gmap string file :=
  let shards := split_shards pcoll in
  foldl (λ fs ir,
           <[shard_name file_path_prefix (fst ir) (length shards) file_name_suffix
             := TFRecordFile (snd ir)]> fs)
        fs (imap pair shards).

Definition nl : string := String "010" EmptyString.
Definition dq : string := String "034" EmptyString.

(** [beam.io.WriteToText(file_path, shard_name_template='')]: one file,
    every element followed by a newline. *)
Definition WriteToText (file_path : string) (pcoll : list string)
    (fs : gmap string file) : gmap string file :=
  <[file_path := TextFile (String.concat "" (map (λ line, line +:+ nl) pcoll))]> fs.

Definition Count_Globally {A} (pcoll : list A) : list Z :=
  [Z.of_nat (length pcoll)].

(** [beam.CombineGlobally(''.join)] *)
Definition CombineGlobally_join (pcoll : list string) : list string :=
  [String.concat "" pcoll].

(** [beam.Partition(partition, n)]: the bucket of every element; an
    element fails the execution when its bucket cannot be computed or is
    not in [range(n)]. *)
Fixpoint apply_partition_fn `{Substrate} (n : Z) (pcoll : list bytes)
  : exn + list (Z * bytes) :=
  match pcoll with
  | [] => inr []
  | x :: rest =>
      match partition x n with
      | inl e => inl e
      | inr b =>
          if bool_decide (0 ≤ b < n) then
            match apply_partition_fn n rest with
            | inl e => inl e
            | inr tagged => inr ((b, x) :: tagged)
            end
          else inl (ValueError "PartitionFn specified out-of-bounds partition index")
      end
  end.

Definition Partition `{Substrate} (n : Z) (pcoll : list bytes)
  : exn + list (list bytes) :=
  match apply_partition_fn n pcoll with
  | inl e => inl e
  | inr tagged =>
      inr (map (λ i, map snd (filter (λ bx, fst bx = Z.of_nat i) tagged))
               (seq 0 (Z.to_nat n)))
  end.

(** *** textwrap.dedent

    Lines that hold only spaces and tabs become empty; the margin is the
    longest run of spaces and tabs that starts every other line; it is
    removed from every line that starts with it. *)

Definition is_space_or_tab (c : ascii) : bool :=
  Ascii.eqb c " " || Ascii.eqb c "009".

Fixpoint whitespace_only (s : string) : bool :=
  match s with
  | EmptyString => true
  | String c s' => is_space_or_tab c && whitespace_only s'
  end.

Fixpoint leading_whitespace (s : string) : string :=
  match s with
  | EmptyString => EmptyString
  | String c s' =>
      if is_space_or_tab c then String c (leading_whitespace s') else EmptyString
  end.

Fixpoint common_prefix (a b : string) : string :=
  match a, b with
  | String x a', String y b' =>
      if Ascii.eqb x y then String x (common_prefix a' b') else EmptyString
  | _, _ => EmptyString
  end.

(** [line] without [margin] in front, or [line] itself when it does not
    start with [margin]. *)
Fixpoint strip_margin_aux (margin line : string) : option string :=
  match margin, line with
  | EmptyString, _ => Some line
  | String x margin', String y line' =>
      if Ascii.eqb x y then strip_margin_aux margin' line' else None
  | String _ _, EmptyString => None
  end.

Definition strip_margin (margin line : string) : string :=
  default line (strip_margin_aux margin line).

Definition textwrap_dedent (text : string) : string :=
  let lines := map (λ l, if whitespace_only l then EmptyString else l)
                   (str_split "010" text) in
  let indents := map leading_whitespace
                     (filter (λ l, l ≠ EmptyString) lines) in
  let margin := match indents with
                | [] => EmptyString
                | i :: rest => foldl common_prefix i rest
                end in
  String.concat nl (map (strip_margin margin) lines).

(** ** The script *)

Section Script.
Context `{Substrate}.

(** [COMMENT_HEADER.format(a, b)] *)
Definition COMMENT_HEADER_format (a b : string) : string :=
  "# Generated by shuffle_tfrecords_beam.py" +:+ nl
  +:+ "#" +:+ nl
  +:+ "# --input_pattern_list=" +:+ a +:+ nl
  +:+ "# --output_pattern_prefix=" +:+ b +:+ nl
  +:+ "#" +:+ nl.

Definition parse_cmdline (argv : list string)
  : exn + (known_args * list string) :=
  match parse_known_args argv with
  | inl e => inl e
  | inr (known_args, pipeline_args) =>
      if pre_partition_flag known_args then
        if bool_decide (pre_partition_workdir known_args = None) then
          inl (AssertionError "Provide working directory for pre-partition")
        else if negb (bool_decide (num_buckets known_args > 0)) then
          inl (AssertionError
                 "Minimum of one bucket should be provided for pre-partition")
        else inr (known_args, pipeline_args)
      else inr (known_args, pipeline_args)
  end.

(** [read_from_tfrecords_files] when the pipeline is built: the readers
    are built one by one, then flattened. *)
Definition build_read_from_tfrecords_files
    (input_filename_pattern_list : list string) : M unit := λ w,
  match validate_patterns w input_filename_pattern_list with
  | inl e => (inl e, w)
  | inr _ =>
      match input_filename_pattern_list with
      | [] => (inl Flatten_no_input, w)
      | _ => (inr tt, w)
      end
  end.

(** [read_from_tfrecords_files] when the pipeline runs. *)
Definition read_from_tfrecords_files (w : world)
    (input_filename_pattern_list : list string) : list bytes :=
  let readers := map (ReadFromTFRecord w) input_filename_pattern_list in
  Flatten readers.

(** The pipeline of [pre_partition], when the [with] block is left. *)
Definition pre_partition_pipeline (input_pattern : list string)
    (working_directory : string) (num_buckets : Z) : M unit := λ w0,
  let w := start (PrePartitionRun working_directory num_buckets) w0 in
  let input_data := read_from_tfrecords_files w input_pattern in
  match Partition num_buckets input_data with
  | inl e => (inl e, w)
  | inr partitions =>
      (inr tt,
       set_files
         (foldl (λ fs ip,
                   WriteToTFRecord
                     (os_path_join working_directory
                                   ("partition" +:+ format_0d 4 (fst ip)))
                     ".tfrecord.gz" (snd ip) fs)
                (files w) (imap pair partitions))
         w)
  end.

Definition pre_partition (input_pattern : list string)
    (working_directory : string) (pipeline_args : list string)
    (num_buckets : Z) : M (list string) :=
  there ← gets (os_path_exists working_directory);
  if (there : bool) then
    raise (ValueError "Provide a clean working directory path directory")
  else
    os_makedirs working_directory;;
    logging_info "Initiating pre-partitioning";;
    build_read_from_tfrecords_files input_pattern;;
    pre_partition_pipeline input_pattern working_directory num_buckets;;
    gets (glob_glob (os_path_join working_directory
                       "partition????-00000-of-00001.tfrecord.gz")).

(** The local function [sha1] of [shuffle_records]. *)
Definition sha1 (input_bytes : bytes) : bytes := sha1_digest input_bytes.

Definition shuffle_records (input_examples : list bytes) : list bytes :=
  let randomized := map (λ x, (sha1 x, x)) input_examples in
  let grouped := GroupByKey randomized in
  flat_map (λ x, snd x) grouped.

Record MakeConfigStringCaller := {
  name : string;
  tfrecord_path : string;
}.

Definition MakeConfigStringCaller_call (self : MakeConfigStringCaller)
    (num_examples : Z) : string :=
  textwrap_dedent
    (nl
     +:+ "    name: " +:+ dq +:+ name self +:+ dq +:+ nl
     +:+ "    tfrecord_path: " +:+ dq +:+ tfrecord_path self
         +:+ "-?????-of-?????.tfrecord.gz" +:+ dq +:+ nl
     +:+ "    num_examples: " +:+ format_d num_examples +:+ nl
     +:+ "    ").

(** The collection that [write_summary_string_to_file] hands to
    [WriteToText]. *)
Definition summary_strings (output_examples : list bytes)
    (input_pattern_list dataset_name output_pattern_prefix : string)
  : list string :=
  let comment_str :=
    [COMMENT_HEADER_format input_pattern_list output_pattern_prefix] in
  let num_examples := Count_Globally output_examples in
  let config_str :=
    map (MakeConfigStringCaller_call
           {| name := dataset_name; tfrecord_path := output_pattern_prefix |})
        num_examples in
  let merged_strings := Flatten [comment_str; config_str] in
  CombineGlobally_join merged_strings.

Definition write_summary_string_to_file (output_examples : list bytes)
    (input_pattern_list dataset_name output_pattern_prefix
       output_filename : string)
    (fs : gmap string file) : gmap string file :=
  WriteToText output_filename
    (summary_strings output_examples input_pattern_list dataset_name
       output_pattern_prefix)
    fs.
End Script.

Section Main.
Context `{Substrate}.

(** One turn of the loop [for i, filename in enumerate(input_files)]:
    the body of the [with] block builds the pipeline, leaving the block
    runs it. The patterns collected so far are threaded through. *)
Definition shuffle_partition (known_args : known_args) (i : nat)
    (filename : option string) (output_patterns : list string)
  : M (list string) :=
  match filename with
  | None => raise (AttributeError "'NoneType' object has no attribute 'split'")
  | Some filename =>
      let input_filename_pattern_list := str_split "," filename in
      build_read_from_tfrecords_files input_filename_pattern_list;;
      match output_pattern_prefix known_args with
      | None =>
          raise (TypeError "unsupported operand type(s) for +: 'NoneType' and 'str'")
      | Some prefix =>
          let output_pattern_prefix :=
            prefix +:+ "_partition" +:+ format_d (Z.of_nat i) in
          let output_patterns :=
            output_patterns
            ++ [output_pattern_prefix +:+ "-?????-of-?????.tfrecord.gz"] in
          modify (λ w0,
            let w := start (ShuffleRun i output_pattern_prefix) w0 in
            let input_examples :=
              read_from_tfrecords_files w input_filename_pattern_list in
            let output_examples := shuffle_records input_examples in
            set_files (WriteToTFRecord output_pattern_prefix ".tfrecord.gz"
                         output_examples (files w)) w);;
          mret output_patterns
      end
  end.

Fixpoint shuffle_partitions (known_args : known_args) (i : nat)
    (input_files : list (option string)) (output_patterns : list string)
  : M (list string) :=
  match input_files with
  | [] => mret output_patterns
  | filename :: rest =>
      output_patterns ← shuffle_partition known_args i filename output_patterns;
      shuffle_partitions known_args (S i) rest output_patterns
  end.

(** The block "Combine shuffled partitions into a single set of output
    files". *)
Definition combine_shuffled_partitions (known_args : known_args)
    (output_patterns : list string) : M unit :=
  build_read_from_tfrecords_files output_patterns;;
  match output_pattern_prefix known_args with
  | None => raise (TypeError "file_path_prefix must be a string")
  | Some prefix =>
      if truthy (output_dataset_config_pbtxt known_args) then
        if negb (truthy (output_dataset_name known_args)) then
          raise (ValueError "Need to set output_dataset_name.")
        else
          modify (λ w0,
            let w := start (MergeRun prefix true) w0 in
            let output_examples := read_from_tfrecords_files w output_patterns in
            set_files
              (write_summary_string_to_file output_examples
                 (default "None" (input_pattern_list known_args))
                 (default "" (output_dataset_name known_args))
                 prefix
                 (default "" (output_dataset_config_pbtxt known_args))
                 (WriteToTFRecord prefix ".tfrecord.gz" output_examples (files w)))
              w)
      else
        modify (λ w0,
          let w := start (MergeRun prefix false) w0 in
          let output_examples := read_from_tfrecords_files w output_patterns in
          set_files (WriteToTFRecord prefix ".tfrecord.gz" output_examples (files w))
                    w)
  end.

Fixpoint remove_each (partials : list string) : M unit :=
  match partials with
  | [] => mret tt
  | partial :: rest => os_remove partial;; remove_each rest
  end.

(** The block "Cleanup". *)
Fixpoint cleanup (output_patterns : list string) : M unit :=
  match output_patterns with
  | [] => mret tt
  | pattern :: rest =>
      partials ← gets (glob_glob pattern);
      remove_each partials;;
      cleanup rest
  end.

(** The block "Prepartition files". *)
Definition prepartition_files (known_args : known_args)
    (pipeline_args : list string) : M (list (option string)) :=
  if pre_partition_flag known_args then
    match input_pattern_list known_args with
    | None => raise (AttributeError "'NoneType' object has no attribute 'split'")
    | Some patterns =>
        match pre_partition_workdir known_args with
        | None => raise (TypeError "expected str, bytes or os.PathLike object")
        | Some working_directory =>
            filenames ← pre_partition (str_split "," patterns) working_directory
                          pipeline_args (num_buckets known_args);
            mret (map Some filenames)
        end
    end
  else mret [input_pattern_list known_args].

(** What [main] does once the command line is parsed. *)
Definition run (known_args : known_args) (pipeline_args : list string)
  : M unit :=
  setLevel (if debug known_args then logging_DEBUG else logging_INFO);;
  input_files ← prepartition_files known_args pipeline_args;
  output_patterns ← shuffle_partitions known_args 0 input_files [];
  combine_shuffled_partitions known_args output_patterns;;
  cleanup output_patterns.

Definition main (argv : list string) : M unit :=
  parsed ← lift (parse_cmdline argv);
  run (fst parsed) (snd parsed).
End Main.

(** ** The merge as the specification words it

    "Read back the union of all intermediate shard sets, apply the
    Randomizing Shuffler a second time over the union, and write the final
    output shard set": [combine_shuffled_partitions] with [shuffle_records]
    between the read and the write. *)

Section AsSpecified.
Context `{Substrate}.

Definition combine_shuffled_partitions_as_specified (known_args : known_args)
    (output_patterns : list string) : M unit :=
  build_read_from_tfrecords_files output_patterns;;
  match output_pattern_prefix known_args with
  | None => raise (TypeError "file_path_prefix must be a string")
  | Some prefix =>
      if truthy (output_dataset_config_pbtxt known_args) then
        if negb (truthy (output_dataset_name known_args)) then
          raise (ValueError "Need to set output_dataset_name.")
        else
          modify (λ w0,
            let w := start (MergeRun prefix true) w0 in
            let output_examples :=
              shuffle_records (read_from_tfrecords_files w output_patterns) in
            set_files
              (write_summary_string_to_file output_examples
                 (default "None" (input_pattern_list known_args))
                 (default "" (output_dataset_name known_args))
                 prefix
                 (default "" (output_dataset_config_pbtxt known_args))
                 (WriteToTFRecord prefix ".tfrecord.gz" output_examples (files w)))
              w)
      else
        modify (λ w0,
          let w := start (MergeRun prefix false) w0 in
          let output_examples :=
            shuffle_records (read_from_tfrecords_files w output_patterns) in
          set_files (WriteToTFRecord prefix ".tfrecord.gz" output_examples (files w))
                    w)
  end.

Definition main_as_specified (argv : list string) : M unit :=
  parsed ← lift (parse_cmdline argv);
  setLevel (if debug (fst parsed) then logging_DEBUG else logging_INFO);;
  input_files ← prepartition_files (fst parsed) (snd parsed);
  output_patterns ← shuffle_partitions (fst parsed) 0 input_files [];
  combine_shuffled_partitions_as_specified (fst parsed) output_patterns;;
  cleanup output_patterns.
End AsSpecified.

(** ** Notions the properties are stated with *)

(** How many times a record occurs in a collection. *)
Definition occurrences (r : bytes) (pcoll : list bytes) : nat :=
  length (filter (λ x, x = r) pcoll).

(** All occurrences of [r] in [pcoll] sit next to each other. *)
Definition contiguous (r : bytes) (pcoll : list bytes) : Prop :=
  ∃ before after,
    pcoll = before ++ replicate (occurrences r pcoll) r ++ after
    ∧ (r ∉ before) ∧ (r ∉ after).

(** The records of [pcoll] that have the digest of [r], and so all
    occurrences of [r], form one run of [pcoll]. *)
Definition one_run_per_digest `{Substrate} (r : bytes) (pcoll : list bytes)
  : Prop :=
  ∃ before run after,
    pcoll = before ++ run ++ after
    ∧ Forall (λ x, sha1 x = sha1 r) run
    ∧ Forall (λ x, sha1 x ≠ sha1 r) (before ++ after).

(** No two different records of the collection have the same SHA-1
    digest. *)
Definition collision_free `{Substrate} (pcoll : list bytes) : Prop :=
  ∀ x y, x ∈ pcoll → y ∈ pcoll → sha1 x = sha1 y → x = y.

(** The string holds no newline. *)
Fixpoint single_line (s : string) : bool :=
  match s with
  | EmptyString => true
  | String c s' => negb (Ascii.eqb c "010") && single_line s'
  end.

Definition is_merge (e : execution) : bool :=
  match e with MergeRun _ _ => true | _ => false end.

Definition is_shuffle (e : execution) : bool :=
  match e with ShuffleRun _ _ => true | _ => false end.

Definition is_pre_partition (e : execution) : bool :=
  match e with PrePartitionRun _ _ => true | _ => false end.

(** The command line with another value for [--num_buckets]. *)
Definition with_num_buckets (n : Z) (ka : known_args) : known_args :=
  KnownArgs (input_pattern_list ka) (output_pattern_prefix ka)
    (output_dataset_config_pbtxt ka) (output_dataset_name ka) n
    (pre_partition_flag ka) (pre_partition_workdir ka) (debug ka).

(** [m] only starts executions that satisfy [P]. *)
Definition starts_only (P : execution → Prop) {A} (m : M A) : Prop :=
  ∀ w r w', m w = (r, w') →
    ∃ new, executed w' = executed w ++ new ∧ Forall P new.

(** [m] starts no execution, creates no directory and no file; it may
    remove files. *)
Definition only_removes {A} (m : M A) : Prop :=
  ∀ w r w', m w = (r, w') →
    executed w' = executed w ∧ dirs w' = dirs w
    ∧ dom (files w') ⊆ dom (files w).

(** The pattern of the shards that a per-partition shuffle writes. *)
Definition shard_pattern (e : execution) : string :=
  match e with
  | ShuffleRun _ output_pattern_prefix =>
      output_pattern_prefix +:+ "-?????-of-?????.tfrecord.gz"
  | _ => EmptyString
  end.

(** A line indented by four spaces whose text starts with [c]. *)
Definition indented (c : ascii) (r : string) : string :=
  String " " (String " " (String " " (String " " (String c r)))).

(** ** A small substrate to run the script on

    Stand-ins for the libraries, simple enough to evaluate: digests that
    copy their input, a command line of [--flag=value] words, patterns
    with [?] and [*], a runner that emits groups by ascending key and
    writes a collection as one shard. *)

Module Reference.

(** The first [digest_size] bytes of the data, zero-filled. *)
Definition first_bytes (data : bytes) (digest_size : Z) : bytes :=
  take (Z.to_nat digest_size) (data ++ replicate (Z.to_nat digest_size) x00).

Definition whole_record (data : bytes) : bytes := data.

Definition defaults : known_args :=
  KnownArgs None None None None 1 false None false.

Definition value_of (flag arg : string) : option string :=
  strip_margin_aux ("--" +:+ flag +:+ "=") arg.

Definition parse_arg (arg : string) (ka : known_args)
  : exn + option known_args :=
  if String.eqb arg "--pre_partition" then
    inr (Some (KnownArgs (input_pattern_list ka) (output_pattern_prefix ka)
                 (output_dataset_config_pbtxt ka) (output_dataset_name ka)
                 (num_buckets ka) true (pre_partition_workdir ka) (debug ka)))
  else if String.eqb arg "--debug" then
    inr (Some (KnownArgs (input_pattern_list ka) (output_pattern_prefix ka)
                 (output_dataset_config_pbtxt ka) (output_dataset_name ka)
                 (num_buckets ka) (pre_partition_flag ka)
                 (pre_partition_workdir ka) true))
  else match value_of "input_pattern_list" arg with
  | Some v =>
    inr (Some (KnownArgs (Some v) (output_pattern_prefix ka)
                 (output_dataset_config_pbtxt ka) (output_dataset_name ka)
                 (num_buckets ka) (pre_partition_flag ka)
                 (pre_partition_workdir ka) (debug ka)))
  | None =>
  match value_of "output_pattern_prefix" arg with
  | Some v =>
    inr (Some (KnownArgs (input_pattern_list ka) (Some v)
                 (output_dataset_config_pbtxt ka) (output_dataset_name ka)
                 (num_buckets ka) (pre_partition_flag ka)
                 (pre_partition_workdir ka) (debug ka)))
  | None =>
  match value_of "output_dataset_config_pbtxt" arg with
  | Some v =>
    inr (Some (KnownArgs (input_pattern_list ka) (output_pattern_prefix ka)
                 (Some v) (output_dataset_name ka)
                 (num_buckets ka) (pre_partition_flag ka)
                 (pre_partition_workdir ka) (debug ka)))
  | None =>
  match value_of "output_dataset_name" arg with
  | Some v =>
    inr (Some (KnownArgs (input_pattern_list ka) (output_pattern_prefix ka)
                 (output_dataset_config_pbtxt ka) (Some v)
                 (num_buckets ka) (pre_partition_flag ka)
                 (pre_partition_workdir ka) (debug ka)))
  | None =>
  match value_of "pre_partition_workdir" arg with
  | Some v =>
    inr (Some (KnownArgs (input_pattern_list ka) (output_pattern_prefix ka)
                 (output_dataset_config_pbtxt ka) (output_dataset_name ka)
                 (num_buckets ka) (pre_partition_flag ka)
                 (Some v) (debug ka)))
  | None =>
  match value_of "num_buckets" arg with
  | Some v =>
      match NilZero.int_of_string v with
      | Some n =>
        inr (Some (KnownArgs (input_pattern_list ka) (output_pattern_prefix ka)
                     (output_dataset_config_pbtxt ka) (output_dataset_name ka)
                     (Z.of_int n) (pre_partition_flag ka)
                     (pre_partition_workdir ka) (debug ka)))
      | None => inl (SystemExit 2)
      end
  | None => inr None
  end end end end end end.

(** Words that set no flag of the script are left for the pipeline. *)
Fixpoint parse_from (argv : list string) (ka : known_args)
    (pipeline_args : list string) : exn + (known_args * list string) :=
  match argv with
  | [] => inr (ka, pipeline_args)
  | arg :: argv' =>
      match parse_arg arg ka with
      | inl e => inl e
      | inr (Some ka') => parse_from argv' ka' pipeline_args
      | inr None => parse_from argv' ka (pipeline_args ++ [arg])
      end
  end.

Definition parse (argv : list string) : exn + (known_args * list string) :=
  parse_from argv defaults [].

(** [?] is one character and [*] any run of characters, neither of
    them a slash; every other character stands for itself. *)
Fixpoint wildcard_match (pattern path : string) : bool :=
  match pattern with
  | EmptyString => match path with EmptyString => true | _ => false end
  | String c pattern' =>
      if Ascii.eqb c "?" then
        match path with
        | String d path' => negb (Ascii.eqb d "/") && wildcard_match pattern' path'
        | EmptyString => false
        end
      else if Ascii.eqb c "*" then
        (fix star (s : string) : bool :=
           wildcard_match pattern' s
           || match s with
              | String d s' => negb (Ascii.eqb d "/") && star s'
              | EmptyString => false
              end) path
      else
        match path with
        | String d path' => Ascii.eqb c d && wildcard_match pattern' path'
        | EmptyString => false
        end
  end.

Fixpoint bytes_leb (a b : bytes) : bool :=
  match a, b with
  | [], _ => true
  | _ :: _, [] => false
  | x :: a', y :: b' =>
      if (byte_value x <? byte_value y)%Z then true
      else if (byte_value y <? byte_value x)%Z then false
      else bytes_leb a' b'
  end.

(** Add a value to the group of its key, when there is one. *)
Fixpoint add_value (k v : bytes) (groups : list (bytes * list bytes))
  : option (list (bytes * list bytes)) :=
  match groups with
  | [] => None
  | g :: rest =>
      if decide (fst g = k) then Some ((fst g, snd g ++ [v]) :: rest)
      else cons g <$> add_value k v rest
  end.

Fixpoint insert_group (g : bytes * list bytes)
    (groups : list (bytes * list bytes)) : list (bytes * list bytes) :=
  match groups with
  | [] => [g]
  | g' :: rest =>
      if bytes_leb (fst g) (fst g') then g :: groups
      else g' :: insert_group g rest
  end.

Definition group_step (groups : list (bytes * list bytes)) (kv : bytes * bytes)
  : list (bytes * list bytes) :=
  match add_value (fst kv) (snd kv) groups with
  | Some groups' => groups'
  | None => insert_group (fst kv, [snd kv]) groups
  end.

Definition group_by_key (kvs : list (bytes * bytes))
  : list (bytes * list bytes) :=
  foldl group_step [] kvs.

Definition one_shard (pcoll : list bytes) : list (list bytes) := [pcoll].

(** A digest that collides: the first byte of the data. *)
Definition first_byte (data : bytes) : bytes := take 1 data.

#[export] Instance substrate : Substrate := {|
  blake2b_digest := first_bytes;
  sha1_digest := whole_record;
  parse_known_args := parse;
  glob_match := wildcard_match;
  beam_match := wildcard_match;
  GroupByKey := group_by_key;
  split_shards := one_shard;
|}.

(** The same libraries with the colliding digest for [hashlib.sha1]. *)
Definition colliding : Substrate := {|
  blake2b_digest := first_bytes;
  sha1_digest := first_byte;
  parse_known_args := parse;
  glob_match := wildcard_match;
  beam_match := wildcard_match;
  GroupByKey := group_by_key;
  split_shards := one_shard;
|}.

Definition empty_world : world := World ∅ ∅ [] 30 [].

(** A world with one input shard holding the records [b"b"], [b"a"]. *)
Definition one_input : world :=
  World {[ "/in/x.tfrecord.gz" := TFRecordFile [["b"%byte]; ["a"%byte]] ]}
        ∅ [] 30 [].

(** A world with one input shard holding [b"c"], [b"a"], [b"b"]. *)
Definition three_records : world :=
  World {[ "/in/x.tfrecord.gz"
           := TFRecordFile [["c"%byte]; ["a"%byte]; ["b"%byte]] ]}
        ∅ [] 30 [].

End Reference.

(** ** Notions for the further properties *)

(** [m] creates and removes no directory. *)
Definition keeps_dirs {A} (m : M A) : Prop :=
  ∀ w r w', m w = (r, w') → dirs w' = dirs w.

(** The prefix and the pattern that the loop of [main] builds for
    partition [i]. *)
Definition partition_prefix (prefix : string) (i : nat) : string :=
  prefix +:+ "_partition" +:+ format_d (Z.of_nat i).

Definition partition_pattern (prefix : string) (i : nat) : string :=
  partition_prefix prefix i +:+ "-?????-of-?????.tfrecord.gz".

(** The paths of the shards that a sharded sink writes for [pcoll]. *)
Definition shard_names `{Substrate} (file_path_prefix file_name_suffix : string)
    (pcoll : list bytes) : list string :=
  imap (λ i _, shard_name file_path_prefix i (length (split_shards pcoll))
                 file_name_suffix)
       (split_shards pcoll).

(** What a source makes of one file when it reads [file_pattern]. *)
Definition records_for `{Substrate} (file_pattern : string) (pf : string * file)
  : list bytes :=
  match snd pf with
  | TFRecordFile records =>
      if beam_match file_pattern (fst pf) then records else []
  | TextFile _ => []
  end.

(** The file that [pre_partition] looks for as partition [i]: the only
    shard of the sink of that partition. *)
Definition partition_file (working_directory : string) (i : nat) : string :=
  shard_name (os_path_join working_directory ("partition" +:+ format_0d 4 i))
    0 1 ".tfrecord.gz".

(** [m] removes no file: the paths that are files before are files
    after. *)
Definition removes_nothing {A} (m : M A) : Prop :=
  ∀ w r w', m w = (r, w') → dom (files w) ⊆ dom (files w').

(** The string holds no comma. *)
Fixpoint comma_free (s : string) : bool :=
  match s with
  | EmptyString => true
  | String c s' => negb (Ascii.eqb c ",") && comma_free s'
  end.

(** Every pattern finds a file, so that the source of each can be
    built. *)
Definition patterns_match `{Substrate} (w : world) (patterns : list string)
  : Prop :=
  Forall (λ pattern, beam_glob pattern w ≠ []) patterns.

(** The world in which the pipeline of [pre_partition] is built. *)
Definition workdir_created (working_directory : string) (w : world) : world :=
  World (files w) ({[working_directory]} ∪ dirs w) (executed w) (log_level w)
        (if bool_decide (log_level w ≤ logging_INFO)
         then log_output w ++ ["Initiating pre-partitioning"]
         else log_output w).

(** The path has no [..] part. What [..] names depends on what is
    there, so the lookup of paths leaves it out, and the properties of
    [pre_partition] are stated for working directories without it. *)
Definition no_parent_part (path : string) : Prop :=
  ".." ∉ str_split "/" path.

(** A name under which the sink of partition [k] can write a shard. *)
Definition partition_shard `{Substrate} (prefix : string) (k : nat)
    (name : string) : Prop :=
  ∃ pcoll j,
    (j < length (split_shards pcoll))%nat
    ∧ name = shard_name (partition_prefix prefix k) j
               (length (split_shards pcoll)) ".tfrecord.gz".

(** The patterns of the first [n] partitions tell their shards apart:
    the pattern of a partition finds the shards of that partition and of
    no other. *)
Definition shards_told_apart `{Substrate} (prefix : string) (n : nat) : Prop :=
  ∀ i k name,
    (i < n)%nat → (k < n)%nat → partition_shard prefix k name →
    beam_match (partition_pattern prefix i) name = bool_decide (i = k).

(** No pattern of the input files takes a shard of one of the first [n]
    partitions for an input file. *)
Definition inputs_apart `{Substrate} (prefix : string) (n : nat)
    (filenames : list string) : Prop :=
  ∀ filename pattern k name,
    filename ∈ filenames → pattern ∈ str_split "," filename →
    (k < n)%nat → partition_shard prefix k name →
    beam_match pattern name = false.

(** [os.makedirs] can create the directory: the path is not there, is
    not empty and has no [..] part, and no regular file is on its
    way. *)
Definition can_be_created (path : string) (w : world) : Prop :=
  no_parent_part path
  ∧ os_path_exists path w = false
  ∧ path ≠ ""
  ∧ ∀ q, q ∈ dom (files w) → leads_to q path = false.
(** * Properties *)

(** ** The hash bucketer *)

Lemma determine_hash_loop_little_endian (digest : bytes) :
  ∀ i address, 0 ≤ i →
    determine_hash_loop i address digest
    = address + 2 ^ (i * 8) * little_endian_uint digest.
Proof.
  induction digest as [|b rest IH]; intros i address Hi; simpl.
  - lia.
  - rewrite IH by lia.
    replace ((i + 1) * 8) with (i * 8 + 8) by lia.
    rewrite Z.pow_add_r by lia. change (2 ^ 8) with 256. lia.
Qed.

Lemma determine_hash_little_endian `{Substrate} (input_bytes : bytes) :
  determine_hash input_bytes = little_endian_uint (blake2b_digest input_bytes 4).
Proof.
  unfold determine_hash. rewrite determine_hash_loop_little_endian by lia.
  simpl. lia.
Qed.

(** C3: for num_buckets >= 1, [partition] returns the 4-byte digest of the
    record, read as a little-endian unsigned integer, modulo num_buckets;
    the result is a function of the record and the bucket count only, lies
    in [0, num_buckets), and is 0 when there is one bucket. *)
Theorem partition_little_endian_mod `{Substrate} (example : bytes) (num_buckets : Z) :
  1 ≤ num_buckets →
  ∃ bucket,
    partition example num_buckets = inr bucket
    ∧ bucket = little_endian_uint (blake2b_digest example 4) mod num_buckets
    ∧ 0 ≤ bucket < num_buckets
    ∧ (∀ example' num_buckets',
         example' = example → num_buckets' = num_buckets →
         partition example' num_buckets' = inr bucket)
    ∧ (num_buckets = 1 → bucket = 0).
Proof.
  intros Hn. exists (determine_hash example mod num_buckets).
  unfold partition. destruct (decide (num_buckets = 0)) as [->|Hnz]; [lia|].
  split; [reflexivity|]. split; [by rewrite determine_hash_little_endian|].
  split; [apply Z.mod_pos_bound; lia|]. split.
  - intros ? ? -> ->. unfold partition. by destruct (decide (num_buckets = 0)).
  - intros ->. apply Z.mod_1_r.
Qed.

Example partition_example :
  partition (H:=Reference.substrate) ["a"%byte] 3 = inr 1
  ∧ partition (H:=Reference.substrate) ["a"%byte; "b"%byte] 1000 = inr 185
  ∧ partition (H:=Reference.substrate) ["a"%byte] 0 = inl ZeroDivisionError
  ∧ partition (H:=Reference.substrate) ["a"%byte] (-3) = inr (-2).
Proof. repeat split; reflexivity. Qed.

Lemma partition_little_endian_mod_witness :
  ∃ bucket,
    partition (H:=Reference.substrate) ["a"%byte] 3 = inr bucket
    ∧ bucket = little_endian_uint (Reference.first_bytes ["a"%byte] 4) mod 3
    ∧ 0 ≤ bucket < 3
    ∧ (∀ example' num_buckets',
         example' = ["a"%byte] → num_buckets' = 3 →
         partition (H:=Reference.substrate) example' num_buckets' = inr bucket)
    ∧ (3 = 1 → bucket = 0).
Proof.
  apply (partition_little_endian_mod (H:=Reference.substrate) ["a"%byte] 3). lia.
Defined.

(** ** The randomizing shuffler *)

Lemma flat_map_snd_ungroup (groups : list (bytes * list bytes)) :
  flat_map (λ x, snd x) groups = map snd (ungroup groups).
Proof.
  induction groups as [|[k vs] groups IH]; simpl; [done|].
  rewrite map_app, map_map, <- IH. simpl. by rewrite map_id.
Qed.

Lemma map_snd_keyed {A} (f : bytes → A) (l : list bytes) :
  map snd (map (λ x, (f x, x)) l) = l.
Proof. rewrite map_map. simpl. apply map_id. Qed.

Lemma shuffle_records_Permutation `{Substrate} (input_examples : list bytes) :
  GroupByKey_spec GroupByKey →
  shuffle_records input_examples ≡ₚ input_examples.
Proof.
  intros Hgbk. unfold shuffle_records. rewrite flat_map_snd_ungroup.
  destruct (Hgbk (map (λ x, (sha1 x, x)) input_examples)) as (Hperm & _ & _).
  rewrite <- (map_snd_keyed sha1 input_examples) at 2.
  by apply (fmap_Permutation snd).
Qed.

(** C2: the output of [shuffle_records] is a permutation of its input,
    whatever order the runner groups in: every record occurs in the output
    as many times as in the input, so nothing is lost or added and
    byte-for-byte duplicates stay distinct occurrences. *)
Theorem shuffle_records_multiset `{Substrate} (input_examples : list bytes) :
  GroupByKey_spec GroupByKey →
  shuffle_records input_examples ≡ₚ input_examples
  ∧ length (shuffle_records input_examples) = length input_examples
  ∧ (input_examples = [] → shuffle_records input_examples = [])
  ∧ ∀ r, occurrences r (shuffle_records input_examples)
         = occurrences r input_examples.
Proof.
  intros Hgbk.
  pose proof (shuffle_records_Permutation input_examples Hgbk) as Hperm.
  split; [done|]. split; [by rewrite Hperm|]. split.
  - intros ->. by apply Permutation_nil_r.
  - intros r. unfold occurrences. by rewrite Hperm.
Qed.

Lemma occurrences_app (r : bytes) (l1 l2 : list bytes) :
  occurrences r (l1 ++ l2) = (occurrences r l1 + occurrences r l2)%nat.
Proof. unfold occurrences. by rewrite filter_app, length_app. Qed.

Lemma occurrences_absent (r : bytes) (l : list bytes) :
  r ∉ l → occurrences r l = 0%nat.
Proof.
  unfold occurrences. induction l as [|x l IH]; intros Hr; [done|].
  apply not_elem_of_cons in Hr as [Hx Hl].
  rewrite filter_cons_False by congruence. auto.
Qed.

Lemma occurrences_replicate (r : bytes) (n : nat) :
  occurrences r (replicate n r) = n.
Proof.
  unfold occurrences. induction n as [|n IH]; simpl; [done|].
  rewrite filter_cons_True by done. simpl. by rewrite IH.
Qed.

Lemma contiguous_intro (r : bytes) (before after : list bytes) (n : nat) :
  r ∉ before → r ∉ after → contiguous r (before ++ replicate n r ++ after).
Proof.
  intros Hb Ha. exists before, after.
  rewrite !occurrences_app, occurrences_replicate,
    (occurrences_absent r before), (occurrences_absent r after) by done.
  by rewrite Nat.add_0_r.
Qed.

Lemma all_equal_replicate (r : bytes) (l : list bytes) :
  (∀ v, v ∈ l → v = r) → l = replicate (length l) r.
Proof.
  induction l as [|x l IH]; intros Hall; simpl; [done|].
  rewrite (Hall x) by left. f_equal. apply IH. intros v Hv. apply Hall. by right.
Qed.

Lemma elem_of_ungroup (k v : bytes) (groups : list (bytes * list bytes)) :
  (k, v) ∈ ungroup groups ↔ ∃ g, g ∈ groups ∧ fst g = k ∧ v ∈ snd g.
Proof.
  unfold ungroup. rewrite list_elem_of_In, in_flat_map. split.
  - intros (g & Hg & Hin). exists g. apply list_elem_of_In in Hg.
    apply list_elem_of_In, list_elem_of_fmap in Hin as (v' & Heq & Hv').
    by simplify_eq.
  - intros (g & Hg & <- & Hv). exists g.
    rewrite <- !list_elem_of_In. split; [done|].
    apply list_elem_of_fmap. by exists v.
Qed.

Lemma elem_of_flat_map_snd (v : bytes) (groups : list (bytes * list bytes)) :
  v ∈ flat_map (λ x, snd x) groups ↔ ∃ g, g ∈ groups ∧ v ∈ snd g.
Proof.
  rewrite list_elem_of_In, in_flat_map.
  split; intros (g & Hg & Hv); exists g; split;
    solve [by apply list_elem_of_In].
Qed.

Lemma shuffle_records_contiguous `{Substrate} (input_examples : list bytes) :
  GroupByKey_spec GroupByKey →
  collision_free input_examples →
  ∀ r, contiguous r (shuffle_records input_examples).
Proof.
  intros Hgbk Hcf r. unfold shuffle_records.
  set (kvs := map (λ x, (sha1 x, x)) input_examples).
  destruct (Hgbk kvs) as (Hperm & Hnodup & _).
  assert (Hkey : ∀ g v, g ∈ GroupByKey kvs → v ∈ snd g →
                        fst g = sha1 v ∧ v ∈ input_examples).
  { intros g v Hg Hv.
    assert ((fst g, v) ∈ kvs) as Hin.
    { rewrite <- Hperm. apply elem_of_ungroup. by exists g. }
    apply list_elem_of_fmap in Hin as (x & Heq & Hx). by simplify_eq. }
  destruct (decide (r ∈ flat_map (λ x, snd x) (GroupByKey kvs))) as [Hr|Hr].
  - apply elem_of_flat_map_snd in Hr as (g & Hg & Hrg).
    destruct (Hkey g r Hg Hrg) as [Hkr Hrin].
    apply list_elem_of_split in Hg as (g1 & g2 & Hsplit).
    assert (Hgroups : ∀ g', g' ∈ GroupByKey kvs → r ∈ snd g' → fst g' = fst g).
    { intros g' Hg' Hrg'. destruct (Hkey g' r Hg' Hrg') as [Hk' _]. congruence. }
    rewrite Hsplit in Hnodup, Hgroups, Hkey |- *.
    rewrite fmap_app, fmap_cons in Hnodup.
    apply NoDup_app in Hnodup as (_ & Hdisj & Hnd2).
    apply NoDup_cons in Hnd2 as [Hg2 _].
    rewrite flat_map_app. simpl.
    rewrite (all_equal_replicate r (snd g)).
    + apply contiguous_intro.
      * intros (g' & Hg' & Hrg')%elem_of_flat_map_snd.
        apply (Hdisj (fst g)); [|left].
        rewrite <- (Hgroups g') by (done || (apply elem_of_app; by left)).
        by apply list_elem_of_fmap_2.
      * intros (g' & Hg' & Hrg')%elem_of_flat_map_snd.
        apply Hg2.
        rewrite <- (Hgroups g') by (done || (apply elem_of_app; right; by right)).
        by apply list_elem_of_fmap_2.
    + intros v Hv.
      assert (g ∈ g1 ++ g :: g2) as Hgin by (apply elem_of_app; right; left).
      destruct (Hkey g v Hgin Hv) as [Hkv Hvin].
      apply Hcf; [done..|congruence].
  - assert (flat_map (λ x, snd x) (GroupByKey kvs)
            = flat_map (λ x, snd x) (GroupByKey kvs) ++ replicate 0 r ++ [])
      as -> by (simpl; by rewrite app_nil_r).
    apply contiguous_intro; [done|]. apply not_elem_of_nil.
Qed.


Lemma group_key_is_digest `{Substrate} (input_examples : list bytes)
    (g : bytes * list bytes) (v : bytes) :
  GroupByKey_spec GroupByKey →
  g ∈ GroupByKey (map (λ x, (sha1 x, x)) input_examples) → v ∈ snd g →
  fst g = sha1 v ∧ v ∈ input_examples.
Proof.
  intros Hgbk Hg Hv.
  destruct (Hgbk (map (λ x, (sha1 x, x)) input_examples)) as (Hperm & _ & _).
  assert ((fst g, v) ∈ map (λ x, (sha1 x, x)) input_examples) as Hin.
  { rewrite <- Hperm. apply elem_of_ungroup. by exists g. }
  apply list_elem_of_fmap in Hin as (x & Heq & Hx). by simplify_eq.
Qed.

Lemma shuffle_records_one_run_per_digest `{Substrate}
    (input_examples : list bytes) :
  GroupByKey_spec GroupByKey →
  ∀ r, one_run_per_digest r (shuffle_records input_examples).
Proof.
  intros Hgbk r. unfold shuffle_records, one_run_per_digest.
  set (kvs := map (λ x, (sha1 x, x)) input_examples).
  destruct (Hgbk kvs) as (_ & Hnodup & _).
  pose proof (λ g v, group_key_is_digest input_examples g v Hgbk) as Hkey.
  fold kvs in Hkey.
  destruct (decide (sha1 r ∈ map fst (GroupByKey kvs))) as [Hr|Hr].
  - apply list_elem_of_fmap in Hr as (g & Hgr & Hg).
    apply list_elem_of_split in Hg as (g1 & g2 & Hsplit).
    rewrite Hsplit in Hnodup, Hkey |- *.
    rewrite fmap_app, fmap_cons in Hnodup.
    apply NoDup_app in Hnodup as (_ & Hdisj & Hnd2).
    apply NoDup_cons in Hnd2 as [Hg2 _].
    exists (flat_map (λ x, snd x) g1), (snd g), (flat_map (λ x, snd x) g2).
    split; [by rewrite flat_map_app|]. split.
    + apply Forall_forall. intros v Hv. rewrite Hgr.
      symmetry. apply (Hkey g v); [|done]. apply elem_of_app. right. left.
    + apply Forall_app. split; apply Forall_forall;
        intros v (g' & Hg' & Hv)%elem_of_flat_map_snd Heq.
      * apply (Hdisj (fst g)); [|left].
        assert (fst g' = fst g) as <-.
        { destruct (Hkey g' v) as [-> _]; [apply elem_of_app; by left|done|].
          congruence. }
        by apply list_elem_of_fmap_2.
      * apply Hg2.
        assert (fst g' = fst g) as <-.
        { destruct (Hkey g' v) as [-> _];
            [apply elem_of_app; right; by right|done|]. congruence. }
        by apply list_elem_of_fmap_2.
  - exists (flat_map (λ x, snd x) (GroupByKey kvs)), [], []. simpl.
    rewrite !app_nil_r. split; [done|]. split; [constructor|].
    apply Forall_forall. intros v (g & Hg & Hv)%elem_of_flat_map_snd Heq.
    apply Hr. rewrite <- Heq. destruct (Hkey g v Hg Hv) as [<- _].
    by apply list_elem_of_fmap_2.
Qed.

Lemma filter_none {A} (P : A → Prop) `{∀ x, Decision (P x)} (l : list A) :
  Forall (λ x, ¬ P x) l → filter P l = [].
Proof.
  induction 1 as [|x l Hx _ IH]; [done|]. by rewrite filter_cons_False.
Qed.

Lemma filter_all {A} (P : A → Prop) `{∀ x, Decision (P x)} (l : list A) :
  Forall P l → filter P l = l.
Proof.
  induction 1 as [|x l Hx _ IH]; [done|].
  rewrite filter_cons_True by done. by rewrite IH.
Qed.

Lemma filter_run {A} (P : A → Prop) `{∀ x, Decision (P x)}
    (before run after : list A) :
  Forall P run → Forall (λ x, ¬ P x) (before ++ after) →
  filter P (before ++ run ++ after) = run.
Proof.
  intros Hrun [Hbefore Hafter]%Forall_app.
  rewrite !filter_app, (filter_none P before), (filter_none P after),
    (filter_all P run) by done.
  by rewrite app_nil_r.
Qed.

(** C9, as the code has it: in the output of [shuffle_records],
    whatever order the runner emits the groups and their values in, the
    records of the input that have the digest of a record [r] form one
    consecutive run, which holds all of them and nothing else. When no
    two different records of the input share a digest, the run is the
    occurrences of [r] in the input, as many as the input has. *)
Theorem shuffle_records_duplicates_contiguous `{Substrate}
    (input_examples : list bytes) :
  GroupByKey_spec GroupByKey →
  ∀ r,
    (∃ before run after,
       shuffle_records input_examples = before ++ run ++ after
       ∧ run ≡ₚ filter (λ x, sha1 x = sha1 r) input_examples
       ∧ Forall (λ x, sha1 x ≠ sha1 r) (before ++ after))
    ∧ (collision_free input_examples →
       ∃ before after,
         shuffle_records input_examples
         = before ++ replicate (occurrences r input_examples) r ++ after
         ∧ (r ∉ before) ∧ (r ∉ after)).
Proof.
  intros Hgbk r.
  pose proof (shuffle_records_Permutation input_examples Hgbk) as Hperm.
  split.
  - destruct (shuffle_records_one_run_per_digest input_examples Hgbk r)
      as (before & run & after & Heq & Hrun & Hrest).
    exists before, run, after. split; [done|]. split; [|done].
    rewrite <- Hperm, Heq. by rewrite filter_run.
  - intros Hcf.
    destruct (shuffle_records_contiguous input_examples Hgbk Hcf r)
      as (before & after & Heq & Hbefore & Hafter).
    exists before, after. split; [|done].
    rewrite Heq at 1. unfold occurrences. by rewrite Hperm.
Qed.

(** *** The reference runner groups as every runner must *)

Lemma ungroup_Permutation (gs1 gs2 : list (bytes * list bytes)) :
  gs1 ≡ₚ gs2 → ungroup gs1 ≡ₚ ungroup gs2.
Proof.
  unfold ungroup. induction 1 as [|g gs1 gs2 _ IH|g g' gs|gs1 gs2 gs3 _ IH1 _ IH2];
    simpl.
  - done.
  - by rewrite IH.
  - rewrite !(assoc (++)). f_equiv. apply Permutation_app_comm.
  - by rewrite IH1.
Qed.

Lemma insert_group_Permutation (g : bytes * list bytes)
    (groups : list (bytes * list bytes)) :
  Reference.insert_group g groups ≡ₚ g :: groups.
Proof.
  induction groups as [|g' groups IH]; simpl; [done|].
  destruct (Reference.bytes_leb (fst g) (fst g')); [done|].
  rewrite IH. apply Permutation_swap.
Qed.

Lemma add_value_Some (k v : bytes) (groups groups' : list (bytes * list bytes)) :
  Reference.add_value k v groups = Some groups' →
  ungroup groups' ≡ₚ (k, v) :: ungroup groups
  ∧ map fst groups' = map fst groups
  ∧ (Forall (λ g, snd g ≠ []) groups → Forall (λ g, snd g ≠ []) groups').
Proof.
  revert groups'. induction groups as [|g groups IH]; intros groups'; simpl; [done|].
  destruct (decide (fst g = k)) as [<-|Hne].
  - intros [= <-]. unfold ungroup. simpl. split; [|split; [done|]].
    + rewrite map_app. simpl. rewrite <- (assoc (++)). simpl.
      by rewrite <- Permutation_middle.
    + intros [Hg Hgs]%Forall_cons. constructor; [|done]. simpl.
      by destruct (snd g).
  - destruct (Reference.add_value k v groups) as [gs|]; [|done].
    intros [= <-]. destruct (IH gs eq_refl) as (Hperm & Hkeys & Hne').
    unfold ungroup in *. simpl. split; [|split].
    + rewrite Hperm. by rewrite <- Permutation_middle.
    + by rewrite Hkeys.
    + intros [Hg Hgs]%Forall_cons. constructor; auto.
Qed.

Lemma add_value_None (k v : bytes) (groups : list (bytes * list bytes)) :
  Reference.add_value k v groups = None → k ∉ map fst groups.
Proof.
  induction groups as [|g groups IH]; simpl; [intros _; apply not_elem_of_nil|].
  destruct (decide (fst g = k)) as [|Hne]; [done|].
  destruct (Reference.add_value k v groups); [done|].
  intros _. apply not_elem_of_cons. split; [congruence|by apply IH].
Qed.

Lemma group_step_invariant (groups : list (bytes * list bytes)) (kv : bytes * bytes) :
  NoDup (map fst groups) → Forall (λ g, snd g ≠ []) groups →
  ungroup (Reference.group_step groups kv) ≡ₚ kv :: ungroup groups
  ∧ NoDup (map fst (Reference.group_step groups kv))
  ∧ Forall (λ g, snd g ≠ []) (Reference.group_step groups kv).
Proof.
  intros Hnodup Hne. unfold Reference.group_step. destruct kv as [k v]. simpl.
  destruct (Reference.add_value k v groups) as [groups'|] eqn:Hadd.
  - destruct (add_value_Some _ _ _ _ Hadd) as (Hperm & Hkeys & Hne').
    rewrite Hkeys. auto.
  - apply add_value_None in Hadd.
    pose proof (insert_group_Permutation (k, [v]) groups) as Hins.
    split; [|split].
    + by rewrite (ungroup_Permutation _ _ Hins).
    + rewrite Hins. simpl. by constructor.
    + rewrite Hins. by constructor.
Qed.

Lemma group_by_key_from (kvs : list (bytes * bytes)) :
  ∀ groups,
    NoDup (map fst groups) → Forall (λ g, snd g ≠ []) groups →
    ungroup (foldl Reference.group_step groups kvs) ≡ₚ ungroup groups ++ kvs
    ∧ NoDup (map fst (foldl Reference.group_step groups kvs))
    ∧ Forall (λ g, snd g ≠ []) (foldl Reference.group_step groups kvs).
Proof.
  induction kvs as [|kv kvs IH]; intros groups Hnodup Hne; simpl.
  - by rewrite app_nil_r.
  - destruct (group_step_invariant groups kv Hnodup Hne) as (Hperm & Hnodup' & Hne').
    destruct (IH _ Hnodup' Hne') as (Hperm'' & ? & ?).
    split; [|done]. rewrite Hperm'', Hperm. by rewrite <- Permutation_middle.
Qed.

Lemma group_by_key_spec : GroupByKey_spec Reference.group_by_key.
Proof.
  intros kvs. unfold Reference.group_by_key.
  destruct (group_by_key_from kvs []) as (Hperm & ? & ?);
    [constructor|constructor|]. done.
Qed.

Lemma shuffle_records_multiset_witness :
  let input := [["b"%byte]; ["a"%byte]; ["b"%byte]] in
  GroupByKey_spec (GroupByKey (Substrate:=Reference.substrate))
  ∧ shuffle_records (H:=Reference.substrate) input ≡ₚ input
  ∧ length (shuffle_records (H:=Reference.substrate) input) = length input
  ∧ (input = [] → shuffle_records (H:=Reference.substrate) input = [])
  ∧ ∀ r, occurrences r (shuffle_records (H:=Reference.substrate) input)
         = occurrences r input.
Proof.
  split; [exact group_by_key_spec|].
  apply (shuffle_records_multiset (H:=Reference.substrate)). exact group_by_key_spec.
Defined.

Lemma reference_collision_free (pcoll : list bytes) :
  collision_free (H:=Reference.substrate) pcoll.
Proof. intros x y _ _ Hxy. exact Hxy. Qed.

Lemma shuffle_records_duplicates_contiguous_witness :
  let input := [["b"%byte]; ["a"%byte]; ["b"%byte]] in
  GroupByKey_spec (GroupByKey (Substrate:=Reference.substrate))
  ∧ collision_free (H:=Reference.substrate) input
  ∧ (∃ before run after,
       shuffle_records (H:=Reference.substrate) input = before ++ run ++ after
       ∧ run ≡ₚ filter (λ x, sha1 (H:=Reference.substrate) x
                              = sha1 (H:=Reference.substrate) ["b"%byte]) input
       ∧ Forall (λ x, sha1 (H:=Reference.substrate) x
                      ≠ sha1 (H:=Reference.substrate) ["b"%byte])
                (before ++ after))
  ∧ ∃ before after,
      shuffle_records (H:=Reference.substrate) input
      = before ++ replicate (occurrences ["b"%byte] input) ["b"%byte] ++ after
      ∧ (["b"%byte] ∉ before) ∧ (["b"%byte] ∉ after).
Proof.
  split; [exact group_by_key_spec|]. split; [apply reference_collision_free|].
  destruct (shuffle_records_duplicates_contiguous (H:=Reference.substrate)
              [["b"%byte]; ["a"%byte]; ["b"%byte]] group_by_key_spec
              ["b"%byte]) as [Hrun Hcontiguous].
  split; [exact Hrun|]. apply Hcontiguous. apply reference_collision_free.
Defined.

(** C9 as stated fails: the key is a digest of the content, not the
    content. With a digest that two different records share, both
    records are collected under one key, and the group keeps them in the
    order they came in: one sits between two occurrences of the other. *)
Lemma colliding_record_between_duplicates :
  let x1 := ["x"%byte; "1"%byte] in
  let x2 := ["x"%byte; "2"%byte] in
  GroupByKey_spec (GroupByKey (Substrate:=Reference.colliding))
  ∧ sha1 (H:=Reference.colliding) x1 = sha1 (H:=Reference.colliding) x2
  ∧ shuffle_records (H:=Reference.colliding) [x1; x2; x1] = [x1; x2; x1]
  ∧ ¬ contiguous x1 (shuffle_records (H:=Reference.colliding) [x1; x2; x1]).
Proof.
  intros x1 x2. split; [exact group_by_key_spec|]. split; [reflexivity|].
  split; [reflexivity|].
  change (shuffle_records (H:=Reference.colliding) [x1; x2; x1])
    with [x1; x2; x1].
  intros (before & after & Heq & Hbefore & Hafter).
  change (occurrences x1 [x1; x2; x1]) with 2%nat in Heq. simpl in Heq.
  destruct before as [|y before]; [by injection Heq|].
  injection Heq as <- Heq. apply Hbefore. left.
Qed.

Example shuffle_records_example :
  shuffle_records (H:=Reference.substrate) [["b"%byte]; ["a"%byte]; ["b"%byte]]
  = [["a"%byte]; ["b"%byte]; ["b"%byte]].
Proof. reflexivity. Qed.

(** ** The manifest *)

Lemma append_assoc (a b c : string) : (a +:+ b) +:+ c = a +:+ (b +:+ c).
Proof. induction a as [|x a IH]; [done|]. change (String x ((a +:+ b) +:+ c) = String x (a +:+ (b +:+ c))). by f_equal. Qed.

Lemma single_line_app (a b : string) :
  single_line (a +:+ b) = single_line a && single_line b.
Proof.
  induction a as [|x a IH]; [done|].
  change (negb (Ascii.eqb x "010") && single_line (a +:+ b)
          = negb (Ascii.eqb x "010") && single_line a && single_line b).
  rewrite IH. by rewrite andb_assoc.
Qed.

Lemma str_split_single_line (s : string) :
  single_line s = true → str_split "010" s = [s].
Proof.
  induction s as [|c s IH]; simpl; [done|].
  intros [Hc Hs]%andb_prop. apply negb_true_iff in Hc. rewrite Hc.
  by rewrite IH.
Qed.

Lemma str_split_line (s t : string) :
  single_line s = true →
  str_split "010" (s +:+ nl +:+ t) = s :: str_split "010" t.
Proof.
  induction s as [|c s IH]; simpl; [done|].
  intros [Hc Hs]%andb_prop. apply negb_true_iff in Hc. rewrite Hc.
  by rewrite IH.
Qed.

Lemma single_line_string_of_uint (d : Decimal.uint) :
  single_line (NilEmpty.string_of_uint d) = true.
Proof. induction d; simpl; auto. Qed.

Lemma single_line_format_d (i : Z) : single_line (format_d i) = true.
Proof.
  unfold format_d, NilZero.string_of_int, NilZero.string_of_uint.
  destruct (Z.to_int i) as [d|d]; destruct d; simpl;
    auto using single_line_string_of_uint.
Qed.

Lemma dedent_three_lines (c1 c2 c3 : ascii) (r1 r2 r3 : string) :
  is_space_or_tab c1 = false → is_space_or_tab c2 = false →
  is_space_or_tab c3 = false →
  single_line (String c1 r1) = true → single_line (String c2 r2) = true →
  single_line (String c3 r3) = true →
  textwrap_dedent
    ("" +:+ nl +:+ indented c1 r1 +:+ nl +:+ indented c2 r2 +:+ nl
     +:+ indented c3 r3 +:+ nl +:+ "    ")
  = nl +:+ String c1 r1 +:+ nl +:+ String c2 r2 +:+ nl +:+ String c3 r3 +:+ nl.
Proof.
  intros Hc1 Hc2 Hc3 H1 H2 H3. unfold textwrap_dedent.
  assert (∀ c r, single_line (String c r) = true →
                 single_line (indented c r) = true) as Hline by done.
  rewrite !str_split_line, str_split_single_line by auto.
  assert (∀ c r, is_space_or_tab c = false →
                 whitespace_only (indented c r) = false) as Hws.
  { intros c r Hc. unfold indented. simpl. by rewrite Hc. }
  assert (∀ c r, is_space_or_tab c = false →
                 leading_whitespace (indented c r) = "    ") as Hlead.
  { intros c r Hc. unfold indented. simpl. by rewrite Hc. }
  cbn [map].
  rewrite !Hws by done.
  rewrite filter_cons_False by (intros Hne; by apply Hne).
  rewrite !filter_cons_True by done.
  rewrite filter_cons_False by (intros Hne; by apply Hne).
  rewrite filter_nil.
  cbn [map]. rewrite !Hlead by done.
  reflexivity.
Qed.

Lemma MakeConfigStringCaller_call_single_line
    (dataset_name path : string) (num_examples : Z) :
  single_line dataset_name = true → single_line path = true →
  MakeConfigStringCaller_call
    {| name := dataset_name; tfrecord_path := path |} num_examples
  = nl
    +:+ "name: " +:+ dq +:+ dataset_name +:+ dq +:+ nl
    +:+ "tfrecord_path: " +:+ dq +:+ path
        +:+ "-?????-of-?????.tfrecord.gz" +:+ dq +:+ nl
    +:+ "num_examples: " +:+ format_d num_examples +:+ nl.
Proof.
  intros Hname Hpath. unfold MakeConfigStringCaller_call.
  cbn [name tfrecord_path].
  set (line1 := "ame: " +:+ dq +:+ dataset_name +:+ dq).
  set (line2 := "frecord_path: " +:+ dq +:+ path
                +:+ "-?????-of-?????.tfrecord.gz" +:+ dq).
  set (line3 := "um_examples: " +:+ format_d num_examples).
  assert (single_line line1 = true) as H1.
  { subst line1. rewrite !single_line_app, Hname. done. }
  assert (single_line line2 = true) as H2.
  { subst line2. rewrite !single_line_app, Hpath. done. }
  assert (single_line line3 = true) as H3.
  { subst line3. rewrite !single_line_app, single_line_format_d. done. }
  pose proof (dedent_three_lines "n" "t" "n" line1 line2 line3
                eq_refl eq_refl eq_refl H1 H2 H3) as Hdedent.
  subst line1 line2 line3. unfold indented in Hdedent.
  assert (∀ c a b, String c a +:+ b = String c (a +:+ b)) as Hcons by done.
  rewrite !Hcons, !append_assoc in Hdedent. exact Hdedent.
Qed.

(** C7: whatever the final output collection holds, the manifest is the
    header, five comment lines of which the third gives the input
    pattern list and the fourth the output prefix as they were passed,
    followed by the trailer built from the dataset name, the output path
    with its [?????] placeholders and the number of records of the
    collection as [Count.Globally] counts them; for names that fit on a
    line the trailer is spelled out. *)
Theorem summary_header_then_trailer (output_examples : list bytes)
    (input_pattern_list dataset_name output_pattern_prefix output_filename : string)
    (fs : gmap string file) :
  let count := Z.of_nat (length output_examples) in
  let header := COMMENT_HEADER_format input_pattern_list output_pattern_prefix in
  let trailer :=
    MakeConfigStringCaller_call
      {| name := dataset_name; tfrecord_path := output_pattern_prefix |} count in
  Count_Globally output_examples = [count]
  ∧ header
    = "# Generated by shuffle_tfrecords_beam.py" +:+ nl
      +:+ "#" +:+ nl
      +:+ "# --input_pattern_list=" +:+ input_pattern_list +:+ nl
      +:+ "# --output_pattern_prefix=" +:+ output_pattern_prefix +:+ nl
      +:+ "#" +:+ nl
  ∧ summary_strings output_examples input_pattern_list dataset_name
      output_pattern_prefix = [header +:+ trailer]
  ∧ write_summary_string_to_file output_examples input_pattern_list dataset_name
      output_pattern_prefix output_filename fs !! output_filename
    = Some (TextFile (header +:+ trailer +:+ nl))
  ∧ (single_line dataset_name = true → single_line output_pattern_prefix = true →
     trailer
     = nl
       +:+ "name: " +:+ dq +:+ dataset_name +:+ dq +:+ nl
       +:+ "tfrecord_path: " +:+ dq +:+ output_pattern_prefix
           +:+ "-?????-of-?????.tfrecord.gz" +:+ dq +:+ nl
       +:+ "num_examples: " +:+ format_d count +:+ nl)
  ∧ (output_examples = [] → format_d count = "0").
Proof.
  intros count header trailer.
  assert (summary_strings output_examples input_pattern_list dataset_name
            output_pattern_prefix = [header +:+ trailer]) as Hsummary.
  { unfold summary_strings, CombineGlobally_join, Flatten, Count_Globally.
    reflexivity. }
  split; [done|]. split; [done|]. split; [done|]. split; [|split].
  - unfold write_summary_string_to_file, WriteToText.
    rewrite lookup_insert_eq, Hsummary. simpl.
    by rewrite append_assoc.
  - intros Hname Hprefix. by apply MakeConfigStringCaller_call_single_line.
  - intros ->. reflexivity.
Qed.

Lemma summary_header_then_trailer_witness :
  write_summary_string_to_file [["a"%byte]; ["b"%byte]]
    "/in/x.tfrecord.gz" "HG001" "/out/shuf" "/out/cfg" ∅ !! "/out/cfg"
  = Some (TextFile
            ("# Generated by shuffle_tfrecords_beam.py" +:+ nl
             +:+ "#" +:+ nl
             +:+ "# --input_pattern_list=/in/x.tfrecord.gz" +:+ nl
             +:+ "# --output_pattern_prefix=/out/shuf" +:+ nl
             +:+ "#" +:+ nl
             +:+ nl
             +:+ "name: " +:+ dq +:+ "HG001" +:+ dq +:+ nl
             +:+ "tfrecord_path: " +:+ dq
                 +:+ "/out/shuf-?????-of-?????.tfrecord.gz" +:+ dq +:+ nl
             +:+ "num_examples: 2" +:+ nl
             +:+ nl)).
Proof.
  destruct (summary_header_then_trailer
              [["a"%byte]; ["b"%byte]] "/in/x.tfrecord.gz" "HG001" "/out/shuf"
              "/out/cfg" ∅) as (_ & Hheader & _ & Hfile & Htrailer & _).
  rewrite Hfile, Hheader, Htrailer by reflexivity. reflexivity.
Defined.

(** ** The command line *)

(** C8: when pre-partitioning is requested without a working directory
    or with a bucket count that is zero or negative, [parse_cmdline]
    fails on its assertion and [main] stops there, with nothing executed
    and nothing written; when it is requested with both, or not
    requested, the parsed arguments are returned as they are. *)
Theorem parse_cmdline_pre_partition_checks `{Substrate} (argv : list string)
    (known_args : known_args) (pipeline_args : list string) :
  parse_known_args argv = inr (known_args, pipeline_args) →
  (pre_partition_flag known_args = true →
   pre_partition_workdir known_args = None ∨ num_buckets known_args ≤ 0 →
   ∃ msg, parse_cmdline argv = inl (AssertionError msg)
          ∧ ∀ w, main argv w = (inl (AssertionError msg), w))
  ∧ (pre_partition_flag known_args = true →
     pre_partition_workdir known_args ≠ None → num_buckets known_args > 0 →
     parse_cmdline argv = inr (known_args, pipeline_args))
  ∧ (pre_partition_flag known_args = false →
     parse_cmdline argv = inr (known_args, pipeline_args)).
Proof.
  intros Hparse. unfold main, parse_cmdline. rewrite Hparse.
  split; [|split].
  - intros -> Hbad.
    destruct (bool_decide (pre_partition_workdir known_args = None)) eqn:Hwd.
    + eexists. split; [reflexivity|]. intros w. reflexivity.
    + apply bool_decide_eq_false in Hwd. destruct Hbad as [Hnone|Hn]; [done|].
      rewrite bool_decide_eq_false_2 by lia. simpl.
      eexists. split; [reflexivity|]. intros w. reflexivity.
  - intros -> Hwd Hn.
    by rewrite bool_decide_eq_false_2, bool_decide_eq_true_2.
  - by intros ->.
Qed.

Lemma parse_cmdline_pre_partition_checks_witness :
  ∃ msg,
    parse_cmdline (H:=Reference.substrate)
      ["--input_pattern_list=/in/x.tfrecord.gz"; "--pre_partition";
       "--num_buckets=0"; "--pre_partition_workdir=/work"]
    = inl (AssertionError msg)
    ∧ ∀ w, main (H:=Reference.substrate)
             ["--input_pattern_list=/in/x.tfrecord.gz"; "--pre_partition";
              "--num_buckets=0"; "--pre_partition_workdir=/work"] w
           = (inl (AssertionError msg), w).
Proof.
  refine (proj1 (parse_cmdline_pre_partition_checks (H:=Reference.substrate)
                   _ (KnownArgs (Some "/in/x.tfrecord.gz") None None None 0 true
                        (Some "/work") false) [] _) _ _).
  - reflexivity.
  - reflexivity.
  - right. simpl. lia.
Defined.

(** ** Reasoning in the monad *)

Lemma bind_cases {A B} (m : M A) (f : A → M B) (w w' : world) (r : exn + B) :
  (m ≫= f) w = (r, w') →
  (∃ e, m w = (inl e, w') ∧ r = inl e)
  ∨ (∃ a w1, m w = (inr a, w1) ∧ f a w1 = (r, w')).
Proof.
  unfold mbind, M_bind. destruct (m w) as [[e|a] w1]; intros Heq.
  - left. exists e. by simplify_eq.
  - right. by exists a, w1.
Qed.

Lemma bind_inr {A B} (m : M A) (f : A → M B) (w w' : world) (b : B) :
  (m ≫= f) w = (inr b, w') →
  ∃ a w1, m w = (inr a, w1) ∧ f a w1 = (inr b, w').
Proof.
  intros [(e & _ & ?)|Hok]%bind_cases; [done|]. exact Hok.
Qed.

Lemma starts_only_bind (P : execution → Prop) {A B} (m : M A) (f : A → M B) :
  starts_only P m → (∀ a, starts_only P (f a)) → starts_only P (m ≫= f).
Proof.
  intros Hm Hf w r w' [(e & Hrun & _)|(a & w1 & Hrun & Hrest)]%bind_cases.
  - by apply Hm in Hrun.
  - apply Hm in Hrun as (new1 & Heq1 & Hnew1).
    apply Hf in Hrest as (new2 & Heq2 & Hnew2).
    exists (new1 ++ new2). rewrite Heq2, Heq1, (assoc (++)).
    split; [done|]. by apply Forall_app.
Qed.

Lemma starts_only_quiet (P : execution → Prop) {A} (m : M A) :
  (∀ w r w', m w = (r, w') → executed w' = executed w) → starts_only P m.
Proof.
  intros Hquiet w r w' Hrun. exists []. rewrite app_nil_r.
  split; [by eapply Hquiet|constructor].
Qed.

Lemma starts_only_ret (P : execution → Prop) {A} (a : A) :
  starts_only P (mret a).
Proof. apply starts_only_quiet. intros w r w' [= _ <-]. done. Qed.

Lemma starts_only_raise (P : execution → Prop) {A} (e : exn) :
  starts_only P (raise (A:=A) e).
Proof. apply starts_only_quiet. intros w r w' [= _ <-]. done. Qed.

Lemma starts_only_gets (P : execution → Prop) {A} (f : world → A) :
  starts_only P (gets f).
Proof. apply starts_only_quiet. intros w r w' [= _ <-]. done. Qed.

Lemma starts_only_lift (P : execution → Prop) {A} (x : exn + A) :
  starts_only P (lift x).
Proof. apply starts_only_quiet. intros w r w' [= _ <-]. done. Qed.

(** ** Paths *)

Lemma existsb_elements (f : string → bool) (X : gset string) :
  existsb f (elements X) = true ↔ ∃ q, q ∈ X ∧ f q = true.
Proof.
  rewrite existsb_exists. split; intros (q & Hq & Hf); exists q; split;
    try done; [apply elem_of_elements|apply elem_of_elements in Hq];
    by apply list_elem_of_In.
Qed.

Lemma existsb_elements_false (f : string → bool) (X : gset string) :
  existsb f (elements X) = false ↔ ∀ q, q ∈ X → f q = false.
Proof.
  split.
  - intros Hnone q Hq. destruct (f q) eqn:Hf; [|done].
    assert (existsb f (elements X) = true) as Hsome
      by (apply existsb_elements; by exists q).
    congruence.
  - intros Hnone. destruct (existsb f (elements X)) eqn:Hsome; [|done].
    apply existsb_elements in Hsome as (q & Hq & Hf).
    rewrite (Hnone q Hq) in Hf. done.
Qed.

Lemma leads_to_refl (p : string) : leads_to p p = true.
Proof. unfold leads_to. by apply bool_decide_eq_true_2. Qed.

Lemma os_path_isdir_created (path : string) (w : world) :
  path ≠ "" → path ∈ dirs w → os_path_isdir path w = true.
Proof.
  intros Hne Hin. unfold os_path_isdir.
  rewrite bool_decide_eq_true_2 by done. simpl.
  apply orb_true_iff. left. apply orb_true_iff. right.
  apply existsb_elements. exists path. split; [done|apply leads_to_refl].
Qed.

Lemma os_path_isdir_mono (p : string) (w w' : world) :
  dirs w ⊆ dirs w' → dom (files w) ⊆ dom (files w') →
  os_path_isdir p w = true → os_path_isdir p w' = true.
Proof.
  intros Hdirs Hfiles. unfold os_path_isdir.
  rewrite !andb_true_iff, !orb_true_iff, !existsb_elements.
  intros [Hne [[Hroot|(q & Hq & Hlead)]|(q & Hq & Hlead)]]; split; try done.
  - left. by left.
  - left. right. exists q. split; [set_solver|done].
  - right. exists q. split; [set_solver|done].
Qed.

(** When [os.makedirs] does not raise: the path is not there, is not
    empty and has no regular file on its way. *)
Lemma os_makedirs_cases (path : string) (w : world) :
  os_makedirs path w = (inl (OSError path), w)
  ∨ (os_makedirs path w
     = (inr tt, World (files w) ({[path]} ∪ dirs w) (executed w) (log_level w)
                      (log_output w))
     ∧ os_path_exists path w = false ∧ path ≠ ""
     ∧ ∀ q, q ∈ dom (files w) → leads_to q path = false).
Proof.
  unfold os_makedirs.
  destruct (os_path_exists path w) eqn:Hthere; [by left|].
  case_bool_decide as Hempty; [by left|]. simpl.
  destruct (existsb _ _) eqn:Hfile; [by left|]. right.
  split; [done|]. split; [done|]. split; [done|].
  by apply existsb_elements_false.
Qed.

Lemma os_makedirs_fresh (path : string) (w : world) :
  os_path_exists path w = false → path ≠ "" →
  (∀ q, q ∈ dom (files w) → leads_to q path = false) →
  os_makedirs path w
  = (inr tt, World (files w) ({[path]} ∪ dirs w) (executed w) (log_level w)
                   (log_output w)).
Proof.
  intros Hthere Hne Hfile. unfold os_makedirs. rewrite Hthere.
  rewrite bool_decide_eq_false_2 by done. simpl.
  by rewrite (proj2 (existsb_elements_false _ _) Hfile).
Qed.

Lemma os_makedirs_blocked (path : string) (w : world) :
  path = "" ∨ (∃ q, q ∈ dom (files w) ∧ leads_to q path = true) →
  os_makedirs path w = (inl (OSError path), w).
Proof.
  intros Hblocked.
  destruct (os_makedirs_cases path w) as [Hfail|(_ & _ & Hne & Hfile)]; [done|].
  destruct Hblocked as [->|(q & Hq & Hlead)]; [done|].
  rewrite (Hfile q Hq) in Hlead. done.
Qed.

Lemma elem_of_all_paths (p : string) (w : world) :
  p ∈ all_paths w ↔
  p ∈ dom (files w)
  ∨ (os_path_isdir p w = true
     ∧ (p ∈ dirs w
        ∨ ∃ q, (q ∈ dom (files w) ∨ q ∈ dirs w) ∧ p ∈ parents q)).
Proof.
  unfold all_paths.
  rewrite elem_of_elements, elem_of_union, elem_of_filter, elem_of_union,
    elem_of_list_to_set.
  assert (p ∈ flat_map parents (elements (dom (files w) ∪ dirs w))
          ↔ ∃ q, (q ∈ dom (files w) ∨ q ∈ dirs w) ∧ p ∈ parents q) as ->.
  { rewrite list_elem_of_In, in_flat_map.
    split; intros (q & Hq & Hp); exists q.
    - apply list_elem_of_In, elem_of_elements, elem_of_union in Hq.
      split; [done|by apply list_elem_of_In].
    - split; [|by apply list_elem_of_In].
      by apply list_elem_of_In, elem_of_elements, elem_of_union. }
  split; (intros [?|[Hdir ?]]; [by left|right]); split; try done.
  - by destruct (os_path_isdir p w).
  - by rewrite Hdir.
Qed.

Lemma all_paths_file_or_dir (p : string) (w : world) :
  p ∈ all_paths w → p ∈ dom (files w) ∨ os_path_isdir p w = true.
Proof. rewrite elem_of_all_paths. intros [?|[? _]]; auto. Qed.

Lemma all_paths_shrink (w w' : world) (p : string) :
  dirs w' = dirs w → dom (files w') ⊆ dom (files w) →
  p ∈ all_paths w' → p ∈ all_paths w.
Proof.
  intros Hdirs Hfiles. rewrite !elem_of_all_paths.
  intros [Hfile|(Hdir & Hlisted)]; [left; set_solver|right]. split.
  - apply (os_path_isdir_mono p w' w); [by rewrite Hdirs|done|done].
  - rewrite Hdirs in Hlisted.
    destruct Hlisted as [?|(q & [Hq|Hq] & Hp)]; [by left|right; exists q..].
    + split; [left; set_solver|done].
    + split; [by right|done].
Qed.

(** ** Building the sources *)

Lemma beam_glob_not_nil `{Substrate} (pattern : string) (w : world) :
  beam_glob pattern w ≠ [] ↔
  ∃ p, p ∈ dom (files w) ∧ beam_match pattern p = true.
Proof.
  unfold beam_glob. split.
  - intros Hsome.
    destruct (filter (λ p, beam_match pattern p) (map fst (map_to_list (files w))))
      as [|p l] eqn:Hfilter; [done|].
    assert (p ∈ p :: l) as Hin by left. rewrite <- Hfilter in Hin.
    apply list_elem_of_filter in Hin as [Hmatch Hin].
    apply list_elem_of_fmap in Hin as ([q f] & -> & Hqf%elem_of_map_to_list).
    exists q. split; [by apply elem_of_dom|]. simpl in Hmatch.
    by destruct (beam_match pattern q).
  - intros (p & [f Hf]%elem_of_dom & Hmatch) Hnil.
    eapply (filter_nil_not_elem_of _ _ p Hnil); [by rewrite Hmatch|].
    apply list_elem_of_fmap. exists (p, f). split; [done|].
    by apply elem_of_map_to_list.
Qed.

Lemma patterns_match_mono `{Substrate} (w w' : world) (patterns : list string) :
  dom (files w) ⊆ dom (files w') →
  patterns_match w patterns → patterns_match w' patterns.
Proof.
  intros Hfiles Hmatch. unfold patterns_match.
  eapply Forall_impl; [exact Hmatch|]. clear Hmatch.
  intros pattern (p & Hp & Hmatch)%beam_glob_not_nil.
  apply beam_glob_not_nil. exists p. split; [set_solver|done].
Qed.

Lemma validate_patterns_inr `{Substrate} (w : world) (patterns : list string) :
  validate_patterns w patterns = inr tt ↔ patterns_match w patterns.
Proof.
  unfold patterns_match. induction patterns as [|pattern rest IH]; simpl.
  - split; [constructor|done].
  - case_bool_decide as Hnil.
    + split; [done|]. by intros [? _]%Forall_cons.
    + rewrite IH. split; [by constructor|by intros [_ ?]%Forall_cons].
Qed.

(** The sources are built when every pattern finds a file and there is
    a pattern at least; building them changes nothing. *)
Lemma build_read_cases `{Substrate} (patterns : list string) (w : world) :
  (build_read_from_tfrecords_files patterns w = (inr tt, w)
   ∧ patterns_match w patterns ∧ patterns ≠ [])
  ∨ (∃ e, build_read_from_tfrecords_files patterns w = (inl e, w)
          ∧ ¬ (patterns_match w patterns ∧ patterns ≠ [])).
Proof.
  unfold build_read_from_tfrecords_files.
  destruct (validate_patterns w patterns) as [e|[]] eqn:Hvalid.
  - right. exists e. split; [done|]. intros [Hmatch%validate_patterns_inr _].
    congruence.
  - apply validate_patterns_inr in Hvalid. destruct patterns as [|p rest].
    + right. eexists. split; [done|]. by intros [_ ?].
    + left. done.
Qed.

Lemma build_read_ok `{Substrate} (patterns : list string) (w : world) :
  patterns_match w patterns → patterns ≠ [] →
  build_read_from_tfrecords_files patterns w = (inr tt, w).
Proof.
  intros Hmatch Hne.
  destruct (build_read_cases patterns w) as [[? _]|(e & _ & Hno)]; [done|].
  by destruct Hno.
Qed.

Lemma build_read_same_world `{Substrate} (patterns : list string)
    (w w' : world) (r : exn + unit) :
  build_read_from_tfrecords_files patterns w = (r, w') → w' = w.
Proof.
  destruct (build_read_cases patterns w) as [[-> _]|(e & -> & _)];
    by intros [= _ <-].
Qed.

Lemma str_split_not_nil (sep : ascii) (s : string) : str_split sep s ≠ [].
Proof.
  induction s as [|c s IH]; simpl; [done|].
  destruct (Ascii.eqb c sep); [done|]. by destruct (str_split sep s).
Qed.

(** ** Pre-partitioning *)

Lemma pre_partition_there `{Substrate} (input_pattern : list string)
    (working_directory : string) (pipeline_args : list string) (n : Z) (w : world) :
  os_path_exists working_directory w = true →
  pre_partition input_pattern working_directory pipeline_args n w
  = (inl (ValueError "Provide a clean working directory path directory"), w).
Proof.
  intros Hthere. unfold pre_partition, mbind, M_bind, gets. by rewrite Hthere.
Qed.

Lemma pre_partition_blocked `{Substrate} (input_pattern : list string)
    (working_directory : string) (pipeline_args : list string) (n : Z) (w : world) :
  os_path_exists working_directory w = false →
  os_makedirs working_directory w = (inl (OSError working_directory), w) →
  pre_partition input_pattern working_directory pipeline_args n w
  = (inl (OSError working_directory), w).
Proof.
  intros Hthere Hblocked. unfold pre_partition, mbind, M_bind, gets.
  by rewrite Hthere, Hblocked.
Qed.


Lemma pre_partition_fresh `{Substrate} (input_pattern : list string)
    (working_directory : string) (pipeline_args : list string) (n : Z) (w : world) :
  os_path_exists working_directory w = false → working_directory ≠ "" →
  (∀ q, q ∈ dom (files w) → leads_to q working_directory = false) →
  pre_partition input_pattern working_directory pipeline_args n w
  = match build_read_from_tfrecords_files input_pattern
            (workdir_created working_directory w) with
    | (inl e, _) => (inl e, workdir_created working_directory w)
    | (inr _, _) =>
        match pre_partition_pipeline input_pattern working_directory n
                (workdir_created working_directory w) with
        | (inl e, w2) => (inl e, w2)
        | (inr _, w2) =>
            (inr (glob_glob (os_path_join working_directory
                               "partition????-00000-of-00001.tfrecord.gz") w2),
             w2)
        end
    end.
Proof.
  intros Hthere Hne Hfile. unfold pre_partition, mbind, M_bind, gets.
  rewrite Hthere, os_makedirs_fresh by done.
  unfold logging_info, modify.
  change (World _ _ _ _ _) with (workdir_created working_directory w).
  destruct (build_read_cases input_pattern (workdir_created working_directory w))
    as [[Heq _]|(e & Heq & _)]; rewrite Heq; [|done].
  by destruct (pre_partition_pipeline _ _ _ _) as [[e|[]] w2].
Qed.

Lemma pre_partition_pipeline_log `{Substrate} (input_pattern : list string)
    (working_directory : string) (n : Z) (w w' : world) (r : exn + unit) :
  pre_partition_pipeline input_pattern working_directory n w = (r, w') →
  dirs w' = dirs w
  ∧ executed w' = executed w ++ [PrePartitionRun working_directory n].
Proof.
  unfold pre_partition_pipeline.
  destruct (Partition n _) as [e|partitions]; by intros [= _ <-].
Qed.

(** What a call of [pre_partition] has done when it returns or
    raises. *)
Lemma pre_partition_cases `{Substrate} (input_pattern : list string)
    (working_directory : string) (pipeline_args : list string) (n : Z)
    (w w' : world) (r : exn + list string) :
  pre_partition input_pattern working_directory pipeline_args n w = (r, w') →
  (∃ e, r = inl e ∧ w' = w)
  ∨ (os_path_exists working_directory w = false
     ∧ working_directory ≠ ""
     ∧ dirs w' = {[working_directory]} ∪ dirs w
     ∧ ((∃ e, r = inl e ∧ files w' = files w ∧ executed w' = executed w
              ∧ ¬ (patterns_match w input_pattern ∧ input_pattern ≠ []))
        ∨ (patterns_match w input_pattern ∧ input_pattern ≠ []
           ∧ executed w' = executed w ++ [PrePartitionRun working_directory n]))).
Proof.
  destruct (os_path_exists working_directory w) eqn:Hthere.
  { rewrite pre_partition_there by done. intros [= <- <-]. left. by eexists. }
  destruct (os_makedirs_cases working_directory w)
    as [Hblocked|(_ & _ & Hne & Hfile)].
  { rewrite pre_partition_blocked by done. intros [= <- <-]. left. by eexists. }
  rewrite pre_partition_fresh by done. intros Hrun. right.
  split; [done|]. split; [done|].
  destruct (build_read_cases input_pattern (workdir_created working_directory w))
    as [(Heq & Hmatch & Hnil)|(e & Heq & Hno)]; rewrite Heq in Hrun.
  - destruct (pre_partition_pipeline _ _ _ _) as [[e|[]] w2] eqn:Hpipeline;
      apply pre_partition_pipeline_log in Hpipeline as [Hdirs Hlog];
      injection Hrun as <- <-; (split; [done|]); right; done.
  - injection Hrun as <- <-. split; [done|]. left. by exists e.
Qed.



(** A working directory given with a slash at its end is there when
    the directory is, and so is a directory above a file; the empty path
    is never there, and [os.makedirs] raises for it as it does for a
    path that leads through a regular file. *)
Example pre_partition_spellings :
  let w := World {[ "/in/x.tfrecord.gz" := TFRecordFile [["a"%byte]] ]}
             {[ "/work" ]} [] 30 [] in
  os_path_exists "/work/" w = true
  ∧ os_path_exists "/in" w = true
  ∧ os_path_exists "/" w = true
  ∧ os_path_exists "" w = false
  ∧ os_path_exists "/in/x.tfrecord.gz/" w = false
  ∧ pre_partition (H:=Reference.substrate) ["/in/x.tfrecord.gz"] "" [] 3 w
    = (inl (OSError ""), w)
  ∧ pre_partition (H:=Reference.substrate) ["/in/x.tfrecord.gz"]
      "/in/x.tfrecord.gz/parts" [] 3 w
    = (inl (OSError "/in/x.tfrecord.gz/parts"), w).
Proof. vm_compute. repeat split; reflexivity. Qed.


(** ** Shard names *)

(** The number a string of decimal digits stands for, leading zeros
    allowed. *)
Lemma value_zeros (k : nat) (s : string) :
  Z.of_uint <$> NilEmpty.uint_of_string (zeros k +:+ s)
  = Z.of_uint <$> NilEmpty.uint_of_string s.
Proof.
  induction k as [|k IH]; [done|].
  change (zeros (S k) +:+ s) with (String "0" (zeros k +:+ s)).
  simpl NilEmpty.uint_of_string.
  destruct (NilEmpty.uint_of_string (zeros k +:+ s)) as [d|];
    destruct (NilEmpty.uint_of_string s) as [d'|]; simpl in *; try done.
Qed.

Lemma value_format_d (i : nat) :
  Z.of_uint <$> NilEmpty.uint_of_string (format_d (Z.of_nat i))
  = Some (Z.of_nat i).
Proof.
  unfold format_d. pose proof (DecimalZ.of_to (Z.of_nat i)) as Hback.
  destruct (Z.of_nat i) as [|p|p] eqn:Hi; [done| |lia].
  unfold Z.to_int in *. unfold NilZero.string_of_int, NilZero.string_of_uint.
  unfold Z.of_int in Hback.
  destruct (Pos.to_uint p) as [|d|d|d|d|d|d|d|d|d|d]; [done|..];
    rewrite NilEmpty.usu; simpl; by rewrite Hback.
Qed.

Lemma format_0d_inj (width i j : nat) :
  format_0d width i = format_0d width j → i = j.
Proof.
  unfold format_0d. intros Heq.
  apply (f_equal (λ s, Z.of_uint <$> NilEmpty.uint_of_string s)) in Heq.
  rewrite !value_zeros, !value_format_d in Heq. injection Heq. lia.
Qed.

Lemma append_inv_head (p a b : string) : p +:+ a = p +:+ b → a = b.
Proof.
  induction p as [|c p IH]; [done|].
  change (String c (p +:+ a) = String c (p +:+ b) → a = b).
  intros [= Heq]. by apply IH.
Qed.

Lemma append_length (a b : string) :
  String.length (a +:+ b) = (String.length a + String.length b)%nat.
Proof.
  induction a as [|c a IH]; [done|].
  change (S (String.length (a +:+ b)) = S (String.length a + String.length b)).
  by rewrite IH.
Qed.

Lemma append_inv_tail (a b r : string) : a +:+ r = b +:+ r → a = b.
Proof.
  intros Heq. assert (String.length a = String.length b) as Hlen.
  { apply (f_equal String.length) in Heq. rewrite !append_length in Heq. lia. }
  revert b Heq Hlen. induction a as [|c a IH]; intros [|d b] Heq Hlen;
    try done.
  change (String c (a +:+ r) = String d (b +:+ r)) in Heq.
  injection Heq as -> Heq. f_equal. apply IH; [done|]. by injection Hlen.
Qed.

Lemma shard_name_inj (prefix suffix : string) (total i j : nat) :
  shard_name prefix i total suffix = shard_name prefix j total suffix → i = j.
Proof.
  unfold shard_name. intros Heq%append_inv_head%append_inv_head.
  apply (format_0d_inj 5). by eapply append_inv_tail.
Qed.


(** ** Writing shards and reading them back *)

Lemma insert_all_to_list (kvs : list (string * file)) :
  ∀ fs : gmap string file,
    NoDup (map fst kvs) →
    (∀ k, k ∈ map fst kvs → fs !! k = None) →
    map_to_list (foldl (λ m kv, <[fst kv := snd kv]> m) fs kvs)
    ≡ₚ kvs ++ map_to_list fs.
Proof.
  induction kvs as [|[k v] kvs IH]; intros fs Hnd Hfresh; simpl; [done|].
  apply NoDup_cons in Hnd as [Hk Hnd].
  rewrite IH; [|done|].
  - rewrite map_to_list_insert by (apply Hfresh; left).
    by rewrite <- Permutation_middle.
  - intros k' Hk'. rewrite lookup_insert_ne by (intros ->; done).
    apply Hfresh. by right.
Qed.

Lemma WriteToTFRecord_fold `{Substrate} (prefix suffix : string)
    (pcoll : list bytes) (fs : gmap string file) :
  WriteToTFRecord prefix suffix pcoll fs
  = foldl (λ m kv, <[fst kv := snd kv]> m) fs
          (imap (λ i rs, (shard_name prefix i (length (split_shards pcoll)) suffix,
                          TFRecordFile rs))
                (split_shards pcoll)).
Proof.
  unfold WriteToTFRecord.
  generalize (length (split_shards pcoll)) as total.
  generalize (split_shards pcoll) as shards. intros shards total.
  change (imap pair shards) with (imap (λ i x, (id i, x)) shards).
  change (imap (λ i rs, (shard_name prefix i total suffix, TFRecordFile rs)) shards)
    with (imap (λ i rs, (shard_name prefix (id i) total suffix, TFRecordFile rs))
               shards).
  generalize (@id nat) as g. revert fs.
  induction shards as [|rs shards IH]; intros fs g; [done|].
  rewrite !imap_cons. simpl. apply (IH _ (g ∘ S)).
Qed.

Lemma fst_imap_shards `{Substrate} (prefix suffix : string) (pcoll : list bytes) :
  map fst (imap (λ i rs, (shard_name prefix i (length (split_shards pcoll)) suffix,
                          TFRecordFile rs))
                (split_shards pcoll))
  = shard_names prefix suffix pcoll.
Proof.
  unfold shard_names. change (map fst ?l) with (fst <$> l).
  rewrite fmap_imap. by apply imap_ext.
Qed.

Lemma NoDup_shard_names `{Substrate} (prefix suffix : string) (pcoll : list bytes) :
  NoDup (shard_names prefix suffix pcoll).
Proof.
  unfold shard_names. apply NoDup_alt. intros i j name Hi Hj.
  rewrite list_lookup_imap in Hi, Hj.
  destruct (split_shards pcoll !! i); [|done].
  destruct (split_shards pcoll !! j); [|done].
  simpl in *. injection Hi as <-. injection Hj as Heq.
  symmetry. by eapply shard_name_inj.
Qed.

Lemma flat_map_Permutation {A B} (f : A → list B) (l1 l2 : list A) :
  l1 ≡ₚ l2 → flat_map f l1 ≡ₚ flat_map f l2.
Proof.
  induction 1 as [|x l1 l2 _ IH|x y l|l1 l2 l3 _ IH1 _ IH2]; simpl.
  - done.
  - by rewrite IH.
  - rewrite !(assoc (++)). f_equiv. apply Permutation_app_comm.
  - by rewrite IH1.
Qed.

Lemma ReadFromTFRecord_records_for `{Substrate} (w : world) (pattern : string) :
  ReadFromTFRecord w pattern = flat_map (records_for pattern) (map_to_list (files w)).
Proof. reflexivity. Qed.

Lemma beam_glob_nil `{Substrate} (pattern : string) (w : world) :
  beam_glob pattern w = [] →
  ∀ p f, files w !! p = Some f → beam_match pattern p = false.
Proof.
  intros Hnil p f Hf. destruct (beam_match pattern p) eqn:Hmatch; [|done].
  exfalso. eapply (filter_nil_not_elem_of _ _ p Hnil); [by rewrite Hmatch|].
  apply list_elem_of_fmap. exists (p, f). split; [done|].
  by apply elem_of_map_to_list.
Qed.

Lemma records_for_unmatched `{Substrate} (pattern : string)
    (l : list (string * file)) :
  (∀ pf, pf ∈ l → beam_match pattern (fst pf) = false) →
  flat_map (records_for pattern) l = [].
Proof.
  induction l as [|pf l IH]; intros Hnone; simpl; [done|].
  rewrite IH by (intros; apply Hnone; by right).
  unfold records_for. rewrite Hnone by left. by destruct (snd pf).
Qed.

Lemma records_for_shards `{Substrate} (pattern : string)
    (name : nat → string) (shards : list (list bytes)) :
  (∀ i rs, shards !! i = Some rs → beam_match pattern (name i) = true) →
  flat_map (records_for pattern) (imap (λ i rs, (name i, TFRecordFile rs)) shards)
  = concat shards.
Proof.
  revert name. induction shards as [|rs shards IH]; intros name Hmatch; [done|].
  rewrite imap_cons. simpl. f_equal.
  - unfold records_for. simpl. by rewrite (Hmatch 0%nat rs).
  - apply (IH (name ∘ S)). intros i rs' Hi. by apply (Hmatch (S i) rs').
Qed.

(** What is written under a prefix is what is read back with a pattern,
    when the pattern matches the shards that were written and no file
    that was there before. *)
Lemma write_then_read `{Substrate} (prefix suffix pattern : string)
    (pcoll : list bytes) (w w' : world) :
  Forall (λ name, beam_match pattern name = true)
         (shard_names prefix suffix pcoll) →
  beam_glob pattern w = [] →
  files w' = WriteToTFRecord prefix suffix pcoll (files w) →
  ReadFromTFRecord w' pattern ≡ₚ concat (split_shards pcoll).
Proof.
  intros Hnames Hstale Hfiles.
  pose proof (beam_glob_nil _ _ Hstale) as Hnone.
  rewrite ReadFromTFRecord_records_for, Hfiles, WriteToTFRecord_fold.
  rewrite Forall_forall in Hnames.
  set (kvs := imap (λ i rs, (shard_name prefix i (length (split_shards pcoll))
                               suffix, TFRecordFile rs))
                   (split_shards pcoll)).
  assert (NoDup (map fst kvs)) as Hnd.
  { subst kvs. rewrite fst_imap_shards. apply NoDup_shard_names. }
  assert (∀ k, k ∈ map fst kvs → files w !! k = None) as Hfresh.
  { intros k Hk. subst kvs. rewrite fst_imap_shards in Hk. apply Hnames in Hk.
    destruct (files w !! k) as [f|] eqn:Hf; [|done].
    by rewrite (Hnone k f Hf) in Hk. }
  rewrite (flat_map_Permutation _ _ _ (insert_all_to_list kvs (files w) Hnd Hfresh)).
  rewrite flat_map_app, (records_for_unmatched pattern (map_to_list (files w))).
  - rewrite app_nil_r. subst kvs. rewrite records_for_shards; [done|]. intros i rs Hi.
    apply Hnames. unfold shard_names.
    apply (elem_of_lookup_imap_2 (λ i _, shard_name prefix i _ suffix) _ rs i Hi).
  - intros [p f] Hpf%elem_of_map_to_list. by eapply Hnone.
Qed.


Lemma insert_all_lookup_other (kvs : list (string * file)) :
  ∀ (fs : gmap string file) k,
    k ∉ map fst kvs →
    foldl (λ m kv, <[fst kv := snd kv]> m) fs kvs !! k = fs !! k.
Proof.
  induction kvs as [|[k' v'] kvs IH]; intros fs k Hk; simpl; [done|].
  simpl in Hk. apply not_elem_of_cons in Hk as [Hne Hk].
  rewrite IH by done. by rewrite lookup_insert_ne.
Qed.

Lemma insert_all_lookup (kvs : list (string * file)) :
  ∀ (fs : gmap string file) k v,
    NoDup (map fst kvs) → (k, v) ∈ kvs →
    foldl (λ m kv, <[fst kv := snd kv]> m) fs kvs !! k = Some v.
Proof.
  induction kvs as [|[k' v'] kvs IH]; intros fs k v Hnd Hin; simpl.
  - by apply elem_of_nil in Hin.
  - simpl in Hnd. apply NoDup_cons in Hnd as [Hk' Hnd].
    apply elem_of_cons in Hin as [[= -> ->]|Hin].
    + rewrite insert_all_lookup_other by done. apply lookup_insert_eq.
    + by apply IH.
Qed.

(** Every shard that the sink writes is there afterwards, under its own
    name: no shard of one write overwrites another. *)
Lemma WriteToTFRecord_lookup `{Substrate} (prefix suffix : string)
    (pcoll : list bytes) (fs : gmap string file) (j : nat) (shard : list bytes) :
  split_shards pcoll !! j = Some shard →
  WriteToTFRecord prefix suffix pcoll fs
  !! shard_name prefix j (length (split_shards pcoll)) suffix
  = Some (TFRecordFile shard).
Proof.
  intros Hj. rewrite WriteToTFRecord_fold. apply insert_all_lookup.
  - rewrite fst_imap_shards. apply NoDup_shard_names.
  - apply (elem_of_lookup_imap_2
             (λ i rs, (shard_name prefix i _ suffix, TFRecordFile rs)) _ shard j Hj).
Qed.


Lemma one_shard_concat (pcoll : list bytes) :
  concat (Reference.one_shard pcoll) ≡ₚ pcoll.
Proof. unfold Reference.one_shard. simpl. by rewrite app_nil_r. Qed.

Lemma WriteToTFRecord_lookup_other `{Substrate} (prefix suffix : string)
    (pcoll : list bytes) (fs : gmap string file) (p : string) :
  p ∉ shard_names prefix suffix pcoll →
  WriteToTFRecord prefix suffix pcoll fs !! p = fs !! p.
Proof.
  intros Hp. rewrite WriteToTFRecord_fold. apply insert_all_lookup_other.
  by rewrite fst_imap_shards.
Qed.

Lemma elem_of_shard_names `{Substrate} (prefix suffix : string)
    (pcoll : list bytes) (p : string) :
  p ∈ shard_names prefix suffix pcoll ↔
  ∃ j, (j < length (split_shards pcoll))%nat
       ∧ p = shard_name prefix j (length (split_shards pcoll)) suffix.
Proof.
  unfold shard_names. rewrite elem_of_lookup_imap. split.
  - intros (j & shard & -> & Hj). exists j. split; [|done].
    by apply lookup_lt_Some in Hj.
  - intros (j & Hj & ->). apply lookup_lt_is_Some in Hj as [shard Hj].
    by exists j, shard.
Qed.

Lemma insert_all_dom (kvs : list (string * file)) (fs : gmap string file) :
  dom (foldl (λ m kv, <[fst kv := snd kv]> m) fs kvs)
  = dom fs ∪ list_to_set (map fst kvs).
Proof.
  revert fs. induction kvs as [|[k v] kvs IH]; intros fs; simpl.
  - set_solver.
  - rewrite IH, dom_insert_L. set_solver.
Qed.

(** A sink adds the shards it writes and removes nothing. *)
Lemma WriteToTFRecord_dom `{Substrate} (prefix suffix : string)
    (pcoll : list bytes) (fs : gmap string file) :
  dom (WriteToTFRecord prefix suffix pcoll fs)
  = dom fs ∪ list_to_set (shard_names prefix suffix pcoll).
Proof. by rewrite WriteToTFRecord_fold, insert_all_dom, fst_imap_shards. Qed.

(** ** Cleanup *)

Lemma only_removes_bind {A B} (m : M A) (f : A → M B) :
  only_removes m → (∀ a, only_removes (f a)) → only_removes (m ≫= f).
Proof.
  intros Hm Hf w r w' [(e & Hrun & _)|(a & w1 & Hrun & Hrest)]%bind_cases.
  - by apply Hm in Hrun.
  - apply Hm in Hrun as (He1 & Hd1 & Hf1).
    apply Hf in Hrest as (He2 & Hd2 & Hf2).
    split; [congruence|]. split; [congruence|]. set_solver.
Qed.

Lemma only_removes_ret {A} (a : A) : only_removes (mret a).
Proof. intros w r w' [= _ <-]. done. Qed.

Lemma only_removes_gets {A} (f : world → A) : only_removes (gets f).
Proof. intros w r w' [= _ <-]. done. Qed.

Lemma only_removes_os_remove (path : string) : only_removes (os_remove path).
Proof.
  intros w r w'. unfold os_remove.
  destruct (os_path_isdir path w); [by intros [= _ <-]|].
  destruct (files w !! path); intros [= _ <-]; [|done]. simpl.
  split; [done|]. split; [done|]. rewrite dom_delete_L. set_solver.
Qed.

Lemma only_removes_remove_each (partials : list string) :
  only_removes (remove_each partials).
Proof.
  induction partials as [|p partials IH]; simpl.
  - apply only_removes_ret.
  - apply only_removes_bind; [apply only_removes_os_remove|done].
Qed.

Lemma only_removes_cleanup `{Substrate} (output_patterns : list string) :
  only_removes (cleanup output_patterns).
Proof.
  induction output_patterns as [|pattern rest IH]; simpl.
  - apply only_removes_ret.
  - apply only_removes_bind; [apply only_removes_gets|]. intros partials.
    apply only_removes_bind; [apply only_removes_remove_each|done].
Qed.

Lemma glob_glob_nil `{Substrate} (pattern : string) (w : world) :
  glob_glob pattern w = [] ↔
  ∀ p, p ∈ all_paths w → glob_match pattern p = false.
Proof.
  unfold glob_glob. split.
  - intros Hnil p Hp.
    destruct (glob_match pattern p) eqn:Hmatch; [|done].
    exfalso. eapply (filter_nil_not_elem_of _ _ p Hnil); [|done].
    by rewrite Hmatch.
  - intros Hnone. apply elem_of_nil_inv. intros p.
    rewrite list_elem_of_filter. intros [Hmatch Hp].
    rewrite (Hnone p Hp) in Hmatch. done.
Qed.

Lemma glob_glob_nil_shrink `{Substrate} (pattern : string) (w w' : world) :
  dirs w' = dirs w → dom (files w') ⊆ dom (files w) →
  glob_glob pattern w = [] → glob_glob pattern w' = [].
Proof.
  rewrite !glob_glob_nil. intros Hdirs Hfiles Hnil p Hp. apply Hnil.
  by apply (all_paths_shrink w w').
Qed.

(** A path that no listing shows is no file. *)
Lemma glob_glob_nil_file `{Substrate} (pattern : string) (w : world) (p : string) :
  glob_glob pattern w = [] → glob_match pattern p = true → files w !! p = None.
Proof.
  rewrite glob_glob_nil. intros Hnil Hmatch.
  destruct (files w !! p) as [f|] eqn:Hf; [|done].
  rewrite (Hnil p) in Hmatch; [done|].
  apply elem_of_all_paths. left. by apply elem_of_dom.
Qed.

(** After a successful [remove_each], the paths it was given are
    neither files nor directories. *)
Lemma remove_each_removes (partials : list string) (w w' : world) :
  remove_each partials w = (inr tt, w') →
  ∀ p, p ∈ partials → (p ∉ dom (files w')) ∧ os_path_isdir p w' = false.
Proof.
  revert w. induction partials as [|q partials IH]; intros w Hrun p Hp.
  - by apply elem_of_nil in Hp.
  - simpl in Hrun. apply bind_inr in Hrun as ([] & w1 & Hq & Hrest).
    apply elem_of_cons in Hp as [->|Hp]; [|by eapply IH].
    destruct (only_removes_remove_each partials _ _ _ Hrest) as (_ & Hdirs & Hfiles).
    destruct (only_removes_os_remove q _ _ _ Hq) as (_ & Hdirs1 & Hfiles1).
    unfold os_remove in Hq. destruct (os_path_isdir q w) eqn:Hdir; [done|].
    destruct (files w !! q); [|done]. injection Hq as <-.
    simpl in *. split.
    + intros Hin%Hfiles. rewrite dom_delete_L in Hin. set_solver.
    + destruct (os_path_isdir q w') eqn:Hdir'; [|done].
      rewrite <- Hdir. symmetry.
      apply (os_path_isdir_mono q w' w); [by rewrite Hdirs|set_solver|done].
Qed.

Lemma cleanup_leaves_no_match `{Substrate} (output_patterns : list string) (w w' : world) :
  cleanup output_patterns w = (inr tt, w') →
  ∀ pattern, pattern ∈ output_patterns → glob_glob pattern w' = [].
Proof.
  revert w. induction output_patterns as [|q rest IH]; intros w Hrun pattern Hin.
  - by apply elem_of_nil in Hin.
  - simpl in Hrun. apply bind_inr in Hrun as (partials & w0 & Hglob & Hrun).
    injection Hglob as <- <-.
    apply bind_inr in Hrun as ([] & w1 & Hremove & Hrest).
    apply elem_of_cons in Hin as [->|Hin]; [|by eapply IH].
    destruct (only_removes_cleanup rest _ _ _ Hrest) as (_ & Hdirs & Hfiles).
    apply (glob_glob_nil_shrink q w1 w'); [done..|].
    destruct (only_removes_remove_each _ _ _ _ Hremove) as (_ & Hdirs1 & Hfiles1).
    apply glob_glob_nil. intros p Hp.
    destruct (glob_match q p) eqn:Hmatch; [|done]. exfalso.
    assert (p ∈ glob_glob q w) as Hpartial.
    { unfold glob_glob. rewrite list_elem_of_filter, Hmatch.
      split; [done|]. by apply (all_paths_shrink w w1). }
    destruct (remove_each_removes _ _ _ Hremove p Hpartial) as [Hnf Hnd].
    apply all_paths_file_or_dir in Hp as [Hp|Hp]; [done|congruence].
Qed.

(** ** Which executions each block starts *)

Lemma setLevel_run (level : Z) (w : world) :
  setLevel level w
  = (inr tt, World (files w) (dirs w) (executed w) level (log_output w)).
Proof. reflexivity. Qed.

Lemma starts_only_pre_partition `{Substrate} (input_pattern : list string)
    (working_directory : string) (pipeline_args : list string) (n : Z) :
  starts_only (λ e, is_pre_partition e = true)
    (pre_partition input_pattern working_directory pipeline_args n).
Proof.
  intros w r w' Hrun.
  apply pre_partition_cases in Hrun
    as [(e & _ & ->)|(_ & _ & _ & [(e & _ & _ & Hlog & _)|(_ & _ & Hlog)])].
  - exists []. by rewrite app_nil_r.
  - exists []. by rewrite app_nil_r.
  - eexists. split; [exact Hlog|]. by repeat constructor.
Qed.

Lemma starts_only_prepartition_files `{Substrate} (known_args : known_args)
    (pipeline_args : list string) :
  starts_only (λ e, is_pre_partition e = true)
    (prepartition_files known_args pipeline_args).
Proof.
  unfold prepartition_files. destruct (pre_partition_flag known_args).
  - destruct (input_pattern_list known_args); [|apply starts_only_raise].
    destruct (pre_partition_workdir known_args); [|apply starts_only_raise].
    apply starts_only_bind; [apply starts_only_pre_partition|].
    intros filenames. apply starts_only_ret.
  - apply starts_only_ret.
Qed.

(** One turn of the loop, once its sources are built and the prefix is
    there. *)
Lemma shuffle_partition_run `{Substrate} (known_args : known_args) (i : nat)
    (filename prefix : string) (output_patterns : list string) (w : world) :
  output_pattern_prefix known_args = Some prefix →
  patterns_match w (str_split "," filename) →
  shuffle_partition known_args i (Some filename) output_patterns w
  = (inr (output_patterns ++ [partition_pattern prefix i]),
     set_files
       (WriteToTFRecord (partition_prefix prefix i) ".tfrecord.gz"
          (shuffle_records
             (read_from_tfrecords_files w (str_split "," filename)))
          (files w))
       (start (ShuffleRun i (partition_prefix prefix i)) w)).
Proof.
  intros Hprefix Hmatch. unfold shuffle_partition, mbind, M_bind.
  rewrite build_read_ok by (done || apply str_split_not_nil).
  by rewrite Hprefix.
Qed.

Lemma shuffle_partition_cases `{Substrate} (known_args : known_args) (i : nat)
    (filename : option string) (output_patterns : list string)
    (w w' : world) (r : exn + list string) :
  shuffle_partition known_args i filename output_patterns w = (r, w') →
  (∃ e, r = inl e ∧ w' = w)
  ∨ (∃ prefix name,
       output_pattern_prefix known_args = Some prefix
       ∧ filename = Some name
       ∧ patterns_match w (str_split "," name)
       ∧ r = inr (output_patterns
                  ++ [shard_pattern
                        (ShuffleRun i (prefix +:+ "_partition"
                                       +:+ format_d (Z.of_nat i)))])
       ∧ executed w'
         = executed w
           ++ [ShuffleRun i (prefix +:+ "_partition" +:+ format_d (Z.of_nat i))]
       ∧ dirs w' = dirs w
       ∧ dom (files w) ⊆ dom (files w')).
Proof.
  destruct filename as [name|];
    [|intros [= <- <-]; left; by eexists].
  destruct (build_read_cases (str_split "," name) w)
    as [(Hbuild & Hmatch & _)|(e & Hbuild & _)].
  - destruct (output_pattern_prefix known_args) as [prefix|] eqn:Hprefix.
    + rewrite (shuffle_partition_run known_args i name prefix) by done.
      intros [= <- <-]. right. exists prefix, name.
      repeat (split; [done|]). cbn [files set_files start].
      rewrite WriteToTFRecord_dom. set_solver.
    + unfold shuffle_partition, mbind, M_bind. rewrite Hbuild, Hprefix.
      intros [= <- <-]. left. by eexists.
  - unfold shuffle_partition, mbind, M_bind. rewrite Hbuild.
    intros [= <- <-]. left. by eexists.
Qed.

Lemma shuffle_partitions_log `{Substrate} (known_args : known_args)
    (input_files : list (option string)) :
  ∀ (i : nat) (output_patterns : list string) (w w' : world)
    (r : exn + list string),
    shuffle_partitions known_args i input_files output_patterns w = (r, w') →
    ∃ new,
      executed w' = executed w ++ new
      ∧ Forall (λ e, is_shuffle e = true) new
      ∧ ∀ patterns, r = inr patterns →
                    patterns = output_patterns ++ map shard_pattern new.
Proof.
  induction input_files as [|filename rest IH];
    intros i output_patterns w w' r Hrun; simpl in Hrun.
  - injection Hrun as <- <-. exists []. rewrite !app_nil_r.
    split; [done|]. split; [constructor|]. by intros ? [= <-].
  - apply bind_cases in Hrun as [(e & Hone & ->)|(ps & w1 & Hone & Hrest)].
    + apply shuffle_partition_cases in Hone
        as [(e' & _ & <-)|(? & ? & _ & _ & _ & ? & _)]; [|done].
      exists []. rewrite app_nil_r. split; [done|]. split; [constructor|done].
    + apply shuffle_partition_cases in Hone
        as [(e' & ? & _)|(prefix & name & _ & _ & _ & [= ->] & Hlog & _)];
        [done|].
      apply IH in Hrest as (new & Hlog' & Hnew & Hpatterns).
      eexists (_ :: new). split; [|split].
      * rewrite Hlog', Hlog, <- (assoc (++)). reflexivity.
      * by constructor.
      * intros patterns ->%Hpatterns. by rewrite <- (assoc (++)).
Qed.

(** The merge, once its sources are built. *)
Lemma combine_shuffled_partitions_run `{Substrate} (known_args : known_args)
    (prefix : string) (output_patterns : list string) (w : world) :
  output_pattern_prefix known_args = Some prefix →
  truthy (output_dataset_config_pbtxt known_args)
  && negb (truthy (output_dataset_name known_args)) = false →
  patterns_match w output_patterns → output_patterns ≠ [] →
  let w1 := start (MergeRun prefix (truthy (output_dataset_config_pbtxt known_args)))
              w in
  let output_examples := read_from_tfrecords_files w output_patterns in
  let shards := WriteToTFRecord prefix ".tfrecord.gz" output_examples (files w) in
  combine_shuffled_partitions known_args output_patterns w
  = (inr tt,
     set_files
       (if truthy (output_dataset_config_pbtxt known_args)
        then write_summary_string_to_file output_examples
               (default "None" (input_pattern_list known_args))
               (default "" (output_dataset_name known_args)) prefix
               (default "" (output_dataset_config_pbtxt known_args)) shards
        else shards)
       w1).
Proof.
  intros Hprefix Hcheck Hmatch Hne. simpl.
  unfold combine_shuffled_partitions, mbind, M_bind.
  rewrite build_read_ok, Hprefix by done.
  destruct (truthy (output_dataset_config_pbtxt known_args)); [|done].
  by destruct (truthy (output_dataset_name known_args)).
Qed.

Lemma combine_shuffled_partitions_cases `{Substrate} (known_args : known_args)
    (output_patterns : list string) (w w' : world) (r : exn + unit) :
  combine_shuffled_partitions known_args output_patterns w = (r, w') →
  (∃ e, r = inl e ∧ w' = w)
  ∨ (r = inr tt
     ∧ truthy (output_dataset_config_pbtxt known_args)
       && negb (truthy (output_dataset_name known_args)) = false
     ∧ patterns_match w output_patterns ∧ output_patterns ≠ []
     ∧ ∃ prefix summary,
         output_pattern_prefix known_args = Some prefix
         ∧ executed w' = executed w ++ [MergeRun prefix summary]).
Proof.
  unfold combine_shuffled_partitions, mbind, M_bind.
  destruct (build_read_cases output_patterns w)
    as [(Hbuild & Hmatch & Hne)|(e & Hbuild & _)]; rewrite Hbuild;
    [|intros [= <- <-]; left; by eexists].
  destruct (output_pattern_prefix known_args) as [prefix|];
    [|intros [= <- <-]; left; by eexists].
  destruct (truthy (output_dataset_config_pbtxt known_args)).
  - destruct (truthy (output_dataset_name known_args)); simpl.
    + intros [= <- <-]. right. repeat (split; [done|]). by eexists _, _.
    + intros [= <- <-]. left. by eexists.
  - intros [= <- <-]. right. repeat (split; [done|]). by eexists _, _.
Qed.

(** ** The orchestration *)

Lemma parse_cmdline_cases `{Substrate} (argv : list string)
    (known_args : known_args) (pipeline_args : list string) :
  parse_known_args argv = inr (known_args, pipeline_args) →
  (∃ msg, parse_cmdline argv = inl (AssertionError msg))
  ∨ parse_cmdline argv = inr (known_args, pipeline_args).
Proof.
  intros Hparse. unfold parse_cmdline. rewrite Hparse.
  destruct (pre_partition_flag known_args); [|by right].
  case_bool_decide; [left; by eexists|].
  case_bool_decide; [by right|left; by eexists].
Qed.

(** What [run] has started when it stops. *)
Lemma run_log `{Substrate} (known_args : known_args) (pipeline_args : list string)
    (w w' : world) (r : exn + unit) :
  run known_args pipeline_args w = (r, w') →
  ∃ pre shuffles merge,
    executed w' = executed w ++ pre ++ shuffles ++ merge
    ∧ Forall (λ e, is_pre_partition e = true) pre
    ∧ Forall (λ e, is_shuffle e = true) shuffles
    ∧ Forall (λ e, is_merge e = true) merge
    ∧ (merge ≠ [] →
       truthy (output_dataset_config_pbtxt known_args)
       && negb (truthy (output_dataset_name known_args)) = false)
    ∧ (r = inr tt →
       ∀ e, e ∈ shuffles → glob_glob (shard_pattern e) w' = []).
Proof.
  unfold run. intros Hrun.
  apply bind_cases in Hrun as [(e & Hlevel & _)|([] & w0 & Hlevel & Hrun)];
    [by rewrite setLevel_run in Hlevel|].
  rewrite setLevel_run in Hlevel. injection Hlevel as <-.
  apply bind_cases in Hrun as [(e & Hpre & ->)|(input_files & w1 & Hpre & Hrun)];
    apply starts_only_prepartition_files in Hpre as (pre & Hlog1 & Hpre).
  { exists pre, [], []. rewrite !app_nil_r. by repeat split. }
  apply bind_cases in Hrun as [(e & Hsh & ->)|(patterns & w2 & Hsh & Hrun)];
    apply shuffle_partitions_log in Hsh as (shuffles & Hlog2 & Hshuffles & Hpatterns).
  { exists pre, shuffles, []. rewrite !app_nil_r, Hlog2, Hlog1, <- (assoc (++)).
    by repeat split. }
  specialize (Hpatterns patterns eq_refl). simpl in Hpatterns. subst patterns.
  apply bind_cases in Hrun as [(e & Hmerge & ->)|([] & w3 & Hmerge & Hclean)];
    apply combine_shuffled_partitions_cases in Hmerge
      as [(e' & He' & Hw)
         |(Hok & Hcheck & _ & _ & prefix & summary & _ & Hlog3)]; try done.
  { subst. exists pre, shuffles, []. rewrite !app_nil_r, Hlog2, Hlog1, <- (assoc (++)).
    by repeat split. }
  destruct (only_removes_cleanup _ _ _ _ Hclean) as (Hlog4 & _ & _).
  exists pre, shuffles, [MergeRun prefix summary].
  rewrite Hlog4, Hlog3, Hlog2, Hlog1, <- !(assoc (++)).
  split; [done|]. split; [done|]. split; [done|]. split; [by repeat constructor|].
  split; [done|]. intros -> e He.
  apply (cleanup_leaves_no_match _ _ _ Hclean). by apply list_elem_of_fmap_2.
Qed.

Lemma main_log `{Substrate} (argv : list string) (known_args : known_args)
    (pipeline_args : list string) (w w' : world) (r : exn + unit) :
  parse_known_args argv = inr (known_args, pipeline_args) →
  main argv w = (r, w') →
  (∃ msg, r = inl (AssertionError msg) ∧ w' = w)
  ∨ run known_args pipeline_args w = (r, w').
Proof.
  intros Hparse. unfold main.
  destruct (parse_cmdline_cases argv _ _ Hparse) as [[msg ->]| ->].
  - intros [= <- <-]. left. by exists msg.
  - intros Hrun. by right.
Qed.

Lemma main_inr `{Substrate} (argv : list string) (w w' : world) :
  main argv w = (inr tt, w') →
  ∃ known_args pipeline_args, run known_args pipeline_args w = (inr tt, w').
Proof.
  unfold main. intros ([known_args pipeline_args] & w0 & Hparse & Hrun)%bind_inr.
  unfold lift in Hparse. injection Hparse as _ <-. by eexists _, _.
Qed.

(** ** Reading what was written *)

Lemma beam_glob_nil_iff `{Substrate} (pattern : string) (w : world) :
  beam_glob pattern w = [] ↔
  ∀ p, p ∈ dom (files w) → beam_match pattern p = false.
Proof.
  split.
  - intros Hnil p [f Hf]%elem_of_dom. by eapply beam_glob_nil.
  - intros Hnone. destruct (decide (beam_glob pattern w = [])) as [|Hsome];
      [done|].
    apply beam_glob_not_nil in Hsome as (p & Hp & Hmatch).
    rewrite (Hnone p Hp) in Hmatch. done.
Qed.

(** What a source reads depends on the files that its pattern finds
    and on nothing else. *)
Lemma records_for_filter `{Substrate} (pattern : string) (m : gmap string file) :
  flat_map (records_for pattern) (map_to_list m)
  ≡ₚ flat_map (records_for pattern)
       (map_to_list (filter (λ kv, beam_match pattern kv.1 = true) m)).
Proof.
  induction m as [|k f m Hk IH] using map_ind.
  - by rewrite map_filter_empty.
  - rewrite (flat_map_Permutation _ _ _ (map_to_list_insert m k f Hk)). simpl.
    destruct (beam_match pattern k) eqn:Hmatch.
    + rewrite map_filter_insert_True by done.
      rewrite (flat_map_Permutation _ _ _
                 (map_to_list_insert (filter _ m) k f
                    (map_lookup_filter_None_2 _ _ _ (or_introl Hk)))).
      simpl. by rewrite IH.
    + rewrite map_filter_insert_not' by (simpl; congruence || by rewrite Hk).
      rewrite <- IH. unfold records_for at 1. simpl. rewrite Hmatch.
      by destruct f.
Qed.

Lemma ReadFromTFRecord_frame `{Substrate} (pattern : string) (w w' : world) :
  (∀ name, beam_match pattern name = true → files w' !! name = files w !! name) →
  ReadFromTFRecord w' pattern ≡ₚ ReadFromTFRecord w pattern.
Proof.
  intros Hframe. rewrite !ReadFromTFRecord_records_for.
  rewrite (records_for_filter pattern (files w')),
    (records_for_filter pattern (files w)).
  assert (filter (λ kv, beam_match pattern kv.1 = true) (files w')
          = filter (λ kv, beam_match pattern kv.1 = true) (files w)) as ->; [|done].
  apply map_filter_strong_ext. intros k f. simpl.
  split; intros [Hmatch Hf]; (split; [done|]);
    [rewrite <- Hframe|rewrite Hframe]; done.
Qed.

Lemma concat_Permutation_pointwise {A} (l1 l2 : list (list A)) :
  Forall2 (≡ₚ) l1 l2 → concat l1 ≡ₚ concat l2.
Proof.
  induction 1 as [|x y l1 l2 Hxy _ IH]; simpl; [done|]. by rewrite Hxy, IH.
Qed.

Lemma read_from_tfrecords_files_frame `{Substrate} (patterns : list string)
    (w w' : world) :
  (∀ pattern name, pattern ∈ patterns → beam_match pattern name = true →
                   files w' !! name = files w !! name) →
  read_from_tfrecords_files w' patterns ≡ₚ read_from_tfrecords_files w patterns.
Proof.
  intros Hframe. unfold read_from_tfrecords_files, Flatten.
  apply concat_Permutation_pointwise.
  induction patterns as [|pattern rest IH]; simpl; [constructor|].
  constructor.
  - apply ReadFromTFRecord_frame. intros name. apply Hframe. left.
  - apply IH. intros p name Hp. apply Hframe. by right.
Qed.

Lemma read_one_pattern `{Substrate} (w : world) (pattern : string) :
  read_from_tfrecords_files w [pattern] = ReadFromTFRecord w pattern.
Proof.
  unfold read_from_tfrecords_files, Flatten. simpl. by rewrite app_nil_r.
Qed.

(** The source of a pattern that matches the shards just written can
    be built, when the sink has written a shard at least. *)
Lemma written_shards_found `{Substrate} (prefix suffix pattern : string)
    (pcoll : list bytes) (w : world) :
  split_shards pcoll ≠ [] →
  Forall (λ name, beam_match pattern name = true)
         (shard_names prefix suffix pcoll) →
  dom (WriteToTFRecord prefix suffix pcoll ∅) ⊆ dom (files w) →
  beam_glob pattern w ≠ [].
Proof.
  intros Hne Hnames Hdom. apply beam_glob_not_nil.
  destruct (split_shards pcoll) as [|shard shards] eqn:Hshards; [done|].
  exists (shard_name prefix 0 (length (split_shards pcoll)) suffix).
  assert (shard_name prefix 0 (length (split_shards pcoll)) suffix
          ∈ shard_names prefix suffix pcoll) as Hin.
  { apply elem_of_shard_names. exists 0%nat. split; [|done].
    rewrite Hshards. simpl. lia. }
  split.
  - apply Hdom. rewrite WriteToTFRecord_dom. apply elem_of_union. right.
    by apply elem_of_list_to_set.
  - rewrite Forall_forall in Hnames. by apply Hnames.
Qed.

(** ** After the run *)

(** C6, as the code has it: after a successful run, with or without
    pre-partitioning, the shards of the per-partition shuffles are gone:
    a shard of a shuffle that ran, under the name its sink gave it, is
    no file any more when [glob.glob] finds it with the pattern of its
    partition. Nothing is said of the partition files in the working
    directory: no code removes them. *)
Theorem cleanup_removes_shuffled_shards `{Substrate} (argv : list string)
    (w w' : world) :
  main argv w = (inr tt, w') →
  ∃ new,
    executed w' = executed w ++ new
    ∧ ∀ i prefix shard total,
        ShuffleRun i prefix ∈ new →
        glob_match (prefix +:+ "-?????-of-?????.tfrecord.gz")
                   (shard_name prefix shard total ".tfrecord.gz") = true →
        files w' !! shard_name prefix shard total ".tfrecord.gz" = None.
Proof.
  intros (known_args & pipeline_args & Hrun)%main_inr.
  apply run_log in Hrun
    as (pre & shuffles & merge & Hlog & Hpre & Hshuffles & Hmerge & _ & Hgone).
  exists (pre ++ shuffles ++ merge). split; [done|].
  intros i prefix shard total [Hin|[Hin|Hin]%elem_of_app]%elem_of_app Hmatch.
  - rewrite Forall_forall in Hpre. by apply Hpre in Hin.
  - apply (Hgone eq_refl) in Hin. by eapply glob_glob_nil_file.
  - rewrite Forall_forall in Hmerge. by apply Hmerge in Hin.
Qed.

Lemma cleanup_removes_shuffled_shards_witness :
  let argv := ["--input_pattern_list=/in/x.tfrecord.gz";
               "--output_pattern_prefix=/out/shuf"] in
  let w' := snd (main (H:=Reference.substrate) argv Reference.one_input) in
  executed w' = [ShuffleRun 0 "/out/shuf_partition0"; MergeRun "/out/shuf" false]
  ∧ files w' !! "/out/shuf_partition0-00000-of-00001.tfrecord.gz" = None.
Proof.
  intros argv w'. split; [vm_compute; reflexivity|].
  destruct (cleanup_removes_shuffled_shards (H:=Reference.substrate) argv
              Reference.one_input w') as (new & Hlog & Hgone);
    [vm_compute; reflexivity|].
  apply (Hgone 0%nat "/out/shuf_partition0" 0%nat 1%nat); [|reflexivity].
  assert (executed w'
          = [ShuffleRun 0 "/out/shuf_partition0"; MergeRun "/out/shuf" false])
    as Hrun by (vm_compute; reflexivity).
  rewrite Hrun in Hlog. simpl in Hlog. subst new. left.
Defined.

(** The shard that the run above removes was written by its shuffle:
    it is there when the merge starts. *)
Example shuffled_shard_before_cleanup :
  let ka := KnownArgs (Some "/in/x.tfrecord.gz") (Some "/out/shuf") None None 1
              false None false in
  files (snd (shuffle_partitions (H:=Reference.substrate) ka 0
                [Some "/in/x.tfrecord.gz"] [] Reference.one_input))
  !! "/out/shuf_partition0-00000-of-00001.tfrecord.gz"
  = Some (TFRecordFile [["a"%byte]; ["b"%byte]]).
Proof. vm_compute. reflexivity. Qed.

(** The part of C6 that fails: after a successful run with three
    buckets, the partition files are still in the working directory. *)
Lemma partition_files_left_by_cleanup :
  let argv := ["--input_pattern_list=/in/x.tfrecord.gz";
               "--output_pattern_prefix=/out/shuf"; "--pre_partition";
               "--pre_partition_workdir=/work"; "--num_buckets=3"] in
  let r := main (H:=Reference.substrate) argv Reference.one_input in
  r.1 = inr tt
  ∧ files r.2 !! "/work/partition0000-00000-of-00001.tfrecord.gz"
    = Some (TFRecordFile [])
  ∧ files r.2 !! "/work/partition0001-00000-of-00001.tfrecord.gz"
    = Some (TFRecordFile [["a"%byte]])
  ∧ files r.2 !! "/work/partition0002-00000-of-00001.tfrecord.gz"
    = Some (TFRecordFile [["b"%byte]])
  ∧ glob_glob (H:=Reference.substrate)
      "/work/partition????-00000-of-00001.tfrecord.gz" r.2 ≠ [].
Proof. vm_compute. repeat split; discriminate. Qed.

(** ** A manifest without a dataset name *)




(** Where the input is not there, or the working directory is, the run
    with a manifest and no dataset name stops before any execution, for
    another reason than the missing name. *)
Example missing_dataset_name_other_errors :
  fst (main (H:=Reference.substrate)
         ["--input_pattern_list=/in/nothing";
          "--output_pattern_prefix=/out/shuf";
          "--output_dataset_config_pbtxt=/out/cfg"] Reference.one_input)
  = inl (OSError "/in/nothing")
  ∧ main (H:=Reference.substrate)
      ["--input_pattern_list=/in/x.tfrecord.gz";
       "--output_pattern_prefix=/out/shuf";
       "--output_dataset_config_pbtxt=/out/cfg"; "--pre_partition";
       "--pre_partition_workdir=/in"; "--num_buckets=2"] Reference.one_input
    = (inl (ValueError "Provide a clean working directory path directory"),
       World (files Reference.one_input) (dirs Reference.one_input) []
         logging_INFO (log_output Reference.one_input)).
Proof. split; vm_compute; reflexivity. Qed.

(** ** The merge *)

Lemma partition_shard_names `{Substrate} (prefix : string) (k : nat)
    (pcoll : list bytes) (name : string) :
  name ∈ shard_names (partition_prefix prefix k) ".tfrecord.gz" pcoll →
  partition_shard prefix k name.
Proof.
  intros (j & Hj & ->)%elem_of_shard_names. by exists pcoll, j.
Qed.

Section Stage.
Context `{Substrate}.
Variable known_args : known_args.
Variable prefix : string.
Variable n : nat.
Hypothesis Hprefix : output_pattern_prefix known_args = Some prefix.
Hypothesis Hgbk : GroupByKey_spec GroupByKey.
Hypothesis Hsplit : ∀ l, concat (split_shards l) ≡ₚ l.
Hypothesis Hshard : ∀ l, split_shards l ≠ [].
Hypothesis Happart : shards_told_apart prefix n.

(** The loop over the partitions, from turn [i] on: every turn leaves
    the shards of its partition, which hold what the turn read, and the
    later turns leave them as they are. *)
Lemma shuffle_partitions_stage (filenames : list string) :
  ∀ (i : nat) (output_patterns : list string) (w : world),
    (i + length filenames ≤ n)%nat →
    Forall (λ filename, patterns_match w (str_split "," filename)) filenames →
    inputs_apart prefix n filenames →
    (∀ a, (i ≤ a < n)%nat → beam_glob (partition_pattern prefix a) w = []) →
    ∃ w1,
      shuffle_partitions known_args i (map Some filenames) output_patterns w
      = (inr (output_patterns
              ++ map (partition_pattern prefix) (seq i (length filenames))), w1)
      ∧ (∀ k filename,
           filenames !! k = Some filename →
           ReadFromTFRecord w1 (partition_pattern prefix (i + k))
           ≡ₚ read_from_tfrecords_files w (str_split "," filename))
      ∧ (∀ name,
           (∀ b, (i ≤ b < i + length filenames)%nat →
                 ¬ partition_shard prefix b name) →
           files w1 !! name = files w !! name)
      ∧ dom (files w) ⊆ dom (files w1)
      ∧ (∀ k, (k < length filenames)%nat →
              beam_glob (partition_pattern prefix (i + k)) w1 ≠ []).
Proof.
  induction filenames as [|filename rest IH];
    intros i output_patterns w Hn Hfound Hinputs Hstale.
  - exists w. simpl. rewrite app_nil_r. split; [done|].
    split; [by intros k filename ?|]. split; [done|]. split; [done|].
    intros k Hk. simpl in Hk. lia.
  - simpl in Hn. apply Forall_cons in Hfound as [Hfound Hfound_rest].
    set (input := read_from_tfrecords_files w (str_split "," filename)).
    set (output := shuffle_records input).
    set (w' := set_files
                 (WriteToTFRecord (partition_prefix prefix i) ".tfrecord.gz"
                    output (files w))
                 (start (ShuffleRun i (partition_prefix prefix i)) w)).
    assert (∀ name, ¬ partition_shard prefix i name →
                    files w' !! name = files w !! name) as Hframe'.
    { intros name Hname. subst w'. cbn [files set_files start].
      apply WriteToTFRecord_lookup_other. intros Hin. apply Hname.
      by eapply partition_shard_names. }
    assert (dom (files w) ⊆ dom (files w')) as Hdom'.
    { subst w'. cbn [files set_files start]. rewrite WriteToTFRecord_dom.
      set_solver. }
    assert (Forall (λ name, beam_match (partition_pattern prefix i) name = true)
                   (shard_names (partition_prefix prefix i) ".tfrecord.gz" output))
      as Hnames.
    { apply Forall_forall. intros name Hname%partition_shard_names.
      rewrite (Happart i i name) by (done || lia).
      by apply bool_decide_eq_true_2. }
    assert (ReadFromTFRecord w' (partition_pattern prefix i) ≡ₚ input) as Hread'.
    { rewrite (write_then_read (partition_prefix prefix i) ".tfrecord.gz"
                 (partition_pattern prefix i) output w w');
        [|done|apply Hstale; lia|done].
      rewrite Hsplit. by apply shuffle_records_Permutation. }
    destruct (IH (S i) (output_patterns ++ [partition_pattern prefix i]) w')
      as (w1 & Hrun & Hread & Hframe & Hdom & Hglob).
    { lia. }
    { eapply Forall_impl; [exact Hfound_rest|]. intros f.
      by apply patterns_match_mono. }
    { intros f pattern k name Hf. apply Hinputs. by right. }
    { intros a Ha. apply beam_glob_nil_iff. intros p Hp.
      destruct (beam_match (partition_pattern prefix a) p) eqn:Hmatch; [|done].
      subst w'. cbn [files set_files start] in Hp.
      rewrite WriteToTFRecord_dom in Hp. apply elem_of_union in Hp as [Hp|Hp].
      - pose proof (proj1 (beam_glob_nil_iff _ _) (Hstale a ltac:(lia)) p Hp).
        congruence.
      - apply elem_of_list_to_set, partition_shard_names in Hp.
        rewrite (Happart a i p) in Hmatch by (done || lia).
        apply bool_decide_eq_true in Hmatch. lia. }
    exists w1. split; [|split; [|split; [|split]]].
    + cbn [map length seq shuffle_partitions]. unfold mbind, M_bind.
      rewrite (shuffle_partition_run known_args i filename prefix) by done.
      change (set_files _ _) with w'. rewrite Hrun.
      by rewrite <- (assoc (++)).
    + intros [|k] f Hf; simpl in Hf.
      * injection Hf as <-. rewrite Nat.add_0_r.
        transitivity (ReadFromTFRecord w' (partition_pattern prefix i));
          [|exact Hread'].
        apply ReadFromTFRecord_frame. intros name Hmatch. apply Hframe.
        intros b Hb Hname.
        rewrite (Happart i b name) in Hmatch by (done || lia).
        apply bool_decide_eq_true in Hmatch. lia.
      * replace (i + S k)%nat with (S i + k)%nat by lia.
        rewrite (Hread k f Hf).
        apply read_from_tfrecords_files_frame. intros pattern name Hp Hmatch.
        apply Hframe'. intros Hname.
        rewrite (Hinputs f pattern i name) in Hmatch; [done| |done|lia|done].
        right. by eapply list_elem_of_lookup_2.
    + intros name Hname. rewrite Hframe, Hframe'; [done|..].
      * apply Hname. simpl. lia.
      * intros b Hb. apply Hname. simpl. lia.
    + set_solver.
    + intros [|k] Hk.
      * rewrite Nat.add_0_r.
        apply (written_shards_found (partition_prefix prefix i) ".tfrecord.gz"
                 (partition_pattern prefix i) output w1); [done..|].
        etrans; [|exact Hdom]. subst w'. cbn [files set_files start].
        rewrite !WriteToTFRecord_dom. set_solver.
      * replace (i + S k)%nat with (S i + k)%nat by lia. apply Hglob.
        simpl in Hk. lia.
Qed.
End Stage.

Lemma Forall2_read_back `{Substrate} (prefix : string) (w w1 : world)
    (filenames : list string) :
  ∀ i,
    (∀ k filename,
       filenames !! k = Some filename →
       ReadFromTFRecord w1 (partition_pattern prefix (i + k))
       ≡ₚ read_from_tfrecords_files w (str_split "," filename)) →
    Forall2 (≡ₚ)
      (map (ReadFromTFRecord w1)
           (map (partition_pattern prefix) (seq i (length filenames))))
      (map (λ filename, read_from_tfrecords_files w (str_split "," filename))
           filenames).
Proof.
  induction filenames as [|filename rest IH]; intros i Hread; simpl;
    constructor.
  - rewrite <- (Nat.add_0_r i). by apply Hread.
  - apply IH. intros k f Hf.
    replace (S i + k)%nat with (i + S k)%nat by lia. by apply Hread.
Qed.

(** The merge does not consult the grouping of the runner or a digest:
    it is the same on every substrate that finds the same files and
    splits into the same shards. *)
Lemma combine_shuffled_partitions_substrate (H1 H2 : Substrate)
    (known_args : known_args) (output_patterns : list string) (w : world) :
  @beam_match H1 = @beam_match H2 → @split_shards H1 = @split_shards H2 →
  combine_shuffled_partitions (H:=H1) known_args output_patterns w
  = combine_shuffled_partitions (H:=H2) known_args output_patterns w.
Proof.
  intros Hbeam Hshards.
  assert (validate_patterns (H:=H1) w output_patterns
          = validate_patterns (H:=H2) w output_patterns) as Hvalid.
  { induction output_patterns as [|pattern rest IH]; simpl; [done|].
    unfold beam_glob. rewrite Hbeam, IH. done. }
  unfold combine_shuffled_partitions, mbind, M_bind,
    build_read_from_tfrecords_files.
  rewrite Hvalid.
  unfold read_from_tfrecords_files, ReadFromTFRecord, WriteToTFRecord.
  by rewrite Hbeam, Hshards.
Qed.




(** ** The bucket count without pre-partitioning *)

Lemma shuffle_partitions_with_num_buckets `{Substrate} (n : Z)
    (known_args : known_args) (input_files : list (option string)) :
  ∀ i output_patterns w,
    shuffle_partitions (with_num_buckets n known_args) i input_files
      output_patterns w
    = shuffle_partitions known_args i input_files output_patterns w.
Proof.
  induction input_files as [|filename rest IH]; intros i output_patterns w;
    simpl; [done|].
  unfold mbind, M_bind.
  change (shuffle_partition (with_num_buckets n known_args) i filename
            output_patterns w)
    with (shuffle_partition known_args i filename output_patterns w).
  destruct (shuffle_partition known_args i filename output_patterns w)
    as [[e|patterns] w1]; [done|]. apply IH.
Qed.

Lemma run_with_num_buckets `{Substrate} (n : Z) (known_args : known_args)
    (pipeline_args : list string) (w : world) :
  pre_partition_flag known_args = false →
  run (with_num_buckets n known_args) pipeline_args w
  = run known_args pipeline_args w.
Proof.
  intros Hflag. unfold run, prepartition_files.
  change (pre_partition_flag (with_num_buckets n known_args))
    with (pre_partition_flag known_args).
  rewrite Hflag. unfold mbind, M_bind. rewrite !setLevel_run.
  cbn [mret M_ret]. rewrite shuffle_partitions_with_num_buckets.
  reflexivity.
Qed.

(** C10: without [--pre_partition], two command lines that differ only in
    [--num_buckets] make [main] do the same: the same outcome, the same
    files, the same executions, the same log. *)
Theorem num_buckets_ignored_without_pre_partition `{Substrate}
    (argv1 argv2 : list string) (known_args : known_args)
    (pipeline_args : list string) (n2 : Z) (w : world) :
  parse_known_args argv1 = inr (known_args, pipeline_args) →
  parse_known_args argv2 = inr (with_num_buckets n2 known_args, pipeline_args) →
  pre_partition_flag known_args = false →
  main argv1 w = main argv2 w.
Proof.
  intros Hparse1 Hparse2 Hflag. unfold main, parse_cmdline.
  rewrite Hparse1, Hparse2. simpl. rewrite Hflag.
  unfold mbind, M_bind, lift. simpl.
  by rewrite run_with_num_buckets.
Qed.

Lemma num_buckets_ignored_without_pre_partition_witness :
  main (H:=Reference.substrate)
    ["--input_pattern_list=/in/x.tfrecord.gz";
     "--output_pattern_prefix=/out/shuf"; "--num_buckets=5"] Reference.one_input
  = main (H:=Reference.substrate)
      ["--input_pattern_list=/in/x.tfrecord.gz";
       "--output_pattern_prefix=/out/shuf"; "--num_buckets=-7"]
      Reference.one_input.
Proof.
  apply (num_buckets_ignored_without_pre_partition (H:=Reference.substrate)
           ["--input_pattern_list=/in/x.tfrecord.gz";
            "--output_pattern_prefix=/out/shuf"; "--num_buckets=5"]
           ["--input_pattern_list=/in/x.tfrecord.gz";
            "--output_pattern_prefix=/out/shuf"; "--num_buckets=-7"]
           (KnownArgs (Some "/in/x.tfrecord.gz") (Some "/out/shuf") None None 5
              false None false) [] (-7) Reference.one_input).
  - reflexivity.
  - reflexivity.
  - reflexivity.
Defined.

(** * Further properties of the code *)

(** ** The address of a record *)

Lemma byte_value_range (b : byte) : 0 ≤ byte_value b < 256.
Proof.
  unfold byte_value. pose proof (Byte.to_N_bounded b). lia.
Qed.

Lemma byte_value_inj (b1 b2 : byte) : byte_value b1 = byte_value b2 → b1 = b2.
Proof.
  unfold byte_value. intros Heq%(inj Z.of_N).
  pose proof (Byte.of_to_N b1) as H1. rewrite Heq, Byte.of_to_N in H1.
  by injection H1.
Qed.

Lemma little_endian_uint_range (digest : bytes) :
  0 ≤ little_endian_uint digest < 2 ^ (8 * Z.of_nat (length digest)).
Proof.
  induction digest as [|b rest IH]; simpl length; simpl little_endian_uint.
  - simpl. lia.
  - pose proof (byte_value_range b).
    replace (8 * Z.of_nat (S (length rest)))
      with (8 + 8 * Z.of_nat (length rest)) by lia.
    rewrite Z.pow_add_r by lia. change (2 ^ 8) with 256. nia.
Qed.

Lemma little_endian_uint_inj (d1 d2 : bytes) :
  length d1 = length d2 →
  little_endian_uint d1 = little_endian_uint d2 → d1 = d2.
Proof.
  revert d2. induction d1 as [|b1 r1 IH]; intros [|b2 r2] Hlen Heq;
    simpl in *; try done.
  pose proof (byte_value_range b1). pose proof (byte_value_range b2).
  assert (byte_value b1 = byte_value b2) as Hb by lia.
  f_equal; [by apply byte_value_inj|]. apply IH; lia.
Qed.

(** The loop of [determine_hash] loses nothing of the digest: two
    digests of one length that give the same address are equal, so two
    records have the same address only when their digests collide. *)
Theorem determine_hash_loop_inj (d1 d2 : bytes) :
  length d1 = length d2 →
  determine_hash_loop 0 0 d1 = determine_hash_loop 0 0 d2 → d1 = d2.
Proof.
  intros Hlen. rewrite !determine_hash_loop_little_endian by lia.
  intros Heq. apply little_endian_uint_inj; [done|]. simpl in Heq. lia.
Qed.

Lemma determine_hash_loop_inj_witness :
  length ["a"%byte; "b"%byte] = length ["a"%byte; "b"%byte]
  ∧ determine_hash_loop 0 0 ["a"%byte; "b"%byte] = 25185
  ∧ ["a"%byte; "b"%byte] = ["a"%byte; "b"%byte].
Proof.
  split; [reflexivity|]. split; [reflexivity|].
  apply (determine_hash_loop_inj ["a"%byte; "b"%byte] ["a"%byte; "b"%byte]);
    reflexivity.
Defined.

(** With a digest of four bytes the address is below 2^32, so a bucket
    count of 2^32 or more leaves the address as it is: the buckets from
    2^32 on stay empty. *)
Theorem determine_hash_range `{Substrate} (example : bytes) (n : Z) :
  length (blake2b_digest example 4) = 4%nat →
  0 ≤ determine_hash example < 2 ^ 32
  ∧ (2 ^ 32 ≤ n → partition example n = inr (determine_hash example)).
Proof.
  intros Hlen. rewrite determine_hash_little_endian.
  pose proof (little_endian_uint_range (blake2b_digest example 4)) as Hrange.
  rewrite Hlen in Hrange. change (8 * Z.of_nat 4) with 32 in Hrange.
  split; [done|]. intros Hn. unfold partition.
  destruct (decide (n = 0)) as [->|_]; [lia|].
  rewrite determine_hash_little_endian. f_equal. apply Z.mod_small. lia.
Qed.

Lemma determine_hash_range_witness :
  length (blake2b_digest (Substrate:=Reference.substrate) ["a"%byte] 4) = 4%nat
  ∧ 0 ≤ determine_hash (H:=Reference.substrate) ["a"%byte] < 2 ^ 32
  ∧ (2 ^ 32 ≤ 2 ^ 40 →
     partition (H:=Reference.substrate) ["a"%byte] (2 ^ 40)
     = inr (determine_hash (H:=Reference.substrate) ["a"%byte])).
Proof.
  split; [reflexivity|].
  apply (determine_hash_range (H:=Reference.substrate) ["a"%byte] (2 ^ 40)).
  reflexivity.
Defined.

Lemma partition_negative_buckets `{Substrate} (example : bytes) (n : Z) :
  n < 0 →
  ∃ bucket, partition example n = inr bucket ∧ n < bucket ≤ 0.
Proof.
  intros Hn. exists (determine_hash example mod n). unfold partition.
  destruct (decide (n = 0)) as [->|_]; [lia|].
  pose proof (Z.mod_neg_bound (determine_hash example) n Hn). by split.
Qed.

(** ** Splitting the input into buckets *)

Lemma apply_partition_fn_buckets `{Substrate} (n : Z) (pcoll : list bytes) :
  1 ≤ n →
  apply_partition_fn n pcoll
  = inr (map (λ x, (determine_hash x mod n, x)) pcoll).
Proof.
  intros Hn. induction pcoll as [|x rest IH]; simpl; [done|].
  unfold partition. destruct (decide (n = 0)) as [->|_]; [lia|].
  pose proof (Z.mod_pos_bound (determine_hash x) n ltac:(lia)).
  rewrite bool_decide_eq_true_2 by lia. by rewrite IH.
Qed.

Lemma concat_map_app {A B} (F G : A → list B) (l : list A) :
  concat (map (λ i, F i ++ G i) l) ≡ₚ concat (map F l) ++ concat (map G l).
Proof.
  induction l as [|i l IH]; simpl; [done|].
  rewrite IH, <- !(assoc (++)). f_equiv.
  rewrite !(assoc (++)). f_equiv. apply Permutation_app_comm.
Qed.

Lemma concat_map_miss {B} (b : Z) (x : B) (l : list nat) :
  (∀ i, i ∈ l → b ≠ Z.of_nat i) →
  concat (map (λ i, if decide (b = Z.of_nat i) then [x] else []) l) = [].
Proof.
  induction l as [|i l IH]; intros Hmiss; simpl; [done|].
  rewrite decide_False by (apply Hmiss; left). simpl.
  apply IH. intros j Hj. apply Hmiss. by right.
Qed.

Lemma concat_map_one_hit {B} (b : Z) (x : B) (l : list nat) :
  NoDup l → 0 ≤ b → Z.to_nat b ∈ l →
  concat (map (λ i, if decide (b = Z.of_nat i) then [x] else []) l) = [x].
Proof.
  induction 1 as [|i l Hi Hnd IH]; intros Hb Hin; simpl.
  - by apply elem_of_nil in Hin.
  - destruct (decide (b = Z.of_nat i)) as [->|Hne]; simpl.
    + f_equal. apply concat_map_miss. intros j Hj Heq.
      apply Hi. by replace i with j by lia.
    + apply IH; [done|]. apply elem_of_cons in Hin as [Heq|Hin]; [lia|done].
Qed.

Lemma buckets_Permutation {B} (n : nat) (tagged : list (Z * B)) :
  Forall (λ bx, 0 ≤ fst bx < Z.of_nat n) tagged →
  concat (map (λ i, map snd (filter (λ bx, fst bx = Z.of_nat i) tagged))
              (seq 0 n))
  ≡ₚ map snd tagged.
Proof.
  induction 1 as [|[b x] tagged Hb Htagged IH]; simpl.
  - induction (seq 0 n) as [|i l IHl]; simpl; [done|]. exact IHl.
  - rewrite <- IH.
    transitivity
      (concat (map (λ i, (if decide (b = Z.of_nat i) then [x] else [])
                         ++ map snd (filter (λ bx, fst bx = Z.of_nat i) tagged))
                   (seq 0 n))).
    + apply reflexive_eq. f_equal. apply map_ext. intros i.
      rewrite filter_cons. simpl. by destruct (decide (b = Z.of_nat i)).
    + simpl in Hb. rewrite concat_map_app, concat_map_one_hit; [done|..].
      * apply NoDup_seq.
      * lia.
      * apply elem_of_seq. lia.
Qed.

Lemma Partition_buckets `{Substrate} (n : Z) (pcoll : list bytes) :
  1 ≤ n →
  ∃ partitions,
    Partition n pcoll = inr partitions
    ∧ length partitions = Z.to_nat n
    ∧ concat partitions ≡ₚ pcoll
    ∧ ∀ (i : nat) p x,
        partitions !! i = Some p → x ∈ p → partition x n = inr (Z.of_nat i).
Proof.
  intros Hn. unfold Partition. rewrite apply_partition_fn_buckets by done.
  eexists. split; [reflexivity|]. split; [|split].
  - by rewrite length_map, length_seq.
  - replace (Z.of_nat) with (λ i, Z.of_nat i) by done.
    rewrite (buckets_Permutation (Z.to_nat n)).
    + rewrite map_map. simpl. by rewrite map_id.
    + apply Forall_forall. intros bx (x & -> & _)%list_elem_of_fmap. simpl.
      pose proof (Z.mod_pos_bound (determine_hash x) n ltac:(lia)). lia.
  - intros i p x Hp Hx.
    apply list_lookup_fmap_Some in Hp as (j & -> & Hj).
    apply lookup_seq in Hj as [-> _]. simpl in Hx.
    apply list_elem_of_fmap in Hx as ([b y] & -> & Hin).
    apply list_elem_of_filter in Hin as [Hb Hin]. simpl in Hb. subst b.
    apply list_elem_of_fmap in Hin as (z & [= Hz ->] & _). simpl.
    unfold partition. destruct (decide (n = 0)); [lia|]. by rewrite Hz.
Qed.

(** [beam.Partition(partition, num_buckets)] with one bucket or more
    never fails: it gives num_buckets partitions, every record is in the
    partition whose index is its bucket, and the partitions together hold
    the input, record for record. *)
Theorem Partition_complete_disjoint `{Substrate} (n : Z) (pcoll : list bytes) :
  1 ≤ n →
  ∃ partitions,
    Partition n pcoll = inr partitions
    ∧ length partitions = Z.to_nat n
    ∧ concat partitions ≡ₚ pcoll
    ∧ ∀ (i : nat) p x,
        partitions !! i = Some p → x ∈ p → partition x n = inr (Z.of_nat i).
Proof. apply Partition_buckets. Qed.

Lemma Partition_complete_disjoint_witness :
  1 ≤ 3
  ∧ ∃ partitions,
      Partition (H:=Reference.substrate) 3 [["b"%byte]; ["a"%byte]; ["b"%byte]]
      = inr partitions
      ∧ length partitions = Z.to_nat 3
      ∧ concat partitions ≡ₚ [["b"%byte]; ["a"%byte]; ["b"%byte]]
      ∧ ∀ (i : nat) p x,
          partitions !! i = Some p → x ∈ p →
          partition (H:=Reference.substrate) x 3 = inr (Z.of_nat i).
Proof.
  split; [lia|].
  apply (Partition_complete_disjoint (H:=Reference.substrate) 3). lia.
Defined.

Lemma Partition_nonpositive `{Substrate} (n : Z) (pcoll : list bytes) :
  n ≤ 0 →
  Partition n [] = inr []
  ∧ (pcoll ≠ [] →
     Partition n pcoll
     = inl (if decide (n = 0) then ZeroDivisionError
            else ValueError "PartitionFn specified out-of-bounds partition index")).
Proof.
  intros Hn. split.
  - unfold Partition. simpl. by replace (Z.to_nat n) with 0%nat by lia.
  - destruct pcoll as [|x rest]; [done|]. intros _. unfold Partition. simpl.
    destruct (decide (n = 0)) as [->|Hne].
    + unfold partition. by rewrite decide_True.
    + destruct (partition_negative_buckets x n ltac:(lia)) as (b & -> & Hb).
      by rewrite bool_decide_eq_false_2 by lia.
Qed.

(** With a bucket count of zero or less, [beam.Partition(partition,
    num_buckets)] gives no partition for an empty input and fails on the
    first record otherwise: with [ZeroDivisionError] for zero, on the
    bounds check of the partition index below zero. *)
Theorem Partition_without_buckets `{Substrate} (n : Z) (pcoll : list bytes) :
  n ≤ 0 →
  Partition n [] = inr []
  ∧ (pcoll ≠ [] →
     Partition n pcoll
     = inl (if decide (n = 0) then ZeroDivisionError
            else ValueError "PartitionFn specified out-of-bounds partition index")).
Proof. apply Partition_nonpositive. Qed.

Lemma Partition_without_buckets_witness :
  -2 ≤ 0
  ∧ Partition (H:=Reference.substrate) (-2) [] = inr []
  ∧ Partition (H:=Reference.substrate) (-2) [["a"%byte]]
    = inl (ValueError "PartitionFn specified out-of-bounds partition index").
Proof.
  split; [lia|].
  destruct (Partition_without_buckets (H:=Reference.substrate) (-2) [["a"%byte]])
    as [Hnil Hcons]; [lia|].
  split; [exact Hnil|]. by apply Hcons.
Defined.

(** ** What cleanup touches *)

Lemma os_remove_other (q : string) (w w' : world) (r : exn + unit) :
  os_remove q w = (r, w') → ∀ p, p ≠ q → files w' !! p = files w !! p.
Proof.
  unfold os_remove. destruct (os_path_isdir q w); [by intros [= _ <-]|].
  destruct (files w !! q); intros [= _ <-]; [|done].
  intros p Hp. simpl. by rewrite lookup_delete_ne.
Qed.

Lemma remove_each_other (partials : list string) (w w' : world) (r : exn + unit) :
  remove_each partials w = (r, w') →
  ∀ p, p ∉ partials → files w' !! p = files w !! p.
Proof.
  revert w. induction partials as [|q partials IH]; intros w Hrun p Hp;
    simpl in Hrun.
  - by injection Hrun as _ <-.
  - apply not_elem_of_cons in Hp as [Hne Hp].
    apply bind_cases in Hrun as [(e & Hq & _)|([] & w1 & Hq & Hrest)].
    + by eapply os_remove_other.
    + rewrite (IH _ Hrest p Hp). by eapply os_remove_other.
Qed.

Lemma cleanup_other `{Substrate} (output_patterns : list string) :
  ∀ (w w' : world) (r : exn + unit),
    cleanup output_patterns w = (r, w') →
    ∀ p, (∀ pattern, pattern ∈ output_patterns → glob_match pattern p = false) →
         files w' !! p = files w !! p.
Proof.
  induction output_patterns as [|q rest IH]; intros w w' r Hrun p Hp;
    simpl in Hrun.
  - by injection Hrun as _ <-.
  - apply bind_cases in Hrun as [(e & Hglob & _)|(partials & w0 & Hglob & Hrun)];
      [done|]. injection Hglob as <- <-.
    assert (p ∉ glob_glob q w) as Hnot.
    { unfold glob_glob. rewrite list_elem_of_filter. intros [Hmatch _].
      rewrite Hp in Hmatch by left. done. }
    apply bind_cases in Hrun as [(e & Hremove & _)|([] & w1 & Hremove & Hrest)].
    + by eapply remove_each_other.
    + rewrite (IH _ _ _ Hrest p); [by eapply remove_each_other|].
      intros pattern Hin. apply Hp. by right.
Qed.

(** Cleanup removes nothing but what its patterns match: whether it
    succeeds or fails, a path that matches none of the patterns keeps its
    file, and no directory is created or removed and no execution
    started. *)
Theorem cleanup_keeps_other_files `{Substrate} (output_patterns : list string)
    (w w' : world) (r : exn + unit) :
  cleanup output_patterns w = (r, w') →
  (∀ p, (∀ pattern, pattern ∈ output_patterns → glob_match pattern p = false) →
        files w' !! p = files w !! p)
  ∧ dirs w' = dirs w ∧ executed w' = executed w.
Proof.
  intros Hrun. split; [by eapply cleanup_other|].
  destruct (only_removes_cleanup _ _ _ _ Hrun) as (? & ? & _). done.
Qed.

Lemma cleanup_keeps_other_files_witness :
  let w := World {[ "/out/shuf_partition0-00000-of-00001.tfrecord.gz"
                    := TFRecordFile [["a"%byte]];
                    "/in/x.tfrecord.gz" := TFRecordFile [["a"%byte]] ]}
                 ∅ [] 20 [] in
  let patterns := ["/out/shuf_partition0-?????-of-?????.tfrecord.gz"] in
  let w' := snd (cleanup (H:=Reference.substrate) patterns w) in
  files w' !! "/in/x.tfrecord.gz" = Some (TFRecordFile [["a"%byte]])
  ∧ files w' !! "/out/shuf_partition0-00000-of-00001.tfrecord.gz" = None.
Proof.
  intros w patterns w'. split; [|vm_compute; reflexivity].
  destruct (cleanup_keeps_other_files (H:=Reference.substrate) patterns w w'
              (fst (cleanup (H:=Reference.substrate) patterns w)))
    as (Hkeep & _ & _).
  - subst w'. by destruct (cleanup patterns w).
  - rewrite Hkeep; [reflexivity|].
    intros pattern ->%list_elem_of_singleton. reflexivity.
Defined.

Lemma remove_each_succeeds (partials : list string) (w : world) :
  NoDup partials →
  (∀ p, p ∈ partials → is_Some (files w !! p) ∧ os_path_isdir p w = false) →
  ∃ w', remove_each partials w = (inr tt, w').
Proof.
  intros Hnd. revert w. induction Hnd as [|q partials Hq Hnd IH]; intros w Hall;
    simpl.
  - by eexists.
  - destruct (Hall q) as [[f Hf] Hdir]; [left|].
    assert (os_remove q w = (inr tt, set_files (delete q (files w)) w)) as Hrem.
    { unfold os_remove. by rewrite Hdir, Hf. }
    unfold mbind, M_bind. rewrite Hrem. apply IH.
    intros p Hp. destruct (Hall p) as [Hfile Hnd']; [by right|]. split.
    + simpl. rewrite lookup_delete_ne; [done|]. intros ->. done.
    + destruct (os_path_isdir p (set_files _ w)) eqn:Hdir'; [|done].
      rewrite <- Hnd'. symmetry.
      apply (os_path_isdir_mono p (set_files (delete q (files w)) w) w);
        [done| |done].
      simpl. rewrite dom_delete_L. set_solver.
Qed.



(** A directory above the files is listed as well, and [os.remove]
    raises for it. *)
Example cleanup_raises_for_directory :
  fst (cleanup (H:=Reference.substrate) ["/i?"] Reference.one_input)
  = inl (OSError "/in").
Proof. vm_compute. reflexivity. Qed.

(** ** Directories *)

Lemma keeps_dirs_bind {A B} (m : M A) (f : A → M B) :
  keeps_dirs m → (∀ a, keeps_dirs (f a)) → keeps_dirs (m ≫= f).
Proof.
  intros Hm Hf w r w' [(e & Hrun & _)|(a & w1 & Hrun & Hrest)]%bind_cases.
  - by apply Hm in Hrun.
  - apply Hm in Hrun. apply Hf in Hrest. congruence.
Qed.

Lemma keeps_dirs_pure {A} (x : exn + A) : keeps_dirs (lift x).
Proof. by intros w r w' [= _ <-]. Qed.

Lemma keeps_dirs_only_removes {A} (m : M A) : only_removes m → keeps_dirs m.
Proof. intros Hm w r w' Hrun. by apply Hm in Hrun as (_ & ? & _). Qed.

Lemma keeps_dirs_shuffle_partition `{Substrate} (known_args : known_args)
    (i : nat) (filename : option string) (output_patterns : list string) :
  keeps_dirs (shuffle_partition known_args i filename output_patterns).
Proof.
  intros w r w' Hrun.
  by apply shuffle_partition_cases in Hrun
    as [(e & _ & ->)|(? & ? & _ & _ & _ & _ & _ & ? & _)].
Qed.

Lemma keeps_dirs_shuffle_partitions `{Substrate} (known_args : known_args)
    (input_files : list (option string)) :
  ∀ i output_patterns,
    keeps_dirs (shuffle_partitions known_args i input_files output_patterns).
Proof.
  induction input_files as [|filename rest IH]; intros i output_patterns; simpl.
  - by intros w r w' [= _ <-].
  - apply keeps_dirs_bind; [apply keeps_dirs_shuffle_partition|]. intros ps. apply IH.
Qed.

Lemma keeps_dirs_combine `{Substrate} (known_args : known_args)
    (output_patterns : list string) :
  keeps_dirs (combine_shuffled_partitions known_args output_patterns).
Proof.
  intros w r w'. unfold combine_shuffled_partitions.
  intros [(e & Hbuild & _)|([] & w1 & Hbuild & Hrun)]%bind_cases;
    apply build_read_same_world in Hbuild as ->; [done|].
  revert Hrun.
  destruct (output_pattern_prefix known_args); [|by intros [= _ <-]].
  destruct (truthy (output_dataset_config_pbtxt known_args));
    [destruct (truthy (output_dataset_name known_args))|]; by intros [= _ <-].
Qed.

(** When [pre_partition] returns, the working directory has been
    created. *)
Lemma pre_partition_dirs `{Substrate} (input_pattern : list string)
    (working_directory : string) (pipeline_args : list string) (n : Z)
    (w w' : world) (filenames : list string) :
  pre_partition input_pattern working_directory pipeline_args n w
  = (inr filenames, w') →
  working_directory ≠ "" ∧ dirs w' = {[working_directory]} ∪ dirs w.
Proof.
  intros Hrun.
  by apply pre_partition_cases in Hrun as [(e & ? & _)|(_ & ? & ? & _)].
Qed.

Lemma run_stages `{Substrate} (known_args : known_args)
    (pipeline_args : list string) (w w' : world) (r : exn + unit) :
  run known_args pipeline_args w = (r, w') →
  ∃ r1 w1,
    prepartition_files known_args pipeline_args
      (World (files w) (dirs w) (executed w)
         (if debug known_args then logging_DEBUG else logging_INFO)
         (log_output w)) = (r1, w1)
    ∧ dirs w' = dirs w1
    ∧ (r = inr tt → ∃ input_files, r1 = inr input_files).
Proof.
  unfold run. intros Hrun.
  apply bind_cases in Hrun as [(e & Hlevel & _)|([] & w0 & Hlevel & Hrun)];
    rewrite setLevel_run in Hlevel; [done|]. injection Hlevel as <-.
  apply bind_cases in Hrun as [(e & Hpre & ->)|(input_files & w1 & Hpre & Hrun)].
  { by eexists _, _. }
  exists (inr input_files), w1. split; [done|]. split; [|by eexists].
  apply bind_cases in Hrun as [(e & Hsh & ->)|(patterns & w2 & Hsh & Hrun)].
  { by apply keeps_dirs_shuffle_partitions in Hsh. }
  apply keeps_dirs_shuffle_partitions in Hsh. rewrite <- Hsh.
  apply bind_cases in Hrun as [(e & Hmerge & ->)|([] & w3 & Hmerge & Hclean)].
  { by apply keeps_dirs_combine in Hmerge. }
  apply keeps_dirs_combine in Hmerge. rewrite <- Hmerge.
  by apply (keeps_dirs_only_removes _ (only_removes_cleanup _)) in Hclean.
Qed.

(** A run with [--pre_partition] that succeeded cannot be repeated on the
    same working directory: [main] leaves the directory behind, so the
    second run raises the [ValueError] of [pre_partition] before it
    executes or writes anything. *)
Theorem main_pre_partition_once `{Substrate} (argv : list string)
    (known_args : known_args) (pipeline_args : list string) (w w' : world) :
  parse_known_args argv = inr (known_args, pipeline_args) →
  pre_partition_flag known_args = true →
  main argv w = (inr tt, w') →
  ∃ w'',
    main argv w'
    = (inl (ValueError "Provide a clean working directory path directory"), w'')
    ∧ files w'' = files w' ∧ dirs w'' = dirs w' ∧ executed w'' = executed w'.
Proof.
  intros Hparse Hflag Hmain.
  destruct (main_log _ _ _ _ _ _ Hparse Hmain) as [(msg & ? & _)|Hrun]; [done|].
  assert (parse_cmdline argv = inr (known_args, pipeline_args)) as Hcmd.
  { destruct (parse_cmdline_cases argv _ _ Hparse) as [[msg Hmsg]|]; [|done].
    unfold main in Hmain. rewrite Hmsg in Hmain. done. }
  apply run_stages in Hrun as (r1 & w1 & Hpre & Hdirs & Hok).
  destruct (Hok eq_refl) as [input_files ->].
  unfold prepartition_files in Hpre. rewrite Hflag in Hpre.
  destruct (input_pattern_list known_args) as [patterns|] eqn:Hinput; [|done].
  destruct (pre_partition_workdir known_args) as [wd|] eqn:Hwd; [|done].
  apply bind_inr in Hpre as (filenames & w2 & Hpp & Hret).
  injection Hret as _ <-.
  apply pre_partition_dirs in Hpp as [Hne Hdirs1].
  assert (wd ∈ dirs w') as Hin by (rewrite Hdirs, Hdirs1; set_solver).
  eexists. split.
  - unfold main. rewrite Hcmd. unfold mbind, M_bind, lift. simpl.
    unfold run. unfold mbind, M_bind. rewrite setLevel_run.
    unfold prepartition_files. rewrite Hflag, Hinput, Hwd.
    unfold mbind, M_bind. rewrite pre_partition_there; [reflexivity|].
    unfold os_path_exists. by rewrite os_path_isdir_created.
  - done.
Qed.

Lemma main_pre_partition_once_witness :
  let argv := ["--input_pattern_list=/in/x.tfrecord.gz";
               "--output_pattern_prefix=/out/shuf"; "--pre_partition";
               "--pre_partition_workdir=/work"; "--num_buckets=3"] in
  let w' := snd (main (H:=Reference.substrate) argv Reference.one_input) in
  ∃ w'',
    main (H:=Reference.substrate) argv w'
    = (inl (ValueError "Provide a clean working directory path directory"), w'')
    ∧ files w'' = files w' ∧ dirs w'' = dirs w' ∧ executed w'' = executed w'.
Proof.
  intros argv w'.
  apply (main_pre_partition_once (H:=Reference.substrate) argv
           (KnownArgs (Some "/in/x.tfrecord.gz") (Some "/out/shuf") None None 3
              true (Some "/work") false) [] Reference.one_input w').
  - reflexivity.
  - reflexivity.
  - vm_compute. reflexivity.
Defined.

(** ** The loop over the partitions *)

Lemma shuffle_partitions_each `{Substrate} (known_args : known_args)
    (prefix : string) (filenames : list string) :
  output_pattern_prefix known_args = Some prefix →
  ∀ (i : nat) (output_patterns : list string) (w : world),
  Forall (λ filename, patterns_match w (str_split "," filename)) filenames →
  ∃ w',
    shuffle_partitions known_args i (map Some filenames) output_patterns w
    = (inr (output_patterns
            ++ map (partition_pattern prefix) (seq i (length filenames))), w')
    ∧ executed w'
      = executed w
        ++ map (λ j, ShuffleRun j (partition_prefix prefix j))
               (seq i (length filenames))
    ∧ dirs w' = dirs w.
Proof.
  intros Hprefix. induction filenames as [|filename rest IH];
    intros i output_patterns w Hfound; cbn [map length seq shuffle_partitions].
  - exists w. by rewrite !app_nil_r.
  - apply Forall_cons in Hfound as [Hfound Hrest].
    unfold mbind, M_bind.
    rewrite (shuffle_partition_run known_args i filename prefix) by done.
    match goal with
    | |- context [shuffle_partitions _ _ _ ?ps ?w1] =>
        destruct (IH (S i) ps w1) as (w' & Hrun & Hlog & Hdirs)
    end.
    { eapply Forall_impl; [exact Hrest|]. intros f.
      apply patterns_match_mono. cbn [files set_files start].
      rewrite WriteToTFRecord_dom. set_solver. }
    exists w'. rewrite Hrun. split; [|split].
    + by rewrite <- (assoc (++)).
    + rewrite Hlog. simpl. by rewrite <- (assoc (++)).
    + by rewrite Hdirs.
Qed.

(** With an output prefix and input files that are there, the loop
    "Shuffle each partition" does not fail: it starts one execution per
    input file, numbered in the order of the list from the index the loop
    is at, and records one pattern per file in the same order. *)
Theorem shuffle_partitions_one_per_file `{Substrate} (known_args : known_args)
    (prefix : string) (filenames : list string) (i : nat)
    (output_patterns : list string) (w : world) :
  output_pattern_prefix known_args = Some prefix →
  Forall (λ filename, patterns_match w (str_split "," filename)) filenames →
  ∃ w',
    shuffle_partitions known_args i (map Some filenames) output_patterns w
    = (inr (output_patterns
            ++ map (partition_pattern prefix) (seq i (length filenames))), w')
    ∧ executed w'
      = executed w
        ++ map (λ j, ShuffleRun j (partition_prefix prefix j))
               (seq i (length filenames)).
Proof.
  intros Hprefix Hfound.
  destruct (shuffle_partitions_each known_args prefix filenames Hprefix i
              output_patterns w Hfound) as (w' & Hrun & Hlog & _).
  by exists w'.
Qed.

Lemma shuffle_partitions_one_per_file_witness :
  let ka := KnownArgs None (Some "/out/shuf") None None 1 false None false in
  let w := World {[ "/work/p0" := TFRecordFile [["a"%byte]];
                    "/work/p1" := TFRecordFile [["b"%byte]] ]} ∅ [] 20 [] in
  ∃ w',
    shuffle_partitions (H:=Reference.substrate) ka 0
      (map Some ["/work/p0"; "/work/p1"]) [] w
    = (inr ([] ++ map (partition_pattern "/out/shuf") (seq 0 2)), w')
    ∧ executed w'
      = executed w
        ++ map (λ j, ShuffleRun j (partition_prefix "/out/shuf" j)) (seq 0 2).
Proof.
  intros ka w.
  apply (shuffle_partitions_one_per_file (H:=Reference.substrate) ka "/out/shuf"
           ["/work/p0"; "/work/p1"] 0%nat [] w eq_refl).
  repeat constructor; vm_compute; discriminate.
Defined.

(** [--input_pattern_list] and [--output_pattern_prefix] are not marked
    as required. Without pre-partitioning, leaving out the first makes
    [main] raise [AttributeError]; leaving out only the second, with
    input patterns that find their files, [TypeError]; both inside the
    first [with] block, so that nothing is executed or written. Without an
    output prefix [main] never succeeds, pre-partitioning or not. *)
Theorem main_without_required_flags `{Substrate} (argv : list string)
    (known_args : known_args) (pipeline_args : list string) (w : world) :
  parse_known_args argv = inr (known_args, pipeline_args) →
  let w0 := World (files w) (dirs w) (executed w)
              (if debug known_args then logging_DEBUG else logging_INFO)
              (log_output w) in
  (pre_partition_flag known_args = false →
   input_pattern_list known_args = None →
   main argv w
   = (inl (AttributeError "'NoneType' object has no attribute 'split'"), w0))
  ∧ (pre_partition_flag known_args = false →
     (∃ patterns, input_pattern_list known_args = Some patterns
                  ∧ patterns_match w (str_split "," patterns)) →
     output_pattern_prefix known_args = None →
     main argv w
     = (inl (TypeError "unsupported operand type(s) for +: 'NoneType' and 'str'"),
        w0))
  ∧ (output_pattern_prefix known_args = None → ∀ w', main argv w ≠ (inr tt, w')).
Proof.
  intros Hparse w0. split; [|split].
  - intros Hflag Hinput. unfold main, parse_cmdline. rewrite Hparse, Hflag.
    unfold mbind, M_bind, lift. cbn [fst snd].
    unfold run, prepartition_files. rewrite Hflag.
    unfold mbind, M_bind. rewrite setLevel_run. cbn [mret M_ret shuffle_partitions].
    unfold mbind, M_bind, shuffle_partition. by rewrite Hinput.
  - intros Hflag (patterns & Hinput & Hfound) Hprefix. unfold main, parse_cmdline.
    rewrite Hparse, Hflag.
    unfold mbind, M_bind, lift. cbn [fst snd].
    unfold run, prepartition_files. rewrite Hflag.
    unfold mbind, M_bind. rewrite setLevel_run. cbn [mret M_ret shuffle_partitions].
    unfold mbind, M_bind, shuffle_partition. rewrite Hinput.
    unfold mbind, M_bind. fold w0.
    rewrite (build_read_ok (str_split "," patterns) w0)
      by (done || apply str_split_not_nil).
    by rewrite Hprefix.
  - intros Hprefix w' Hmain.
    destruct (main_log _ _ _ _ _ _ Hparse Hmain) as [(msg & ? & _)|Hrun]; [done|].
    unfold run in Hrun.
    apply bind_inr in Hrun as (? & ? & _ & Hrun).
    apply bind_inr in Hrun as (? & ? & _ & Hrun).
    apply bind_inr in Hrun as (? & ? & _ & Hrun).
    apply bind_inr in Hrun as (? & ? & Hmerge & _).
    apply combine_shuffled_partitions_cases in Hmerge
      as [(? & ? & _)|(_ & _ & _ & _ & prefix & ? & Hsome & _)]; [done|].
    congruence.
Qed.

Lemma main_without_required_flags_witness :
  main (H:=Reference.substrate) ["--output_pattern_prefix=/out/shuf"]
    Reference.one_input
  = (inl (AttributeError "'NoneType' object has no attribute 'split'"),
     World (files Reference.one_input) (dirs Reference.one_input)
       (executed Reference.one_input) logging_INFO
       (log_output Reference.one_input)).
Proof.
  apply (main_without_required_flags (H:=Reference.substrate)
           ["--output_pattern_prefix=/out/shuf"]
           (KnownArgs None (Some "/out/shuf") None None 1 false None false) []
           Reference.one_input); reflexivity.
Defined.

Example main_without_output_prefix :
  main (H:=Reference.substrate) ["--input_pattern_list=/in/x.tfrecord.gz"]
    Reference.one_input
  = (inl (TypeError "unsupported operand type(s) for +: 'NoneType' and 'str'"),
     World (files Reference.one_input) (dirs Reference.one_input)
       (executed Reference.one_input) logging_INFO
       (log_output Reference.one_input)).
Proof. reflexivity. Qed.


Lemma shuffle_partition_read_back `{Substrate} (known_args : known_args)
    (prefix : string) (i : nat) (filename : string)
    (output_patterns : list string) (w : world) :
  output_pattern_prefix known_args = Some prefix →
  patterns_match w (str_split "," filename) →
  GroupByKey_spec GroupByKey →
  (∀ l, concat (split_shards l) ≡ₚ l) →
  Forall (λ name, beam_match (partition_pattern prefix i) name = true)
         (shard_names (partition_prefix prefix i) ".tfrecord.gz"
            (shuffle_records
               (read_from_tfrecords_files w (str_split "," filename)))) →
  beam_glob (partition_pattern prefix i) w = [] →
  ∃ w',
    shuffle_partition known_args i (Some filename) output_patterns w
    = (inr (output_patterns ++ [partition_pattern prefix i]), w')
    ∧ executed w' = executed w ++ [ShuffleRun i (partition_prefix prefix i)]
    ∧ files w'
      = WriteToTFRecord (partition_prefix prefix i) ".tfrecord.gz"
          (shuffle_records
             (read_from_tfrecords_files w (str_split "," filename)))
          (files w)
    ∧ read_from_tfrecords_files w' [partition_pattern prefix i]
      ≡ₚ read_from_tfrecords_files w (str_split "," filename).
Proof.
  intros Hprefix Hfound Hgbk Hsplit Hnames Hstale.
  rewrite (shuffle_partition_run known_args i filename prefix) by done.
  eexists. split; [reflexivity|]. split; [reflexivity|].
  split; [reflexivity|].
  rewrite read_one_pattern.
  rewrite (write_then_read (partition_prefix prefix i) ".tfrecord.gz"
             (partition_pattern prefix i)
             (shuffle_records
                (read_from_tfrecords_files w (str_split "," filename))) w);
    [|done|done|reflexivity].
  rewrite Hsplit. by apply shuffle_records_Permutation.
Qed.

(** The shards that the loop writes for a partition hold the records it
    read for it: reading its pattern back gives a permutation of the
    input of that turn, when the input is there, the runner groups and
    splits without loss, the pattern matches the shards just written, and
    no file that was there before matches it. *)
Theorem shuffle_partition_round_trip `{Substrate} (known_args : known_args)
    (prefix : string) (i : nat) (filename : string)
    (output_patterns : list string) (w : world) :
  output_pattern_prefix known_args = Some prefix →
  patterns_match w (str_split "," filename) →
  GroupByKey_spec GroupByKey →
  (∀ l, concat (split_shards l) ≡ₚ l) →
  Forall (λ name, beam_match (partition_pattern prefix i) name = true)
         (shard_names (partition_prefix prefix i) ".tfrecord.gz"
            (shuffle_records
               (read_from_tfrecords_files w (str_split "," filename)))) →
  beam_glob (partition_pattern prefix i) w = [] →
  ∃ w',
    shuffle_partition known_args i (Some filename) output_patterns w
    = (inr (output_patterns ++ [partition_pattern prefix i]), w')
    ∧ read_from_tfrecords_files w' [partition_pattern prefix i]
      ≡ₚ read_from_tfrecords_files w (str_split "," filename).
Proof.
  intros Hprefix Hfound Hgbk Hsplit Hnames Hstale.
  destruct (shuffle_partition_read_back known_args prefix i filename
              output_patterns w Hprefix Hfound Hgbk Hsplit Hnames Hstale)
    as (w' & Hrun & _ & _ & Hread).
  by exists w'.
Qed.

Lemma shuffle_partition_round_trip_witness :
  let ka := KnownArgs (Some "/in/x.tfrecord.gz") (Some "/out/shuf") None None 1
              false None false in
  ∃ w',
    shuffle_partition (H:=Reference.substrate) ka 0 (Some "/in/x.tfrecord.gz") []
      Reference.three_records
    = (inr ([] ++ [partition_pattern "/out/shuf" 0]), w')
    ∧ read_from_tfrecords_files (H:=Reference.substrate) w'
        [partition_pattern "/out/shuf" 0]
      ≡ₚ read_from_tfrecords_files (H:=Reference.substrate)
           Reference.three_records (str_split "," "/in/x.tfrecord.gz").
Proof.
  intros ka.
  apply (shuffle_partition_round_trip (H:=Reference.substrate) ka "/out/shuf" 0
           "/in/x.tfrecord.gz" [] Reference.three_records).
  - reflexivity.
  - repeat constructor; vm_compute; discriminate.
  - exact group_by_key_spec.
  - exact one_shard_concat.
  - vm_compute. repeat constructor.
  - vm_compute. reflexivity.
Defined.

(** Without such a check the loop reads back more than it wrote: a file
    that was there before and matches the pattern of the partition is
    taken for one of its shards. *)
Example stale_shard_read_back :
  let ka := KnownArgs (Some "/in/x.tfrecord.gz") (Some "/out/shuf") None None 1
              false None false in
  let w := World {[ "/in/x.tfrecord.gz" := TFRecordFile [["a"%byte]];
                    "/out/shuf_partition0-00000-of-00002.tfrecord.gz"
                    := TFRecordFile [["z"%byte]] ]} ∅ [] 20 [] in
  let w' := snd (shuffle_partition (H:=Reference.substrate) ka 0
                   (Some "/in/x.tfrecord.gz") [] w) in
  read_from_tfrecords_files (H:=Reference.substrate) w
    (str_split "," "/in/x.tfrecord.gz") = [["a"%byte]]
  ∧ read_from_tfrecords_files (H:=Reference.substrate) w'
      [partition_pattern "/out/shuf" 0] ≡ₚ [["a"%byte]; ["z"%byte]].
Proof.
  split; [reflexivity|]. vm_compute.
  apply Permutation_swap || reflexivity.
Qed.

(** ** A run without pre-partitioning, end to end *)

Lemma write_summary_lookup (output_examples : list bytes)
    (input_pattern_list dataset_name output_pattern_prefix output_filename : string)
    (fs : gmap string file) :
  write_summary_string_to_file output_examples input_pattern_list dataset_name
    output_pattern_prefix output_filename fs !! output_filename
  = Some (TextFile
            (COMMENT_HEADER_format input_pattern_list output_pattern_prefix
             +:+ MakeConfigStringCaller_call
                   {| name := dataset_name; tfrecord_path := output_pattern_prefix |}
                   (Z.of_nat (length output_examples))
             +:+ nl)).
Proof.
  unfold write_summary_string_to_file, WriteToText. rewrite lookup_insert_eq.
  assert (summary_strings output_examples input_pattern_list dataset_name
            output_pattern_prefix
          = [COMMENT_HEADER_format input_pattern_list output_pattern_prefix
             +:+ MakeConfigStringCaller_call
                   {| name := dataset_name; tfrecord_path := output_pattern_prefix |}
                   (Z.of_nat (length output_examples))]) as -> by reflexivity.
  simpl. by rewrite append_assoc.
Qed.

(** Without pre-partitioning, the manifest that [main] leaves counts the
    records of the input: [num_examples] is the number of records read
    from the input patterns, when the input is there, the runner groups
    and splits without loss and writes a shard at least, the pattern of
    partition 0 matches the shards written for it and no file that was
    there before, and does not match the manifest path. The shuffle and
    the merge are the two executions of the run. *)
Theorem manifest_counts_input `{Substrate} (argv : list string)
    (known_args : known_args) (pipeline_args : list string)
    (patterns prefix config dataset : string) (w : world) :
  parse_known_args argv = inr (known_args, pipeline_args) →
  pre_partition_flag known_args = false →
  input_pattern_list known_args = Some patterns →
  output_pattern_prefix known_args = Some prefix →
  output_dataset_config_pbtxt known_args = Some config → config ≠ "" →
  output_dataset_name known_args = Some dataset → dataset ≠ "" →
  patterns_match w (str_split "," patterns) →
  GroupByKey_spec GroupByKey →
  (∀ l, concat (split_shards l) ≡ₚ l) → (∀ l, split_shards l ≠ []) →
  Forall (λ name, beam_match (partition_pattern prefix 0) name = true)
         (shard_names (partition_prefix prefix 0) ".tfrecord.gz"
            (shuffle_records
               (read_from_tfrecords_files w (str_split "," patterns)))) →
  beam_glob (partition_pattern prefix 0) w = [] →
  glob_match (partition_pattern prefix 0) config = false →
  ∃ r w',
    main argv w = (r, w')
    ∧ executed w'
      = executed w ++ [ShuffleRun 0 (partition_prefix prefix 0);
                       MergeRun prefix true]
    ∧ files w' !! config
      = Some (TextFile
                (COMMENT_HEADER_format patterns prefix
                 +:+ MakeConfigStringCaller_call
                       {| name := dataset; tfrecord_path := prefix |}
                       (Z.of_nat
                          (length (read_from_tfrecords_files w
                                     (str_split "," patterns))))
                 +:+ nl)).
Proof.
  intros Hparse Hflag Hinput Hprefix Hconfig Hcnonempty Hname Hnnonempty
    Hfound Hgbk Hsplit Hshard Hnames Hstale Hkeep.
  set (w0 := World (files w) (dirs w) (executed w)
               (if debug known_args then logging_DEBUG else logging_INFO)
               (log_output w)).
  destruct (shuffle_partition_read_back known_args prefix 0 patterns [] w0
              Hprefix Hfound Hgbk Hsplit Hnames Hstale)
    as (w1 & Hshuffle & Hlog1 & Hfiles1 & Hread).
  assert (patterns_match w1 [partition_pattern prefix 0]) as Hmatch1.
  { constructor; [|constructor].
    apply (written_shards_found (partition_prefix prefix 0) ".tfrecord.gz"
             (partition_pattern prefix 0)
             (shuffle_records
                (read_from_tfrecords_files w0 (str_split "," patterns))) w1);
      [apply Hshard|done|].
    rewrite Hfiles1, !WriteToTFRecord_dom. set_solver. }
  assert (truthy (output_dataset_config_pbtxt known_args) = true) as Htc.
  { rewrite Hconfig. by destruct config. }
  assert (truthy (output_dataset_name known_args) = true) as Htn.
  { rewrite Hname. by destruct dataset. }
  pose proof (combine_shuffled_partitions_run known_args prefix
                [partition_pattern prefix 0] w1 Hprefix) as Hmerge.
  rewrite Htc, Htn, Hconfig, Hname, Hinput in Hmerge.
  specialize (Hmerge eq_refl Hmatch1 ltac:(done)). cbn [default] in Hmerge.
  set (w2 := set_files
               (write_summary_string_to_file
                  (read_from_tfrecords_files w1 [partition_pattern prefix 0])
                  patterns dataset prefix config
                  (WriteToTFRecord prefix ".tfrecord.gz"
                     (read_from_tfrecords_files w1 [partition_pattern prefix 0])
                     (files w1)))
               (start (MergeRun prefix true) w1)) in *.
  destruct (cleanup [partition_pattern prefix 0] w2) as [r w'] eqn:Hclean.
  exists r, w'.
  assert (main argv w = (r, w')) as Hmain.
  { unfold main, parse_cmdline. rewrite Hparse, Hflag.
    unfold mbind, M_bind, lift. cbn [fst snd].
    unfold run, prepartition_files. rewrite Hflag.
    unfold mbind, M_bind. rewrite setLevel_run.
    cbn [mret M_ret shuffle_partitions]. rewrite Hinput.
    unfold mbind, M_bind. fold w0. rewrite Hshuffle.
    cbn [mret M_ret app]. rewrite Hmerge. exact Hclean. }
  split; [done|].
  destruct (only_removes_cleanup _ _ _ _ Hclean) as (Hlog & _ & _).
  split.
  - rewrite Hlog. subst w2. simpl. rewrite Hlog1. subst w0. simpl.
    by rewrite <- (assoc (++)).
  - rewrite (cleanup_other _ _ _ _ Hclean config).
    + subst w2. cbn [files set_files]. rewrite write_summary_lookup.
      by rewrite Hread.
    + intros pattern ->%list_elem_of_singleton. done.
Qed.

Lemma manifest_counts_input_witness :
  let argv := ["--input_pattern_list=/in/x.tfrecord.gz";
               "--output_pattern_prefix=/out/shuf";
               "--output_dataset_config_pbtxt=/out/cfg";
               "--output_dataset_name=HG001"] in
  ∃ r w',
    main (H:=Reference.substrate) argv Reference.three_records = (r, w')
    ∧ executed w'
      = executed Reference.three_records
        ++ [ShuffleRun 0 (partition_prefix "/out/shuf" 0);
            MergeRun "/out/shuf" true]
    ∧ files w' !! "/out/cfg"
      = Some (TextFile
                (COMMENT_HEADER_format "/in/x.tfrecord.gz" "/out/shuf"
                 +:+ MakeConfigStringCaller_call
                       {| name := "HG001"; tfrecord_path := "/out/shuf" |}
                       (Z.of_nat
                          (length (read_from_tfrecords_files
                                     (H:=Reference.substrate)
                                     Reference.three_records
                                     (str_split "," "/in/x.tfrecord.gz"))))
                 +:+ nl)).
Proof.
  intros argv.
  apply (manifest_counts_input (H:=Reference.substrate) argv
           (KnownArgs (Some "/in/x.tfrecord.gz") (Some "/out/shuf")
              (Some "/out/cfg") (Some "HG001") 1 false None false) []
           "/in/x.tfrecord.gz" "/out/shuf" "/out/cfg" "HG001"
           Reference.three_records).
  - reflexivity.
  - reflexivity.
  - reflexivity.
  - reflexivity.
  - reflexivity.
  - discriminate.
  - reflexivity.
  - discriminate.
  - repeat constructor; vm_compute; discriminate.
  - exact group_by_key_spec.
  - exact one_shard_concat.
  - discriminate.
  - vm_compute. repeat constructor.
  - vm_compute. reflexivity.
  - vm_compute. reflexivity.
Defined.

Example manifest_counts_three :
  let argv := ["--input_pattern_list=/in/x.tfrecord.gz";
               "--output_pattern_prefix=/out/shuf";
               "--output_dataset_config_pbtxt=/out/cfg";
               "--output_dataset_name=HG001"] in
  files (snd (main (H:=Reference.substrate) argv Reference.three_records))
    !! "/out/cfg"
  = Some (TextFile
            (COMMENT_HEADER_format "/in/x.tfrecord.gz" "/out/shuf"
             +:+ nl +:+ "name: " +:+ dq +:+ "HG001" +:+ dq +:+ nl
             +:+ "tfrecord_path: " +:+ dq
             +:+ "/out/shuf-?????-of-?????.tfrecord.gz" +:+ dq +:+ nl
             +:+ "num_examples: 3" +:+ nl +:+ nl)).
Proof. vm_compute. reflexivity. Qed.
(** Without pre-partitioning and without a manifest, [main] loses and
    adds no record: the final shards hold, shard by shard, a collection
    that is a permutation of the records read from the input patterns.
    This needs an input that is there, a runner that groups and splits
    without loss and writes a shard at least, and a pattern of partition
    0 that matches the shards written for it, no file that was there
    before, and no final shard. *)
Theorem final_shards_hold_input `{Substrate} (argv : list string)
    (known_args : known_args) (pipeline_args : list string)
    (patterns prefix : string) (w : world) :
  parse_known_args argv = inr (known_args, pipeline_args) →
  pre_partition_flag known_args = false →
  input_pattern_list known_args = Some patterns →
  output_pattern_prefix known_args = Some prefix →
  output_dataset_config_pbtxt known_args = None →
  patterns_match w (str_split "," patterns) →
  GroupByKey_spec GroupByKey →
  (∀ l, concat (split_shards l) ≡ₚ l) → (∀ l, split_shards l ≠ []) →
  Forall (λ name, beam_match (partition_pattern prefix 0) name = true)
         (shard_names (partition_prefix prefix 0) ".tfrecord.gz"
            (shuffle_records
               (read_from_tfrecords_files w (str_split "," patterns)))) →
  beam_glob (partition_pattern prefix 0) w = [] →
  (∀ j total, glob_match (partition_pattern prefix 0)
                (shard_name prefix j total ".tfrecord.gz") = false) →
  ∃ r w' output,
    main argv w = (r, w')
    ∧ output ≡ₚ read_from_tfrecords_files w (str_split "," patterns)
    ∧ concat (split_shards output)
      ≡ₚ read_from_tfrecords_files w (str_split "," patterns)
    ∧ ∀ j shard,
        split_shards output !! j = Some shard →
        files w' !! shard_name prefix j (length (split_shards output))
                      ".tfrecord.gz"
        = Some (TFRecordFile shard).
Proof.
  intros Hparse Hflag Hinput Hprefix Hconfig Hfound Hgbk Hsplit Hshard Hnames
    Hstale Hkeep.
  set (w0 := World (files w) (dirs w) (executed w)
               (if debug known_args then logging_DEBUG else logging_INFO)
               (log_output w)).
  destruct (shuffle_partition_read_back known_args prefix 0 patterns [] w0
              Hprefix Hfound Hgbk Hsplit Hnames Hstale)
    as (w1 & Hshuffle & Hlog1 & Hfiles1 & Hread).
  assert (patterns_match w1 [partition_pattern prefix 0]) as Hmatch1.
  { constructor; [|constructor].
    apply (written_shards_found (partition_prefix prefix 0) ".tfrecord.gz"
             (partition_pattern prefix 0)
             (shuffle_records
                (read_from_tfrecords_files w0 (str_split "," patterns))) w1);
      [apply Hshard|done|].
    rewrite Hfiles1, !WriteToTFRecord_dom. set_solver. }
  pose proof (combine_shuffled_partitions_run known_args prefix
                [partition_pattern prefix 0] w1 Hprefix) as Hmerge.
  rewrite Hconfig in Hmerge.
  specialize (Hmerge eq_refl Hmatch1 ltac:(done)). cbn [truthy] in Hmerge.
  set (output := read_from_tfrecords_files w1 [partition_pattern prefix 0]) in *.
  set (w2 := set_files (WriteToTFRecord prefix ".tfrecord.gz" output (files w1))
               (start (MergeRun prefix false) w1)) in *.
  destruct (cleanup [partition_pattern prefix 0] w2) as [r w'] eqn:Hclean.
  exists r, w', output.
  split; [|split; [exact Hread|split; [by rewrite Hsplit|]]].
  - unfold main, parse_cmdline. rewrite Hparse, Hflag.
    unfold mbind, M_bind, lift. cbn [fst snd].
    unfold run, prepartition_files. rewrite Hflag.
    unfold mbind, M_bind. rewrite setLevel_run.
    cbn [mret M_ret shuffle_partitions]. rewrite Hinput.
    unfold mbind, M_bind. fold w0. rewrite Hshuffle.
    cbn [mret M_ret app]. rewrite Hmerge. exact Hclean.
  - intros j shard Hj.
    rewrite (cleanup_other _ _ _ _ Hclean).
    + subst w2. cbn [files set_files]. by apply WriteToTFRecord_lookup.
    + intros pattern ->%list_elem_of_singleton. apply Hkeep.
Qed.

Lemma final_shards_hold_input_witness :
  let argv := ["--input_pattern_list=/in/x.tfrecord.gz";
               "--output_pattern_prefix=/out/shuf"] in
  ∃ r w' output,
    main (H:=Reference.substrate) argv Reference.three_records = (r, w')
    ∧ output ≡ₚ read_from_tfrecords_files (H:=Reference.substrate)
                  Reference.three_records (str_split "," "/in/x.tfrecord.gz")
    ∧ concat (split_shards (Substrate:=Reference.substrate) output)
      ≡ₚ read_from_tfrecords_files (H:=Reference.substrate)
           Reference.three_records (str_split "," "/in/x.tfrecord.gz")
    ∧ ∀ j shard,
        split_shards (Substrate:=Reference.substrate) output !! j = Some shard →
        files w' !! shard_name "/out/shuf" j
                      (length (split_shards (Substrate:=Reference.substrate) output))
                      ".tfrecord.gz"
        = Some (TFRecordFile shard).
Proof.
  intros argv.
  apply (final_shards_hold_input (H:=Reference.substrate) argv
           (KnownArgs (Some "/in/x.tfrecord.gz") (Some "/out/shuf") None None 1
              false None false) []
           "/in/x.tfrecord.gz" "/out/shuf" Reference.three_records).
  - reflexivity.
  - reflexivity.
  - reflexivity.
  - reflexivity.
  - reflexivity.
  - repeat constructor; vm_compute; discriminate.
  - exact group_by_key_spec.
  - exact one_shard_concat.
  - discriminate.
  - vm_compute. repeat constructor.
  - vm_compute. reflexivity.
  - intros j total. reflexivity.
Defined.

(** ** The partition files *)

Lemma os_path_join_inj (a b1 b2 : string) :
  os_path_join a b1 = os_path_join a b2 → b1 = b2.
Proof.
  unfold os_path_join. destruct a as [|c a]; [done|].
  destruct (String.eqb _ _).
  - apply append_inv_head.
  - intros Heq%append_inv_head. by apply (append_inv_head "/").
Qed.

Lemma partition_file_inj (working_directory : string) (i j : nat) :
  partition_file working_directory i = partition_file working_directory j →
  i = j.
Proof.
  unfold partition_file, shard_name.
  intros Heq%append_inv_tail%os_path_join_inj%append_inv_head.
  by apply (format_0d_inj 4).
Qed.

Lemma WriteToTFRecord_one_shard `{Substrate} (prefix suffix : string)
    (pcoll : list bytes) (fs : gmap string file) :
  split_shards pcoll = [pcoll] →
  WriteToTFRecord prefix suffix pcoll fs
  = <[shard_name prefix 0 1 suffix := TFRecordFile pcoll]> fs.
Proof. intros Hone. unfold WriteToTFRecord. by rewrite Hone. Qed.

Lemma write_partitions_fold `{Substrate} (working_directory : string)
    (partitions : list (list bytes)) (fs : gmap string file) :
  (∀ l, split_shards l = [l]) →
  foldl (λ fs ip,
           WriteToTFRecord
             (os_path_join working_directory
                           ("partition" +:+ format_0d 4 (fst ip)))
             ".tfrecord.gz" (snd ip) fs)
        fs (imap pair partitions)
  = foldl (λ m kv, <[fst kv := snd kv]> m) fs
          (imap (λ i p, (partition_file working_directory i, TFRecordFile p))
                partitions).
Proof.
  intros Hone.
  change (imap pair partitions) with (imap (λ i x, (id i, x)) partitions).
  change (imap (λ i p, (partition_file working_directory i, TFRecordFile p))
               partitions)
    with (imap (λ i p, (partition_file working_directory (id i), TFRecordFile p))
               partitions).
  generalize (@id nat) as g. revert fs.
  induction partitions as [|p partitions IH]; intros fs g; [done|].
  rewrite !imap_cons. simpl. rewrite WriteToTFRecord_one_shard by done.
  apply (IH _ (g ∘ S)).
Qed.

Lemma NoDup_partition_files (working_directory : string)
    (partitions : list (list bytes)) :
  NoDup (map fst (imap (λ i p, (partition_file working_directory i,
                                TFRecordFile p)) partitions)).
Proof.
  apply NoDup_alt. intros i j name Hi Hj.
  rewrite list_lookup_fmap, list_lookup_imap in Hi, Hj.
  destruct (partitions !! i); [|done]. destruct (partitions !! j); [|done].
  simpl in *. injection Hi as <-. injection Hj as Heq.
  symmetry. by eapply partition_file_inj.
Qed.





(** ** File names with a comma *)

Lemma str_split_comma (a b : string) :
  comma_free a = true →
  str_split "," (a +:+ "," +:+ b) = a :: str_split "," b.
Proof.
  induction a as [|c a IH]; [done|].
  change (String c a +:+ "," +:+ b) with (String c (a +:+ "," +:+ b)).
  simpl. intros [Hc Ha]%andb_prop. apply negb_true_iff in Hc. rewrite Hc.
  by rewrite IH.
Qed.

Lemma str_split_comma_free (a : string) :
  comma_free a = true → str_split "," a = [a].
Proof.
  induction a as [|c a IH]; [done|].
  simpl. intros [Hc Ha]%andb_prop. apply negb_true_iff in Hc. rewrite Hc.
  by rewrite IH.
Qed.

(** The loop takes every input file name for a comma-separated list. A
    name without comma is read as one pattern; a partition file whose
    path has a comma, as under a working directory with a comma in its
    name, is not read itself: the loop reads what the part before the
    comma and the parts after it match (each has to find a file). *)
Theorem shuffle_partition_splits_names `{Substrate} (known_args : known_args)
    (prefix : string) (i : nat) (a b : string) (output_patterns : list string)
    (w : world) :
  output_pattern_prefix known_args = Some prefix →
  comma_free a = true →
  (patterns_match w [a] →
   shuffle_partition known_args i (Some a) output_patterns w
   = (inr (output_patterns ++ [partition_pattern prefix i]),
      set_files
        (WriteToTFRecord (partition_prefix prefix i) ".tfrecord.gz"
           (shuffle_records (ReadFromTFRecord w a)) (files w))
        (start (ShuffleRun i (partition_prefix prefix i)) w)))
  ∧ (patterns_match w (a :: str_split "," b) →
     shuffle_partition known_args i (Some (a +:+ "," +:+ b)) output_patterns w
     = (inr (output_patterns ++ [partition_pattern prefix i]),
        set_files
          (WriteToTFRecord (partition_prefix prefix i) ".tfrecord.gz"
             (shuffle_records
                (ReadFromTFRecord w a
                 ++ read_from_tfrecords_files w (str_split "," b)))
             (files w))
          (start (ShuffleRun i (partition_prefix prefix i)) w))).
Proof.
  intros Hprefix Ha. split; intros Hfound.
  - rewrite (shuffle_partition_run known_args i a prefix)
      by (done || by rewrite str_split_comma_free).
    by rewrite str_split_comma_free, read_one_pattern.
  - rewrite (shuffle_partition_run known_args i _ prefix)
      by (done || by rewrite str_split_comma).
    by rewrite str_split_comma.
Qed.

Lemma shuffle_partition_splits_names_witness :
  let ka := KnownArgs None (Some "/out/shuf") None None 2 true (Some "/w,k")
              false in
  let w := World {[ "/w,k/partition0000-00000-of-00001.tfrecord.gz"
                    := TFRecordFile [["a"%byte]];
                    "/w" := TFRecordFile [["y"%byte]];
                    "k/partition0000-00000-of-00001.tfrecord.gz"
                    := TFRecordFile [["z"%byte]] ]} ∅ [] 20 [] in
  files (snd (shuffle_partition (H:=Reference.substrate) ka 0
                (Some ("/w" +:+ "," +:+ "k/partition0000-00000-of-00001.tfrecord.gz"))
                [] w))
  !! "/out/shuf_partition0-00000-of-00001.tfrecord.gz"
  = Some (TFRecordFile [["y"%byte]; ["z"%byte]]).
Proof.
  intros ka w.
  destruct (shuffle_partition_splits_names (H:=Reference.substrate) ka "/out/shuf"
              0 "/w" "k/partition0000-00000-of-00001.tfrecord.gz" [] w
              eq_refl eq_refl) as [_ Hsplit].
  rewrite Hsplit; [vm_compute; reflexivity|].
  repeat constructor; vm_compute; discriminate.
Defined.

(** ** What a failed run leaves behind *)

Lemma removes_nothing_bind {A B} (m : M A) (f : A → M B) :
  removes_nothing m → (∀ a, removes_nothing (f a)) → removes_nothing (m ≫= f).
Proof.
  intros Hm Hf w r w' [(e & Hrun & _)|(a & w1 & Hrun & Hrest)]%bind_cases.
  - by apply Hm in Hrun.
  - apply Hm in Hrun. apply Hf in Hrest. by etrans.
Qed.

Lemma removes_nothing_same_files {A} (m : M A) :
  (∀ w r w', m w = (r, w') → files w' = files w) → removes_nothing m.
Proof. intros Hm w r w' Hrun. by rewrite (Hm _ _ _ Hrun). Qed.

Lemma foldl_dom {X} (f : gmap string file → X → gmap string file) (l : list X) :
  (∀ m x, dom m ⊆ dom (f m x)) → ∀ fs, dom fs ⊆ dom (foldl f fs l).
Proof.
  intros Hf. induction l as [|x l IH]; intros fs; simpl; [done|].
  etrans; [apply (Hf fs x)|apply IH].
Qed.

Lemma insert_dom (k : string) (v : file) (fs : gmap string file) :
  dom fs ⊆ dom (<[k := v]> fs).
Proof. rewrite dom_insert_L. apply union_subseteq_r. Qed.

Lemma WriteToTFRecord_grows `{Substrate} (prefix suffix : string)
    (pcoll : list bytes) (fs : gmap string file) :
  dom fs ⊆ dom (WriteToTFRecord prefix suffix pcoll fs).
Proof. rewrite WriteToTFRecord_dom. apply union_subseteq_l. Qed.

Lemma removes_nothing_pre_partition `{Substrate} (input_pattern : list string)
    (working_directory : string) (pipeline_args : list string) (n : Z) :
  removes_nothing (pre_partition input_pattern working_directory pipeline_args n).
Proof.
  intros w r w'.
  destruct (os_path_exists working_directory w) eqn:Hthere.
  { rewrite pre_partition_there by done. by intros [= _ <-]. }
  destruct (os_makedirs_cases working_directory w)
    as [Hblocked|(_ & _ & Hne & Hfile)].
  { rewrite pre_partition_blocked by done. by intros [= _ <-]. }
  rewrite pre_partition_fresh by done.
  destruct (build_read_cases input_pattern
              (workdir_created working_directory w))
    as [(Heq & _)|(e & Heq & _)]; rewrite Heq; [|by intros [= _ <-]].
  unfold pre_partition_pipeline.
  destruct (Partition n _) as [e|partitions]; [by intros [= _ <-]|].
  intros [= _ <-]. cbn [files set_files start workdir_created].
  apply foldl_dom. intros m x. apply WriteToTFRecord_grows.
Qed.

Lemma removes_nothing_prepartition_files `{Substrate} (known_args : known_args)
    (pipeline_args : list string) :
  removes_nothing (prepartition_files known_args pipeline_args).
Proof.
  unfold prepartition_files. destruct (pre_partition_flag known_args);
    [|by intros w r w' [= _ <-]].
  destruct (input_pattern_list known_args); [|by intros w r w' [= _ <-]].
  destruct (pre_partition_workdir known_args); [|by intros w r w' [= _ <-]].
  apply removes_nothing_bind; [apply removes_nothing_pre_partition|].
  by intros filenames w r w' [= _ <-].
Qed.

Lemma removes_nothing_shuffle_partitions `{Substrate} (known_args : known_args)
    (input_files : list (option string)) :
  ∀ i output_patterns,
    removes_nothing (shuffle_partitions known_args i input_files output_patterns).
Proof.
  induction input_files as [|filename rest IH]; intros i output_patterns; simpl.
  - by intros w r w' [= _ <-].
  - apply removes_nothing_bind; [|intros ps; apply IH].
    intros w r w' Hrun.
    by apply shuffle_partition_cases in Hrun
      as [(e & _ & ->)|(? & ? & _ & _ & _ & _ & _ & _ & ?)].
Qed.

(** When [main] raises before the merge has started, nothing has been
    removed: every path that was a file still is one, the shards of the
    partitions shuffled so far among them. Cleanup only runs after the
    merge. *)
Theorem failed_run_removes_nothing `{Substrate} (argv : list string)
    (known_args : known_args) (pipeline_args : list string)
    (w w' : world) (e : exn) (new : list execution) :
  parse_known_args argv = inr (known_args, pipeline_args) →
  main argv w = (inl e, w') →
  executed w' = executed w ++ new →
  Forall (λ x, is_merge x = false) new →
  dom (files w) ⊆ dom (files w').
Proof.
  intros Hparse Hmain Hlog Hnew.
  destruct (main_log _ _ _ _ _ _ Hparse Hmain) as [(msg & _ & ->)|Hrun]; [done|].
  unfold run in Hrun.
  apply bind_cases in Hrun as [(? & Hlevel & _)|([] & w0 & Hlevel & Hrun)];
    rewrite setLevel_run in Hlevel; [done|]. injection Hlevel as <-.
  apply bind_cases in Hrun as [(? & Hpre & _)|(input_files & w1 & Hpre & Hrun)].
  { by apply removes_nothing_prepartition_files in Hpre. }
  pose proof Hpre as Hpre'. apply removes_nothing_prepartition_files in Hpre.
  apply starts_only_prepartition_files in Hpre' as (pre & Hlog1 & _).
  apply bind_cases in Hrun as [(? & Hsh & _)|(patterns & w2 & Hsh & Hrun)].
  { apply removes_nothing_shuffle_partitions in Hsh. simpl in *. by etrans. }
  pose proof Hsh as Hsh'. apply removes_nothing_shuffle_partitions in Hsh.
  apply shuffle_partitions_log in Hsh' as (shuffles & Hlog2 & _ & _).
  apply bind_cases in Hrun as [(? & Hmerge & _)|([] & w3 & Hmerge & Hclean)].
  - apply combine_shuffled_partitions_cases in Hmerge
      as [(? & _ & ->)|(? & _)]; [|done]. simpl in *. by etrans.
  - exfalso.
    apply combine_shuffled_partitions_cases in Hmerge
      as [(? & ? & _)|(_ & _ & _ & _ & prefix & summary & _ & Hlog3)]; [done|].
    destruct (only_removes_cleanup _ _ _ _ Hclean) as (Hlog4 & _ & _).
    rewrite Hlog4, Hlog3, Hlog2, Hlog1 in Hlog. simpl in Hlog.
    rewrite <- !(assoc (++)) in Hlog. apply app_inv_head in Hlog. subst new.
    rewrite !Forall_app in Hnew. destruct Hnew as (_ & _ & Hm).
    by apply Forall_cons in Hm as [? _].
Qed.

Lemma failed_run_removes_nothing_witness :
  let argv := ["--input_pattern_list=/in/x.tfrecord.gz";
               "--output_pattern_prefix=/out/shuf";
               "--output_dataset_config_pbtxt=/out/cfg"] in
  let w' := snd (main (H:=Reference.substrate) argv Reference.one_input) in
  dom (files Reference.one_input) ⊆ dom (files w').
Proof.
  intros argv w'.
  apply (failed_run_removes_nothing (H:=Reference.substrate) argv
           (KnownArgs (Some "/in/x.tfrecord.gz") (Some "/out/shuf")
              (Some "/out/cfg") None 1 false None false) []
           Reference.one_input w'
           (ValueError "Need to set output_dataset_name.")
           [ShuffleRun 0 "/out/shuf_partition0"]).
  - reflexivity.
  - vm_compute. reflexivity.
  - vm_compute. reflexivity.
  - repeat constructor.
Defined.
